(** * Tokens.cpp: the preprocessor-aware token buffer

    A shallow embedding of clang/lib/Tooling/Syntax/Tokens.cpp: the raw
    tokenizer, the macro-expansion capturer, the Builder that fuses the
    expanded token stream with the per-file spelled tokens, and the queries
    over the finished TokenBuffer.

    Conventions.
    - A [SourceLocation] is its raw encoding, an unsigned 32-bit value kept
      in [N]; the comparison operators of the C++ class compare raw encodings.
    - Indices into vectors (the C++ [unsigned] cursors and the fields of
      [Mapping]) are kept in [nat]; where the C++ code subtracts or adds them
      the 32-bit wrap-around is written out ([usub], [uadd]).  The cursors of
      the Builder are only incremented under a [< size()] guard.
    - [assert] is modelled as checked: a failing assertion is the fault
      [AssertionFailure].  [llvm_unreachable] is the fault [Unreachable].
    - The source manager, the raw lexer and the identifier table are external
      collaborators; they are the fields of [Env].
    - Tokens.h is not among the sources: the records below hold the members
      of Token, Mapping, MarkedFile, TokenBuffer and Expansion that Tokens.cpp
      reads and writes.
    - A pointer into a vector is the vector and an offset; forming
      [&v[i]] never faults, reading through it outside the vector is the
      fault [OutOfBounds]. *)

From Stdlib Require Import ZArith NArith Lia.
From stdpp Require Import base numbers option list strings gmap.

Set Default Proof Using "Type".

(** ** Faults and the outcome monad *)

Inductive fault : Type :=
| AssertionFailure   (* a failing assert(...) *)
| Unreachable        (* llvm_unreachable(...) *)
| OutOfBounds        (* reading through a pointer outside its vector *)
| Diverges           (* a loop that never leaves its current state *)
| OutOfFuel.         (* the bound of a modelled loop was too small *)

Inductive outcome (A : Type) : Type :=
| Ok (a : A)
| Fault (f : fault).
Arguments Ok {A} a.
Arguments Fault {A} f.

#[global] Instance outcome_ret : MRet outcome := fun A a => Ok a.
#[global] Instance outcome_bind : MBind outcome := fun A B k m =>
  match m with
  | Ok a => k a
  | Fault f => Fault f
  end.

Definition assert (b : bool) : outcome unit :=
  if b then Ok tt else Fault AssertionFailure.

(** Reading [v[i]] through a reference. *)
Definition at_index {A} (v : list A) (i : nat) : outcome A :=
  match v !! i with
  | Some a => Ok a
  | None => Fault OutOfBounds
  end.

(** ** Unsigned 32-bit arithmetic *)

Definition wrap32 (z : Z) : nat := Z.to_nat (z mod 2 ^ 32).
Definition usub (a b : nat) : nat := wrap32 (Z.of_nat a - Z.of_nat b).
Definition uadd (a b : nat) : nat := wrap32 (Z.of_nat a + Z.of_nat b).

(** ** Source locations *)

Definition SourceLocation := N.
Definition FileID := Z.

(** Modelled from the spec: clang's SourceLocation (Basic/SourceLocation.h is
    not among the sources).  The raw encoding 0 is the invalid location; the
    top bit tells macro locations from file locations. *)
Definition isValid (L : SourceLocation) : bool := negb (L =? 0)%N.
Definition isFileID (L : SourceLocation) : bool := negb (N.testbit L 31).
Definition getLocWithOffset (L : SourceLocation) (Offset : N) : SourceLocation :=
  ((L + Offset) mod 2 ^ 32)%N.

(** ** Token kinds and tokens *)

Inductive TokenKind : Type :=
| tok_eof
| tok_raw_identifier
| tok_identifier
| tok_keyword (k : N)
| tok_punctuator (k : N)
| tok_literal (k : N)
| tok_annotation (k : N).

#[global] Instance TokenKind_eq_dec : EqDecision TokenKind.
Proof. solve_decision. Defined.

Definition kind_is (k1 k2 : TokenKind) : bool := bool_decide (k1 = k2).

(** clang::Token, as far as Tokens.cpp reads it. *)
Record ClangToken : Type := mkClangToken {
  getLocation : SourceLocation;
  getLength : N;
  getKind : TokenKind;
  needsCleaning : bool;
  hasUCN : bool;
  getRawIdentifier : string
}.

Definition isAnnotation (T : ClangToken) : bool :=
  match getKind T with
  | tok_annotation _ => true
  | _ => false
  end.

Definition setKind (T : ClangToken) (K : TokenKind) : ClangToken :=
  mkClangToken (getLocation T) (getLength T) K (needsCleaning T) (hasUCN T)
               (getRawIdentifier T).

(** syntax::Token *)
Record Token : Type := mkToken {
  location : SourceLocation;
  length_ : N;
  kind : TokenKind
}.

#[global] Instance Token_eq_dec : EqDecision Token.
Proof. solve_decision. Defined.

Definition endLocation (T : Token) : SourceLocation :=
  getLocWithOffset (location T) (length_ T).

(** syntax::Token::Token(SourceLocation, unsigned, tok::TokenKind) *)
Definition Token_new (Location : SourceLocation) (Length : N) (Kind : TokenKind)
  : outcome Token :=
  _ ← assert (isValid Location);
  Ok (mkToken Location Length Kind).

(** syntax::Token::Token(const clang::Token &) *)
Definition Token_of_clang (T : ClangToken) : outcome Token :=
  t ← Token_new (getLocation T) (getLength T) (getKind T);
  _ ← assert (negb (isAnnotation T));
  Ok t.

(** ** The external collaborators *)

(** One run of the raw lexer over a file: the tokens for which
    [LexFromRawLexer] returned false, in order, and the token it delivered
    when it returned true. *)
Record LexerRun : Type := mkLexerRun {
  Lexed : list ClangToken;
  Final : ClangToken
}.

Record Env : Type := mkEnv {
  (* SourceManager *)
  getFileID : SourceLocation → FileID;
  getExpansionLoc : SourceLocation → SourceLocation;
  getLocForEndOfFile : FileID → SourceLocation;
  isBeforeInTranslationUnit : SourceLocation → SourceLocation → bool;
  (* Lexer L(FID, SM.getBuffer(FID), SM, LO), run to its end *)
  RawLexer : FileID → LexerRun;
  (* IdentifierTable(LO).get(Name).getTokenID() *)
  getTokenID : string → TokenKind
}.

(** Modelled from the spec: llvm::partition_point (ADT/STLExtras.h is not
    among the sources) is std::partition_point, a binary search for the first
    element on which the predicate is false. *)
Fixpoint partition_point_from {A} (P : A → bool) (v : list A)
    (first len fuel : nat) : nat :=
  match fuel with
  | 0 => first
  | S fuel' =>
      if (len =? 0)%nat then first
      else
        let half := (len / 2)%nat in
        match v !! (first + half)%nat with
        | Some x =>
            if P x
            then partition_point_from P v (first + half + 1) (len - (half + 1)) fuel'
            else partition_point_from P v first half fuel'
        | None => first
        end
  end.

Definition partition_point {A} (v : list A) (P : A → bool) : nat :=
  partition_point_from P v 0 (length v) (length v).

(** [while (i < v.size() && P(v[i])) ++i] advances [i] by this much when the
    tokens from [i] on are [v]. *)
Fixpoint count_while {A} (P : A → bool) (v : list A) : nat :=
  match v with
  | [] => 0
  | x :: v' => if P x then S (count_while P v') else 0
  end.

Section Tokenizer.
Context (E : Env).

(** The lambda [AddToken] of syntax::tokenize. *)
Definition AddToken (Tokens : list Token) (T : ClangToken) : outcome (list Token) :=
  let T :=
    if kind_is (getKind T) tok_raw_identifier && negb (needsCleaning T)
       && negb (hasUCN T)
    then setKind T (getTokenID E (getRawIdentifier T))
    else T in
  t ← Token_of_clang T;
  Ok (Tokens ++ [t]).

(** [while (!L.LexFromRawLexer(T)) AddToken(T);] *)
Fixpoint tokenize_loop (run : list ClangToken) (Tokens : list Token)
  : outcome (list Token) :=
  match run with
  | [] => Ok Tokens
  | T :: run' =>
      Tokens ← AddToken Tokens T;
      tokenize_loop run' Tokens
  end.

Definition tokenize (FID : FileID) : outcome (list Token) :=
  let L := RawLexer E FID in
  Tokens ← tokenize_loop (Lexed L) [];
  if negb (kind_is (getKind (Final L)) tok_eof)
  then AddToken Tokens (Final L)
  else Ok Tokens.
End Tokenizer.

(** ** The TokenBuffer *)

Record Mapping : Type := mkMapping {
  BeginSpelled : nat;
  EndSpelled : nat;
  BeginExpanded : nat;
  EndExpanded : nat
}.

#[global] Instance Mapping_eq_dec : EqDecision Mapping.
Proof. solve_decision. Defined.

Record MarkedFile : Type := mkMarkedFile {
  SpelledTokens : list Token;
  Mappings : list Mapping;
  File_BeginExpanded : nat;
  File_EndExpanded : nat
}.

(** A default-constructed MarkedFile, as DenseMap's operator[] and
    try_emplace make it. *)
Definition MarkedFile_default : MarkedFile := mkMarkedFile [] [] 0 0.

Record TokenBuffer : Type := mkTokenBuffer {
  ExpandedTokens : list Token;
  Files : gmap FileID MarkedFile
}.

(** A pointer into the SpelledTokens of a file: the vector and the offset
    from its data(). *)
Record SpelledPtr : Type := mkSpelledPtr {
  ptr_file : FileID;
  ptr_index : nat
}.

#[global] Instance SpelledPtr_eq_dec : EqDecision SpelledPtr.
Proof. solve_decision. Defined.

(** llvm::ArrayRef over ExpandedTokens: Data (as an index) and Length. *)
Record ExpandedRef : Type := mkExpandedRef {
  Data : nat;
  Length : nat
}.

(** The two pointers handed to llvm::makeArrayRef(begin, end) over spelled
    tokens. *)
Record SpelledRef : Type := mkSpelledRef {
  ref_begin : SpelledPtr;
  ref_end : SpelledPtr
}.

(** The two pointers handed to llvm::makeArrayRef(begin, end) over expanded
    tokens, as offsets from ExpandedTokens.data(). *)
Record ExpandedRange : Type := mkExpandedRange {
  range_begin : nat;
  range_end : nat
}.

(** TokenBuffer::Expansion *)
Record Expansion : Type := mkExpansion {
  Spelled : SpelledRef;
  Expanded : ExpandedRange
}.

(** Reading [*P] for a spelled-token pointer. *)
Definition deref (TB : TokenBuffer) (P : SpelledPtr) : outcome Token :=
  match Files TB !! ptr_file P with
  | Some File => at_index (SpelledTokens File) (ptr_index P)
  | None => Fault OutOfBounds
  end.

Section Queries.
Context (E : Env).

(** TokenBuffer::spelledForExpandedToken; [Expanded] is the offset of the
    pointer from ExpandedTokens.data(). *)
Definition spelledForExpandedToken (TB : TokenBuffer) (Expanded : nat)
  : outcome (SpelledPtr * option Mapping) :=
  _ ← assert (bool_decide (Expanded < length (ExpandedTokens TB)));
  Tok ← at_index (ExpandedTokens TB) Expanded;
  let FID := getFileID E (getExpansionLoc E (location Tok)) in
  match Files TB !! FID with
  | None => Fault AssertionFailure   (* "no file for an expanded token" *)
  | Some File =>
      let ExpandedIndex := Expanded in
      let It := partition_point (Mappings File)
                  (λ M, bool_decide (BeginExpanded M ≤ ExpandedIndex)) in
      if bool_decide (It = 0) then
        Ok (mkSpelledPtr FID (usub ExpandedIndex (File_BeginExpanded File)), None)
      else
        M ← at_index (Mappings File) (It - 1);
        if bool_decide (ExpandedIndex < EndExpanded M) then
          Ok (mkSpelledPtr FID (BeginSpelled M), Some M)
        else
          Ok (mkSpelledPtr FID
                (uadd (EndSpelled M) (usub ExpandedIndex (EndExpanded M))),
              None)
  end.

(** TokenBuffer::spelledForExpanded *)
Definition spelledForExpanded (TB : TokenBuffer) (Expanded : ExpandedRef)
  : outcome (option SpelledRef) :=
  if bool_decide (Length Expanded = 0) then Ok None
  else
    '(BeginSpelled_, BeginMapping) ← spelledForExpandedToken TB (Data Expanded);
    '(LastSpelled, LastMapping) ←
      spelledForExpandedToken TB (Data Expanded + Length Expanded - 1);
    BeginTok ← deref TB BeginSpelled_;
    let FID := getFileID E (location BeginTok) in
    LastTok ← deref TB LastSpelled;
    if bool_decide (FID ≠ getFileID E (location LastTok)) then Ok None
    else
      match Files TB !! FID with
      | None => Fault OutOfBounds   (* Files.find(FID)->second at end() *)
      | Some File =>
          let BeginExpanded_ := Data Expanded in
          let EndExpanded_ := (Data Expanded + Length Expanded)%nat in
          if match BeginMapping with
             | Some M => bool_decide (BeginExpanded M < BeginExpanded_)
             | None => false
             end
          then Ok None
          else if match LastMapping with
                  | Some M => bool_decide (EndExpanded_ < EndExpanded M)
                  | None => false
                  end
          then Ok None
          else
            Ok (Some (mkSpelledRef
                        match BeginMapping with
                        | Some M => mkSpelledPtr FID (BeginSpelled M)
                        | None => BeginSpelled_
                        end
                        match LastMapping with
                        | Some M => mkSpelledPtr FID (EndSpelled M)
                        | None => mkSpelledPtr (ptr_file LastSpelled)
                                               (ptr_index LastSpelled + 1)
                        end))
      end.

(** TokenBuffer::expansionStartingAt *)
Definition expansionStartingAt (TB : TokenBuffer) (Spelled_ : SpelledPtr)
  : outcome (option Expansion) :=
  Tok ← deref TB Spelled_;
  _ ← assert (isFileID (location Tok));
  let FID := getFileID E (location Tok) in
  match Files TB !! FID with
  | None => Fault AssertionFailure   (* "file not tracked by token buffer" *)
  | Some File =>
      _ ← assert (bool_decide (ptr_file Spelled_ = FID)
                  && bool_decide (ptr_index Spelled_ < length (SpelledTokens File)));
      let SpelledIndex := ptr_index Spelled_ in
      let M := partition_point (Mappings File)
                 (λ M, bool_decide (BeginSpelled M < SpelledIndex)) in
      match Mappings File !! M with
      | None => Ok None            (* M == File.Mappings.end() *)
      | Some Mp =>
          if bool_decide (BeginSpelled Mp ≠ SpelledIndex) then Ok None
          else
            Ok (Some (mkExpansion
                        (mkSpelledRef (mkSpelledPtr FID (BeginSpelled Mp))
                                      (mkSpelledPtr FID (EndSpelled Mp)))
                        (mkExpandedRange (BeginExpanded Mp) (EndExpanded Mp))))
      end
  end.

(** TokenBuffer::spelledTokens(FileID) *)
Definition spelledTokens (TB : TokenBuffer) (FID : FileID) : outcome (list Token) :=
  match Files TB !! FID with
  | None => Fault AssertionFailure
  | Some File => Ok (SpelledTokens File)
  end.

(** syntax::spelledTokensTouching *)
Definition spelledTokensTouching (Loc : SourceLocation) (Tokens : TokenBuffer)
  : outcome SpelledRef :=
  _ ← assert (isFileID Loc);
  let FID := getFileID E Loc in
  All ← spelledTokens Tokens FID;
  let Right := partition_point All (λ Tok, (location Tok <? Loc)%N) in
  let AcceptRight :=
    match All !! Right with
    | Some Tok => (location Tok <=? Loc)%N
    | None => false                (* Right == All.end() *)
    end in
  let AcceptLeft :=
    match Right with
    | 0 => false                   (* Right == All.begin() *)
    | S Left =>
        match All !! Left with
        | Some Tok => (Loc <=? endLocation Tok)%N
        | None => false
        end
    end in
  Ok (mkSpelledRef
        (mkSpelledPtr FID (Right - (if AcceptLeft then 1 else 0)))
        (mkSpelledPtr FID (Right + (if AcceptRight then 1 else 0)))).

(** The range-for of spelledIdentifierTouching over the tokens from
    [P] up to the offset [End]. *)
Fixpoint first_identifier (Toks : list Token) (FID : FileID) (I : nat)
  : option SpelledPtr :=
  match Toks with
  | [] => None
  | Tok :: Toks' =>
      if kind_is (kind Tok) tok_identifier then Some (mkSpelledPtr FID I)
      else first_identifier Toks' FID (S I)
  end.

(** syntax::spelledIdentifierTouching; nullptr is [None]. *)
Definition spelledIdentifierTouching (Loc : SourceLocation) (Tokens : TokenBuffer)
  : outcome (option SpelledPtr) :=
  R ← spelledTokensTouching Loc Tokens;
  All ← spelledTokens Tokens (ptr_file (ref_begin R));
  let B := ptr_index (ref_begin R) in
  let N := ptr_index (ref_end R) - B in
  Ok (first_identifier (take N (drop B All)) (ptr_file (ref_begin R)) B).
End Queries.

(** ** The expansion capturer *)

(** PPExpansions: the raw encoding of the start of a macro call to its end.
    [lookup] of a missing key gives the default, invalid, location. *)
Definition PPExpansions_lookup (M : gmap N SourceLocation) (K : N) : SourceLocation :=
  default 0%N (M !! K).

(** The part of TokenCollector that the capturer writes. *)
Record TokenCollector : Type := mkTokenCollector {
  Expansions : gmap N SourceLocation
}.

(** CollectPPExpansions together with the collector it points to; a disabled
    capturer has [Collector = None] (the null pointer). *)
Record CollectPPExpansions : Type := mkCollectPPExpansions {
  Collector : option TokenCollector;
  LastExpansionEnd : SourceLocation
}.

Record SourceRange : Type := mkSourceRange {
  getBegin : SourceLocation;
  getEnd : SourceLocation
}.

Definition disable (C : CollectPPExpansions) : CollectPPExpansions :=
  mkCollectPPExpansions None (LastExpansionEnd C).

Section Capturer.
Context (E : Env).

(** CollectPPExpansions::MacroExpands; the macro name token, the definition
    and the arguments are not read. *)
Definition MacroExpands (C : CollectPPExpansions) (Range : SourceRange)
  : outcome CollectPPExpansions :=
  match Collector C with
  | None => Ok C
  | Some Col =>
      if negb (isFileID (getEnd Range)) then Ok C
      else if isValid (LastExpansionEnd C)
              && negb (isBeforeInTranslationUnit E (LastExpansionEnd C) (getEnd Range))
      then Ok C
      else
        Range ←
          (if negb (isFileID (getBegin Range)) then
             let Range := mkSourceRange (getExpansionLoc E (getBegin Range))
                                        (getEnd Range) in
             _ ← assert (bool_decide (is_Some (Expansions Col !! getBegin Range)));
             Ok Range
           else Ok Range);
        Ok (mkCollectPPExpansions
              (Some (mkTokenCollector
                       (<[getBegin Range := getEnd Range]> (Expansions Col))))
              (getEnd Range))
  end.
End Capturer.

(** ** The Builder *)

Record Builder : Type := mkBuilder {
  Result : TokenBuffer;
  NextExpanded : nat;                       (* cursor in ExpandedTokens *)
  NextSpelled : gmap FileID nat;            (* cursor in SpelledTokens *)
  CollectedExpansions : gmap N SourceLocation
}.

(** Builder::Builder *)
Definition Builder_new (Expanded_ : list Token)
    (CollectedExpansions_ : gmap N SourceLocation) : Builder :=
  mkBuilder (mkTokenBuffer Expanded_ ∅) 0 ∅ CollectedExpansions_.

(** [Map[Key]] of a DenseMap: the value, default-constructed when the key is
    missing (the entry is then inserted, see [touch]). *)
Definition Files_at (Fs : gmap FileID MarkedFile) (F : FileID) : MarkedFile :=
  default MarkedFile_default (Fs !! F).
Definition NextSpelled_at (NS : gmap FileID nat) (F : FileID) : nat :=
  default 0 (NS !! F).
Definition touch (Fs : gmap FileID MarkedFile) (F : FileID) : gmap FileID MarkedFile :=
  <[F := Files_at Fs F]> Fs.

Definition set_Mappings (File : MarkedFile) (Ms : list Mapping) : MarkedFile :=
  mkMarkedFile (SpelledTokens File) Ms (File_BeginExpanded File) (File_EndExpanded File).
Definition set_EndExpanded (File : MarkedFile) (End : nat) : MarkedFile :=
  mkMarkedFile (SpelledTokens File) (Mappings File) (File_BeginExpanded File) End.

(** The lambda [FlushMapping] of discard: [NS] is the cursor NextSpelled, [BE]
    the expanded position of the empty mapping, [MB] is Mapping.BeginSpelled
    and [Ms] the Mappings of the file. *)
Definition FlushMapping (NS BE : nat) (MB : nat) (Ms : list Mapping)
  : nat * list Mapping :=
  (NS, if bool_decide (MB ≠ NS) then Ms ++ [mkMapping MB NS BE BE] else Ms).

(** The run of file tokens of advance: both cursors move while the locations
    agree. *)
Fixpoint count_lockstep (Sp Ex : list Token) : nat :=
  match Sp, Ex with
  | S_ :: Sp', E_ :: Ex' =>
      if (location S_ =? location E_)%N then S (count_lockstep Sp' Ex') else 0
  | _, _ => 0
  end.

Section Build.
Context (E : Env).
(** The order in which a range-for visits the keys of Result.Files; DenseMap
    leaves it unspecified. *)
Context (DenseMap_order : gmap FileID MarkedFile → list FileID).

(** The outer while loop of discard.  [fuel] bounds the iterations; an
    iteration that leaves NextSpelled where it was would repeat for ever. *)
Fixpoint discard_loop (Target : SourceLocation) (Exps : gmap N SourceLocation)
    (Sp : list Token) (BE : nat) (fuel : nat)
    (NS MB : nat) (Ms : list Mapping) : outcome (nat * nat * list Mapping) :=
  match Sp !! NS with
  | None => Ok (NS, MB, Ms)
  | Some Tok =>
      if negb (location Tok <? Target)%N then Ok (NS, MB, Ms)
      else
        match fuel with
        | 0 => Fault OutOfFuel
        | S fuel' =>
            let KnownEnd := PPExpansions_lookup Exps (location Tok) in
            if isValid KnownEnd then
              let '(MB1, Ms1) := FlushMapping NS BE MB Ms in
              let NS' :=
                (NS + count_while (λ T, (location T <=? KnownEnd)%N) (drop NS Sp))%nat in
              let '(MB2, Ms2) := FlushMapping NS' BE MB1 Ms1 in
              if bool_decide (NS' = NS) then Fault Diverges
              else discard_loop Target Exps Sp BE fuel' NS' MB2 Ms2
            else discard_loop Target Exps Sp BE fuel' (S NS) MB Ms
        end
  end.

(** Builder::discard *)
Definition discard (B : Builder) (Drain : option FileID) : outcome Builder :=
  Target ←
    match Drain with
    | Some D => Ok (getLocForEndOfFile E D)
    | None =>
        Tok ← at_index (ExpandedTokens (Result B)) (NextExpanded B);
        Ok (getExpansionLoc E (location Tok))
    end;
  let File := getFileID E Target in
  let Fs := touch (Files (Result B)) File in
  let NS := NextSpelled_at (NextSpelled B) File in
  let Fs := match Drain with Some D => touch Fs D | None => Fs end in
  let BE :=
    match Drain with
    | Some D => File_EndExpanded (Files_at Fs D)
    | None => NextExpanded B
    end in
  let MF := Files_at Fs File in
  '(NS', MB, Ms) ←
    discard_loop Target (CollectedExpansions B) (SpelledTokens MF) BE
                 (S (length (SpelledTokens MF))) NS NS (Mappings MF);
  let '(_, Ms) := FlushMapping NS' BE MB Ms in
  Ok (mkBuilder
        (mkTokenBuffer (ExpandedTokens (Result B)) (<[File := set_Mappings MF Ms]> Fs))
        (NextExpanded B)
        (<[File := NS']> (NextSpelled B))
        (CollectedExpansions B)).

(** Builder::advance *)
Definition advance (B : Builder) : outcome Builder :=
  Tok ← at_index (ExpandedTokens (Result B)) (NextExpanded B);
  let Expansion := getExpansionLoc E (location Tok) in
  let File := getFileID E Expansion in
  let Fs := touch (Files (Result B)) File in
  let MF := Files_at Fs File in
  let NS := NextSpelled_at (NextSpelled B) File in
  let NE := NextExpanded B in
  if isFileID (location Tok) then
    let K := count_lockstep (drop NS (SpelledTokens MF))
                            (drop NE (ExpandedTokens (Result B))) in
    Ok (mkBuilder (mkTokenBuffer (ExpandedTokens (Result B)) Fs)
                  (NE + K) (<[File := (NS + K)%nat]> (NextSpelled B))
                  (CollectedExpansions B))
  else
    let End := PPExpansions_lookup (CollectedExpansions B) Expansion in
    _ ← assert (isValid End);   (* "Macro expansion wasn't captured?" *)
    let NS' :=
      (NS + count_while (λ T, (location T <=? End)%N)
                        (drop NS (SpelledTokens MF)))%nat in
    let NE' :=
      (NE + count_while (λ T, (getExpansionLoc E (location T) =? Expansion)%N)
                        (drop NE (ExpandedTokens (Result B))))%nat in
    Ok (mkBuilder
          (mkTokenBuffer (ExpandedTokens (Result B))
             (<[File := set_Mappings MF (Mappings MF ++ [mkMapping NS NS' NE NE'])]> Fs))
          NE' (<[File := NS']> (NextSpelled B))
          (CollectedExpansions B)).

(** Builder::buildSpelledTokens; [I] is the loop counter and [Toks] the
    expanded tokens from [I] on. *)
Fixpoint buildSpelledTokens_from (Toks : list Token) (I : nat)
    (Fs : gmap FileID MarkedFile) : outcome (gmap FileID MarkedFile) :=
  match Toks with
  | [] => Ok Fs
  | Tok :: Toks' =>
      let FID := getFileID E (getExpansionLoc E (location Tok)) in
      let End := if kind_is (kind Tok) tok_eof then I else (I + 1)%nat in
      Fs' ←
        match Fs !! FID with
        | Some File => Ok (<[FID := set_EndExpanded File End]> Fs)
        | None =>
            Sp ← tokenize E FID;
            Ok (<[FID := mkMarkedFile Sp [] I End]> Fs)
        end;
      buildSpelledTokens_from Toks' (S I) Fs'
  end.

Definition buildSpelledTokens (B : Builder) : outcome Builder :=
  Fs ← buildSpelledTokens_from (ExpandedTokens (Result B)) 0 (Files (Result B));
  Ok (mkBuilder (mkTokenBuffer (ExpandedTokens (Result B)) Fs)
                (NextExpanded B) (NextSpelled B) (CollectedExpansions B)).

(** The while loop of build. *)
Fixpoint build_loop (fuel : nat) (B : Builder) : outcome Builder :=
  if bool_decide (NextExpanded B < length (ExpandedTokens (Result B)) - 1) then
    match fuel with
    | 0 => Fault OutOfFuel
    | S fuel' =>
        B ← discard B None;
        let OldPosition := NextExpanded B in
        B ← advance B;
        if bool_decide (NextExpanded B = OldPosition)
        then Fault Unreachable   (* diagnoseAdvanceFailure *)
        else build_loop fuel' B
    end
  else Ok B.

(** [for (const auto &File : Result.Files) discard(File.first);] over the
    keys in the order of the range-for.  An entry that discard inserts
    while the loop runs is not visited. *)
Fixpoint drain (B : Builder) (Keys : list FileID) : outcome Builder :=
  match Keys with
  | [] => Ok B
  | F :: Keys' =>
      B ← discard B (Some F);
      drain B Keys'
  end.

(** Builder::build *)
Definition build (B : Builder) : outcome TokenBuffer :=
  _ ← assert (negb (bool_decide (ExpandedTokens (Result B) = [])));
  _ ← assert (match last (ExpandedTokens (Result B)) with
              | Some Tok => kind_is (kind Tok) tok_eof
              | None => false
              end);
  B ← buildSpelledTokens B;
  B ← build_loop (length (ExpandedTokens (Result B))) B;
  B ← drain B (DenseMap_order (Files (Result B)));
  Ok (Result B).

(** TokenCollector::consume, from the collected streams on. *)
Definition consume (Expanded_ : list Token) (Expansions_ : gmap N SourceLocation)
  : outcome TokenBuffer :=
  build (Builder_new Expanded_ Expansions_).
End Build.

(** ** The expanded stream of the collector *)

(** The token watcher that the constructor of TokenCollector installs;
    [Expanded_] is TokenCollector::Expanded.  The DEBUG_WITH_TYPE statement
    only prints and is left out. *)
Definition TokenWatcher (Expanded_ : list Token) (T : ClangToken)
  : outcome (list Token) :=
  if isAnnotation T then Ok Expanded_
  else
    t ← Token_of_clang T;
    Ok (Expanded_ ++ [t]).

(** The watcher called on the tokens the preprocessor emits, in order. *)
Fixpoint watch (Emitted : list ClangToken) (Expanded_ : list Token)
  : outcome (list Token) :=
  match Emitted with
  | [] => Ok Expanded_
  | T :: Emitted' =>
      Expanded_ ← TokenWatcher Expanded_ T;
      watch Emitted' Expanded_
  end.

(** ** More queries *)

(** Modelled from the spec: clang's SourceRange::isInvalid
    (Basic/SourceLocation.h is not among the sources); a range is valid when
    both of its ends are. *)
Definition isInvalid (R : SourceRange) : bool :=
  negb (isValid (getBegin R) && isValid (getEnd R)).

(** The empty ArrayRef [{}].  Its Data is null; a function that is handed an
    empty ArrayRef does not read Data, which is kept as the offset 0. *)
Definition ArrayRef_empty : ExpandedRef := mkExpandedRef 0 0.

Section MoreQueries.
Context (E : Env).

(** TokenBuffer::expandedTokens(SourceRange); the result is the ArrayRef
    {Begin, End} over ExpandedTokens. *)
Definition expandedTokens (TB : TokenBuffer) (R : SourceRange) : ExpandedRef :=
  if isInvalid R then ArrayRef_empty
  else
    let Begin :=
      partition_point (ExpandedTokens TB)
        (λ T, isBeforeInTranslationUnit E (location T) (getBegin R)) in
    let End :=
      partition_point (ExpandedTokens TB)
        (λ T, negb (isBeforeInTranslationUnit E (getEnd R) (location T))) in
    if bool_decide (End < Begin) then ArrayRef_empty
    else mkExpandedRef Begin (End - Begin).

(** The range-for of macroExpansions over File.Mappings; [Expansions_] is
    the vector that is returned. *)
Fixpoint macroExpansions_loop (FID : FileID) (Spelled_ : list Token)
    (Ms : list Mapping) (Expansions_ : list SpelledPtr)
  : outcome (list SpelledPtr) :=
  match Ms with
  | [] => Ok Expansions_
  | M :: Ms' =>
      Tok ← at_index Spelled_ (BeginSpelled M);
      macroExpansions_loop FID Spelled_ Ms'
        (if kind_is (kind Tok) tok_identifier
         then Expansions_ ++ [mkSpelledPtr FID (BeginSpelled M)]
         else Expansions_)
  end.

(** TokenBuffer::macroExpansions *)
Definition macroExpansions (TB : TokenBuffer) (FID : FileID)
  : outcome (list SpelledPtr) :=
  match Files TB !! FID with
  | None => Fault AssertionFailure   (* "file not tracked by token buffer" *)
  | Some File => macroExpansions_loop FID (SpelledTokens File) (Mappings File) []
  end.
End MoreQueries.

(** ** File ranges *)

(** FileRange: the members File, Begin and End. *)
Record FileRange : Type := mkFileRange {
  file : FileID;
  beginOffset : N;
  endOffset : N
}.

#[global] Instance FileRange_eq_dec : EqDecision FileRange.
Proof. solve_decision. Defined.

(** Modelled from the spec: clang's FileID::isValid (Basic/SourceLocation.h
    is not among the sources); the invalid FileID is 0. *)
Definition FileID_isValid (F : FileID) : bool := negb (F =? 0)%Z.

(** FileRange::FileRange(FileID, unsigned, unsigned) *)
Definition FileRange_new (File : FileID) (BeginOffset EndOffset : N)
  : outcome FileRange :=
  _ ← assert (FileID_isValid File);
  _ ← assert (BeginOffset <=? EndOffset)%N;
  Ok (mkFileRange File BeginOffset EndOffset).

Section Ranges.
Context (E : Env).
(** SourceManager::getDecomposedLoc and SourceManager::getFileOffset *)
Context (getDecomposedLoc : SourceLocation → FileID * N).
Context (getFileOffset : SourceLocation → N).

(** FileRange::FileRange(const SourceManager &, SourceLocation, unsigned) *)
Definition FileRange_of_length (BeginLoc : SourceLocation) (Length_ : N)
  : outcome FileRange :=
  _ ← assert (isValid BeginLoc);
  _ ← assert (isFileID BeginLoc);
  let '(File, Begin) := getDecomposedLoc BeginLoc in
  Ok (mkFileRange File Begin ((Begin + Length_) mod 2 ^ 32)%N).

(** FileRange::FileRange(const SourceManager &, SourceLocation,
    SourceLocation) *)
Definition FileRange_of_locations (BeginLoc EndLoc : SourceLocation)
  : outcome FileRange :=
  _ ← assert (isValid BeginLoc);
  _ ← assert (isFileID BeginLoc);
  _ ← assert (isValid EndLoc);
  _ ← assert (isFileID EndLoc);
  _ ← assert (bool_decide (getFileID E BeginLoc = getFileID E EndLoc));
  _ ← assert (getFileOffset BeginLoc <=? getFileOffset EndLoc)%N;
  let '(File, Begin) := getDecomposedLoc BeginLoc in
  Ok (mkFileRange File Begin (getFileOffset EndLoc)).

(** Token::range(const SourceManager &) *)
Definition range (T : Token) : outcome FileRange :=
  _ ← assert (isFileID (location T));
  let '(File, StartOffset) := getDecomposedLoc (location T) in
  FileRange_new File StartOffset ((StartOffset + length_ T) mod 2 ^ 32)%N.

(** Token::range(const SourceManager &, const Token &First,
    const Token &Last) *)
Definition range_between (First Last_ : Token) : outcome FileRange :=
  F ← range First;
  L ← range Last_;
  _ ← assert (bool_decide (file F = file L));
  _ ← assert (bool_decide (F = L) || (endOffset F <=? beginOffset L)%N);
  FileRange_new (file F) (beginOffset F) (endOffset L).
End Ranges.

(** ** Predicates of the specification *)

(** A predicate that, once false, stays false along the vector. *)
Definition prefix_closed {A} (P : A → bool) (v : list A) : Prop :=
  ∀ i j x y, i ≤ j → v !! i = Some x → v !! j = Some y → P y = true → P x = true.

Ltac run_ok := cbn [assert mbind outcome_bind mret outcome_ret].

(** The rightmost element of a vector on which a predicate holds. *)
Fixpoint rightmost_with {A} (P : A → bool) (v : list A) : option A :=
  match v with
  | [] => None
  | x :: v' =>
      match rightmost_with P v' with
      | Some y => Some y
      | None => if P x then Some x else None
      end
  end.

(** Weakly increasing along the vector. *)
Definition sorted_by {A} (key : A → nat) (v : list A) : Prop :=
  ∀ i j x y, i ≤ j → v !! i = Some x → v !! j = Some y → key x ≤ key y.

(** The answer of spelledForExpandedToken in the words of the spec. *)
Definition spelledForExpandedToken_spec (FID : FileID) (File : MarkedFile)
    (index : nat) : SpelledPtr * option Mapping :=
  match rightmost_with (λ M, bool_decide (BeginExpanded M ≤ index)) (Mappings File) with
  | None => (mkSpelledPtr FID (index - File_BeginExpanded File), None)
  | Some M =>
      if bool_decide (index < EndExpanded M)
      then (mkSpelledPtr FID (BeginSpelled M), Some M)
      else (mkSpelledPtr FID (EndSpelled M + (index - EndExpanded M)), None)
  end.

Definition sorted_by_location (v : list Token) : Prop :=
  ∀ i j x y, i ≤ j → v !! i = Some x → v !! j = Some y →
             (location x ≤ location y)%N.

(** [chain b e lo Ms hi]: the ranges [b M, e M) of the mappings follow each
    other from left to right inside [lo, hi]. *)
Fixpoint chain (b e : Mapping → nat) (lo : nat) (Ms : list Mapping) (hi : nat) : Prop :=
  match Ms with
  | [] => lo ≤ hi
  | M :: Ms' => lo ≤ b M ∧ b M ≤ e M ∧ chain b e (e M) Ms' hi
  end.

(** What FlushMapping pushes: an empty expanded side at [BE] and a
    non-empty spelled side. *)
Definition flushed (BE : nat) (M : Mapping) : Prop :=
  BeginExpanded M = BE ∧ EndExpanded M = BE ∧ BeginSpelled M < EndSpelled M.

(** [B'] differs from [B] in the entry of [File] only: the mappings [added]
    were pushed and the spelled cursor moved forward to [NS']. *)
Definition file_step (B B' : Builder) (File : FileID) (added : list Mapping)
    (NS' : nat) : Prop :=
  ExpandedTokens (Result B') = ExpandedTokens (Result B) ∧
  CollectedExpansions B' = CollectedExpansions B ∧
  (∀ G, G ≠ File →
        Files_at (Files (Result B')) G = Files_at (Files (Result B)) G ∧
        NextSpelled_at (NextSpelled B') G = NextSpelled_at (NextSpelled B) G) ∧
  Files_at (Files (Result B')) File =
    set_Mappings (Files_at (Files (Result B)) File)
                 (Mappings (Files_at (Files (Result B)) File) ++ added) ∧
  NextSpelled_at (NextSpelled B') File = NS' ∧
  NextSpelled_at (NextSpelled B) File ≤ NS' ∧
  (NextSpelled_at (NextSpelled B) File
     ≤ length (SpelledTokens (Files_at (Files (Result B)) File)) →
   NS' ≤ length (SpelledTokens (Files_at (Files (Result B)) File))).

(** The expanded position of the mappings discard pushes. *)
Definition discard_position (B : Builder) (Drain : option FileID) : nat :=
  match Drain with
  | Some D => File_EndExpanded (Files_at (Files (Result B)) D)
  | None => NextExpanded B
  end.


(** A mapping that is not empty on both sides. *)
Definition nonempty (M : Mapping) : Prop :=
  BeginExpanded M ≤ EndExpanded M ∧
  (BeginExpanded M = EndExpanded M → BeginSpelled M < EndSpelled M).

(** The invariant of the spelled side: in every file the mappings follow
    each other below the spelled cursor. *)
Definition spelled_inv (B : Builder) : Prop :=
  ∀ F, chain BeginSpelled EndSpelled 0
             (Mappings (Files_at (Files (Result B)) F))
             (NextSpelled_at (NextSpelled B) F) ∧
       Forall nonempty (Mappings (Files_at (Files (Result B)) F)).


(** The file an expanded token is accounted to. *)
Definition file_of (E : Env) (Tok : Token) : FileID :=
  getFileID E (getExpansionLoc E (location Tok)).

(** The mappings of a file are ordered and do not overlap, on both sides,
    in the non-strict sense: a mapping ends before or where a later one
    begins, and the begins increase strictly behind a mapping that is not
    empty on that side. *)
Definition weakly_ordered (Ms : list Mapping) : Prop :=
  Forall (λ M, BeginSpelled M ≤ EndSpelled M ∧ BeginExpanded M ≤ EndExpanded M) Ms ∧
  ∀ i j M1 M2, i < j → Ms !! i = Some M1 → Ms !! j = Some M2 →
    EndSpelled M1 ≤ BeginSpelled M2 ∧ EndExpanded M1 ≤ BeginExpanded M2 ∧
    (BeginSpelled M1 < EndSpelled M1 → BeginSpelled M1 < BeginSpelled M2) ∧
    (BeginExpanded M1 < EndExpanded M1 → BeginExpanded M1 < BeginExpanded M2).


(** The invariant of the expanded side while the main loop runs. *)
Definition expanded_inv (B : Builder) : Prop :=
  ∀ F, chain BeginExpanded EndExpanded 0
             (Mappings (Files_at (Files (Result B)) F)) (NextExpanded B) ∧
       Forall (λ M, EndExpanded M
                      ≤ File_EndExpanded (Files_at (Files (Result B)) F))
              (Mappings (Files_at (Files (Result B)) F)).

(** The invariant of the expanded side while the files are drained. *)
Definition drain_inv (B : Builder) : Prop :=
  ∀ F, chain BeginExpanded EndExpanded 0
             (Mappings (Files_at (Files (Result B)) F))
             (File_EndExpanded (Files_at (Files (Result B)) F)).

Section Predicates.
Context (E : Env) (DenseMap_order : gmap FileID MarkedFile → list FileID).

(** The kind AddToken stores for a lexer token. *)
Definition stored_kind (T : ClangToken) : TokenKind :=
  if kind_is (getKind T) tok_raw_identifier && negb (needsCleaning T)
     && negb (hasUCN T)
  then getTokenID E (getRawIdentifier T)
  else getKind T.

(** The filter of the capturer in the words of the spec. *)
Definition recorded_by_spec (Last : SourceLocation) (Range : SourceRange) : bool :=
  isFileID (getEnd Range)
  && (negb (isValid Last) || isBeforeInTranslationUnit E Last (getEnd Range)).

(** The key under which an event is stored. *)
Definition record_key (Range : SourceRange) : SourceLocation :=
  if isFileID (getBegin Range) then getBegin Range
  else getExpansionLoc E (getBegin Range).

(** The capturer after it has recorded [Range] into the table of [Col]. *)
Definition record_event (Col : TokenCollector) (Range : SourceRange)
  : CollectPPExpansions :=
  mkCollectPPExpansions
    (Some (mkTokenCollector (<[record_key Range := getEnd Range]> (Expansions Col))))
    (getEnd Range).

(** The capturer [C'] holds the event: its table maps the key to the end
    of the range, and that end is its LastExpansionEnd. *)
Definition holds_event (C' : CollectPPExpansions) (Range : SourceRange) : Prop :=
  ∃ Col', Collector C' = Some Col' ∧
          Expansions Col' !! record_key Range = Some (getEnd Range) ∧
          LastExpansionEnd C' = getEnd Range.

(** The claim without the Collector guard. *)
Definition records_iff_filter (C : CollectPPExpansions) (Range : SourceRange) : Prop :=
  (recorded_by_spec (LastExpansionEnd C) Range = true →
     ∃ C', MacroExpands E C Range = Ok C' ∧ holds_event C' Range) ∧
  (recorded_by_spec (LastExpansionEnd C) Range = false →
     MacroExpands E C Range = Ok C).

(** The location up to which discard skips spelled tokens. *)
Definition discard_Target (B : Builder) (Drain : option FileID) (Target : SourceLocation)
  : Prop :=
  match Drain with
  | Some D => Target = getLocForEndOfFile E D
  | None => ∃ Tok, ExpandedTokens (Result B) !! NextExpanded B = Some Tok ∧
                   Target = getExpansionLoc E (location Tok)
  end.

(** What advance does: a run of file tokens moves both cursors and pushes
    nothing; a macro expansion pushes one mapping. *)
Definition advance_effect (B B' : Builder) (Tok : Token) : Prop :=
  let Expansion := getExpansionLoc E (location Tok) in
  let File := getFileID E Expansion in
  let NS := NextSpelled_at (NextSpelled B) File in
  let NE := NextExpanded B in
  if isFileID (location Tok) then
    ∃ K, NextExpanded B' = NE + K ∧ file_step B B' File [] (NS + K)
  else
    isValid (PPExpansions_lookup (CollectedExpansions B) Expansion) = true ∧
    ∃ NS' NE',
      NextExpanded B' = NE' ∧ NE < NE' ∧ NE' ≤ length (ExpandedTokens (Result B)) ∧
      file_step B B' File [mkMapping NS NS' NE NE'] NS' ∧
      ∀ i T, NE ≤ i → i < NE' → ExpandedTokens (Result B) !! i = Some T →
             getExpansionLoc E (location T) = Expansion.

(** Where buildSpelledTokens leaves File.EndExpanded: behind every token
    of the file, the end-of-file token apart. *)
Definition ends_inv (B : Builder) : Prop :=
  ∀ i Tok, ExpandedTokens (Result B) !! i = Some Tok →
    i ≤ File_EndExpanded (Files_at (Files (Result B)) (file_of E Tok)) ∧
    (kind Tok ≠ tok_eof →
     i < File_EndExpanded (Files_at (Files (Result B)) (file_of E Tok))).

(** No captured expansion starts where an end-of-file token is. *)
Definition eof_not_captured (Expanded_ : list Token)
    (Exps : gmap N SourceLocation) : Prop :=
  ∀ Tok, Tok ∈ Expanded_ → kind Tok = tok_eof →
    isValid (PPExpansions_lookup Exps (getExpansionLoc E (location Tok))) = false.

(** Every tracked file is the file of an expanded token, and the other
    way round. *)
Definition keys_inv (B : Builder) : Prop :=
  ∀ G, is_Some (Files (Result B) !! G) ↔
       ∃ Tok, Tok ∈ ExpandedTokens (Result B) ∧ file_of E Tok = G.

(** The range-for over Result.Files visits tracked files only. *)
Definition visits_keys : Prop :=
  ∀ (Fs : gmap FileID MarkedFile) D, D ∈ DenseMap_order Fs → is_Some (Fs !! D).

(** The end of a file that contributed tokens lies in that file. *)
Definition end_in_file (Expanded_ : list Token) : Prop :=
  ∀ Tok, Tok ∈ Expanded_ →
    getFileID E (getLocForEndOfFile E (file_of E Tok)) = file_of E Tok.

(** The expanded tokens of a mapping with a non-empty expanded side exist
    and are accounted to the file [F]. *)
Definition covers (Expanded_ : list Token) (F : FileID) (M : Mapping) : Prop :=
  BeginExpanded M < EndExpanded M →
  EndExpanded M ≤ length Expanded_ ∧
  ∀ i T, BeginExpanded M ≤ i → i < EndExpanded M → Expanded_ !! i = Some T →
         file_of E T = F.

Definition shape_inv (B : Builder) : Prop :=
  ∀ F,
    NextSpelled_at (NextSpelled B) F
      ≤ length (SpelledTokens (Files_at (Files (Result B)) F)) ∧
    (SpelledTokens (Files_at (Files (Result B)) F) = [] ∨
     tokenize E F = Ok (SpelledTokens (Files_at (Files (Result B)) F))) ∧
    Forall (covers (ExpandedTokens (Result B)) F)
           (Mappings (Files_at (Files (Result B)) F)) ∧
    Forall (λ M, EndSpelled M ≤ NextSpelled_at (NextSpelled B) F)
           (Mappings (Files_at (Files (Result B)) F)).

(** The raw lexer of file [F] delivers locations of [F]. *)
Definition lexer_in_file (F : FileID) : Prop :=
  Forall (λ T, getFileID E (getLocation T) = F)
         (Lexed (RawLexer E F) ++ [Final (RawLexer E F)]).


(** The files an expanded token is accounted to begin at or before it. *)
Definition begins_inv (B : Builder) : Prop :=
  ∀ i Tok, ExpandedTokens (Result B) !! i = Some Tok →
    ∃ File, Files (Result B) !! file_of E Tok = Some File ∧
            File_BeginExpanded File ≤ i.


(** No stored mapping has an empty spelled side. *)
Definition mappings_spelled_nonempty (TB : TokenBuffer) : Prop :=
  ∀ F File M, Files TB !! F = Some File → M ∈ Mappings File →
              BeginSpelled M < EndSpelled M.

(** The spelled index of an expanded token refers to an existing spelled
    token. *)
Definition resolves_in_bounds (TB : TokenBuffer) (index : nat) : Prop :=
  ∃ P M Tok, spelledForExpandedToken E TB index = Ok (P, M) ∧ deref TB P = Ok Tok.

End Predicates.

(** ** Predicates of the further properties *)

(** The tokens of a lexer run that tokenize hands to AddToken: all of them,
    the last one unless it is an end-of-file token. *)
Definition delivered (L : LexerRun) : list ClangToken :=
  Lexed L ++ (if kind_is (getKind (Final L)) tok_eof then [] else [Final L]).

Definition is_annotation_kind (K : TokenKind) : bool :=
  match K with
  | tok_annotation _ => true
  | _ => false
  end.

(** The token the watcher stores for a token of the preprocessor. *)
Definition watched (T : ClangToken) : Token :=
  mkToken (getLocation T) (getLength T) (getKind T).

(** The table of the capturer; a disabled capturer has none. *)
Definition table (C : CollectPPExpansions) : gmap N SourceLocation :=
  match Collector C with
  | Some Col => Expansions Col
  | None => ∅
  end.

(** Keys and values of the table are file locations. *)
Definition table_in_files (C : CollectPPExpansions) : Prop :=
  ∀ K V, table C !! K = Some V → isFileID K = true ∧ isFileID V = true.

(** The tokens of a spelled range: those of the file of its pointers from
    the first offset up to the second. *)
Definition in_ref (R : SpelledRef) (i : nat) : Prop :=
  ptr_index (ref_begin R) ≤ i ∧ i < ptr_index (ref_end R).

(** The token touches the location: it starts at or before it and ends at
    or behind it. *)
Definition touches (Loc : SourceLocation) (T : Token) : Prop :=
  (location T ≤ Loc)%N ∧ (Loc ≤ endLocation T)%N.

(** The spelled tokens of a file follow each other without overlap: each
    starts behind the start of the one before and not before its end. *)
Definition laid_out (v : list Token) : Prop :=
  (∀ T, T ∈ v → (location T ≤ endLocation T)%N) ∧
  ∀ i j x y, i < j → v !! i = Some x → v !! j = Some y →
    (location x < location y)%N ∧ (endLocation x ≤ location y)%N.

(** The mapping begins at an identifier of the spelled tokens. *)
Definition begins_at_identifier (Spelled_ : list Token) (M : Mapping) : bool :=
  match Spelled_ !! BeginSpelled M with
  | Some Tok => kind_is (kind Tok) tok_identifier
  | None => false
  end.

(** No mapping of a file begins before the expanded range of the file. *)
Definition lower_inv (B : Builder) : Prop :=
  ∀ F, Forall (λ M, File_BeginExpanded (Files_at (Files (Result B)) F)
                      ≤ BeginExpanded M)
              (Mappings (Files_at (Files (Result B)) F)).

(** The spelled ranges of the mappings tile [lo, hi): each begins where the
    one before ends. *)
Fixpoint tiles (lo : nat) (Ms : list Mapping) (hi : nat) : Prop :=
  match Ms with
  | [] => lo = hi
  | M :: Ms' => BeginSpelled M = lo ∧ tiles (EndSpelled M) Ms' hi
  end.

(** The expanded position and the spelled position behind a mapping. *)
Definition behind (M : option Mapping) (File : MarkedFile) : nat * nat :=
  match M with
  | Some M => (EndExpanded M, EndSpelled M)
  | None => (File_BeginExpanded File, 0)
  end.

(** The last mapping of the file that begins at or before the expanded
    token with the index. *)
Definition mapping_before (File : MarkedFile) (index : nat) : option Mapping :=
  rightmost_with (λ M, bool_decide (BeginExpanded M ≤ index)) (Mappings File).

(** Where the run of file tokens that holds the expanded token begins, in
    the expanded tokens and in the spelled tokens of the file: behind the
    mapping before the token or, without one, where the file begins. *)
Definition run_start (File : MarkedFile) (index : nat) : nat * nat :=
  behind (mapping_before File index) File.

(** The same for the tokens that are still to come. *)
Definition tail_start (File : MarkedFile) : nat * nat :=
  behind (last (Mappings File)) File.

(** Every captured expansion ends at or behind the location it starts at. *)
Definition ends_after_begins (Exps : gmap N SourceLocation) : Prop :=
  ∀ K V, Exps !! K = Some V → isValid V = true → (K ≤ V)%N.

(** The faults that are left to consume: a failing assertion, the
    llvm_unreachable of diagnoseAdvanceFailure and, when a captured
    expansion ends before it starts, the loop of discard that never
    ends. *)
Definition consume_fault (Exps : gmap N SourceLocation) (f : fault) : Prop :=
  f = AssertionFailure ∨ f = Unreachable ∨
  (f = Diverges ∧ ¬ ends_after_begins Exps).

(** The first range lies inside the second. *)
Definition inside (F R : FileRange) : Prop :=
  file F = file R ∧
  (beginOffset R ≤ beginOffset F)%N ∧ (beginOffset F ≤ endOffset F)%N ∧
  (endOffset F ≤ endOffset R)%N.

(** The buffer of a file whose expanded tokens are its spelled tokens
    [Sp], followed by the end-of-file token. *)
Definition plain_result (F : FileID) (Sp : list Token) (Eof : Token) : TokenBuffer :=
  mkTokenBuffer (Sp ++ [Eof]) {[ F := mkMarkedFile Sp [] 0 (length Sp) ]}.

(** No mapping of the file begins behind the expanded token [b] and before
    the expanded token [b + n]. *)
Definition none_begins_inside (File : MarkedFile) (b n : nat) : Prop :=
  ∀ M, M ∈ Mappings File → BeginExpanded M ≤ b ∨ b + n ≤ BeginExpanded M.

Section MorePredicates.
Context (E : Env).

(** The token AddToken stores for a lexer token. *)
Definition stored (T : ClangToken) : Token :=
  mkToken (getLocation T) (getLength T) (stored_kind E T).

(** The lexer tokens that pass the assertions of syntax::Token's
    constructors. *)
Definition storable (T : ClangToken) : bool :=
  isValid (getLocation T) && negb (is_annotation_kind (stored_kind E T)).

(** MacroExpands called for the events of a run, in order. *)
Fixpoint MacroExpands_run (C : CollectPPExpansions) (Events : list SourceRange)
  : outcome CollectPPExpansions :=
  match Events with
  | [] => Ok C
  | Range :: Events' =>
      C ← MacroExpands E C Range;
      MacroExpands_run C Events'
  end.

(** The order of the translation unit is transitive. *)
Definition tu_transitive : Prop :=
  ∀ A B C, isBeforeInTranslationUnit E A B = true →
           isBeforeInTranslationUnit E B C = true →
           isBeforeInTranslationUnit E A C = true.

(** The expanded tokens stand in the order of the translation unit. *)
Definition expanded_in_order (TB : TokenBuffer) : Prop :=
  ∀ i j x y, i < j →
    ExpandedTokens TB !! i = Some x → ExpandedTokens TB !! j = Some y →
    isBeforeInTranslationUnit E (location x) (location y) = true ∨
    location x = location y.

(** The token lies in the closed range: not before its begin and not
    behind its end. *)
Definition within (R : SourceRange) (T : Token) : Prop :=
  isBeforeInTranslationUnit E (location T) (getBegin R) = false ∧
  isBeforeInTranslationUnit E (getEnd R) (location T) = false.

(** The expanded range of a file, as buildSpelledTokens computes it:
    BeginExpanded is the index of the first expanded token that is
    accounted to the file; EndExpanded lies behind the last one, or at it
    when it is the end-of-file token. *)
Definition file_range (Expanded_ : list Token) (F : FileID) (File : MarkedFile)
  : Prop :=
  (∃ T, Expanded_ !! File_BeginExpanded File = Some T ∧ file_of E T = F) ∧
  (∀ i T, Expanded_ !! i = Some T → file_of E T = F →
          File_BeginExpanded File ≤ i) ∧
  (∃ i T, Expanded_ !! i = Some T ∧ file_of E T = F ∧
          File_EndExpanded File
            = (if kind_is (kind T) tok_eof then i else i + 1) ∧
          ∀ j T', i < j → Expanded_ !! j = Some T' → file_of E T' ≠ F).

(** The files of the tokens seen so far are tracked, with their ranges
    and with the raw tokens of the file. *)
Definition prefix_files (Seen : list Token) (Fs : gmap FileID MarkedFile) : Prop :=
  ∀ i T, Seen !! i = Some T →
    ∃ File, Fs !! file_of E T = Some File ∧
            file_range Seen (file_of E T) File ∧
            tokenize E (file_of E T) = Ok (SpelledTokens File).

(** For the file of every expanded token: its range and its source. *)
Definition files_inv (B : Builder) : Prop :=
  ∀ i T, ExpandedTokens (Result B) !! i = Some T →
    file_range (ExpandedTokens (Result B)) (file_of E T)
               (Files_at (Files (Result B)) (file_of E T)) ∧
    tokenize E (file_of E T)
      = Ok (SpelledTokens (Files_at (Files (Result B)) (file_of E T))).

(** The raw lexer of file [F] delivers locations that are accounted to
    [F]. *)
Definition lexer_accounts_to (F : FileID) : Prop :=
  Forall (λ T, getFileID E (getExpansionLoc E (getLocation T)) = F)
         (Lexed (RawLexer E F) ++ [Final (RawLexer E F)]).

End MorePredicates.

Section RunPredicates.
Context (E : Env).
Context (Expanded_ : list Token) (Expansions_ : gmap N SourceLocation).

(** What holds of the Builder from buildSpelledTokens on. *)
Definition base_inv (B : Builder) : Prop :=
  ExpandedTokens (Result B) = Expanded_ ∧
  CollectedExpansions B = Expansions_ ∧
  keys_inv E B ∧ ends_inv E B ∧ begins_inv E B ∧ shape_inv E B ∧
  spelled_inv B ∧ files_inv E B ∧ lower_inv B.

Definition loop_base (B : Builder) : Prop := base_inv B ∧ expanded_inv B.
Definition drain_base (B : Builder) : Prop := base_inv B ∧ drain_inv B.

(** The expanded tokens from [lo] up to [hi] are accounted to [F]. *)
Definition run_of (F : FileID) (lo hi : nat) : Prop :=
  ∀ k T, lo ≤ k → k < hi → Expanded_ !! k = Some T → file_of E T = F.

(** The expanded token at [j], outside the mappings of its file and at
    the end of a run of tokens of the file, is at the location of the
    spelled token that the offsets of spelledForExpandedToken give. *)
Definition synced (B : Builder) (j : nat) (Tok : Token) : Prop :=
  let File := Files_at (Files (Result B)) (file_of E Tok) in
  (run_start File j).1 ≤ j →
  run_of (file_of E Tok) (run_start File j).1 (S j) →
  ∃ T', SpelledTokens File !! ((run_start File j).2 + (j - (run_start File j).1))
          = Some T' ∧
        location T' = location Tok.

Definition sync_inv (B : Builder) : Prop :=
  ∀ j Tok, j < NextExpanded B → Expanded_ !! j = Some Tok →
           kind Tok ≠ tok_eof → synced B j Tok.

Definition sync_all (B : Builder) : Prop :=
  ∀ j Tok, Expanded_ !! j = Some Tok → kind Tok ≠ tok_eof → synced B j Tok.

(** Behind the last mapping of a file the two cursors move together. *)
Definition tail_inv (B : Builder) : Prop :=
  ∀ F, let File := Files_at (Files (Result B)) F in
    (tail_start File).1 ≤ NextExpanded B →
    run_of F (tail_start File).1 (NextExpanded B) →
    NextSpelled_at (NextSpelled B) F
      = (tail_start File).2 + (NextExpanded B - (tail_start File).1).

(** A file without a token up to the cursor has not been touched. *)
Definition untouched_inv (B : Builder) : Prop :=
  ∀ F, (∀ k T, k ≤ NextExpanded B → Expanded_ !! k = Some T → file_of E T ≠ F) →
    NextSpelled_at (NextSpelled B) F = 0 ∧
    Mappings (Files_at (Files (Result B)) F) = [].

Definition cursor_inv (B : Builder) : Prop :=
  sync_inv B ∧ tail_inv B ∧ untouched_inv B.

(** The raw lexers of the files of the expanded tokens deliver locations
    of their own file. *)
Definition lexers_account : Prop :=
  ∀ Tok, Tok ∈ Expanded_ → lexer_accounts_to E (file_of E Tok).

End RunPredicates.

(** ** A stream in the order of the source *)

(** The place of an expanded token in its file: its expansion location. *)
Definition anchor (E : Env) (Tok : Token) : SourceLocation :=
  getExpansionLoc E (location Tok).


(** The expanded tokens arrive in the order of the source.  Of two tokens
    that are accounted to one file the later one has its place behind the
    place of the earlier one; or both have the same place, and then they
    are tokens of one macro expansion, together with all tokens between
    them. *)
Definition in_source_order (E : Env) (Expanded_ : list Token) : Prop :=
  ∀ i j Ti Tj, i < j → Expanded_ !! i = Some Ti → Expanded_ !! j = Some Tj →
    file_of E Ti = file_of E Tj →
    (anchor E Ti < anchor E Tj)%N ∨
    (isFileID (location Ti) = false ∧
     ∀ k Tk, i ≤ k → k ≤ j → Expanded_ !! k = Some Tk → anchor E Tk = anchor E Ti).










(** ** Example translation units *)

Open Scope N_scope.

Fixpoint assoc_N (L : N) (T : list (N * N)) : option N :=
  match T with
  | [] => None
  | (K, V) :: T' => if (K =? L)%N then Some V else assoc_N L T'
  end.

Fixpoint assoc_Z {A} (F : Z) (T : list (Z * A)) : option A :=
  match T with
  | [] => None
  | (K, V) :: T' => if (K =? F)%Z then Some V else assoc_Z F T'
  end.

Definition raw (L : N) (Len : N) (K : TokenKind) (Text : string) : ClangToken :=
  mkClangToken L Len K false false Text.

(** The end-of-file token of the raw lexer, at [L]. *)
Definition raw_eof (L : N) : ClangToken := raw L 0 tok_eof EmptyString.

(** A source manager in which file [F] owns the raw encodings
    [1000 F .. 1000 F + 999] and [Macros] gives the expansion location of
    each macro location; a lexer that replays [Runs]; an identifier table
    with the one keyword [int]. *)
Definition example_env (Macros : list (N * N)) (Runs : list (Z * LexerRun)) : Env :=
  let expansion := λ L, if isFileID L then L else default L (assoc_N L Macros) in
  mkEnv
    (λ L, if isFileID L then Z.of_N (L / 1000) else (- Z.of_N L)%Z)
    expansion
    (λ F, (Z.to_N F * 1000 + 999)%N)
    (λ A B, (expansion A <? expansion B)%N)
    (λ F, default (mkLexerRun [] (raw_eof (Z.to_N F * 1000)))
                  (assoc_Z F Runs))
    (λ Name, if String.eqb Name "int" then tok_keyword 0 else tok_identifier).

Definition example_order (Fs : gmap FileID MarkedFile) : list FileID :=
  (map_to_list Fs).*1.

(** The first macro location. *)
Definition macro_loc (K : N) : SourceLocation := (2 ^ 31 + K)%N.

(** [int x;] *)
Definition plain_env : Env :=
  example_env []
    [(1%Z, mkLexerRun [raw 1000 3 tok_raw_identifier "int";
                       raw 1004 1 tok_raw_identifier "x";
                       raw 1005 1 (tok_punctuator 0) ";"]
                      (raw_eof 1006))].
Definition plain_expanded : list Token :=
  [mkToken 1000 3 (tok_keyword 0); mkToken 1004 1 tok_identifier;
   mkToken 1005 1 (tok_punctuator 0); mkToken 1006 0 tok_eof].
Definition plain_spelled : list Token :=
  [mkToken 1000 3 (tok_keyword 0); mkToken 1004 1 tok_identifier;
   mkToken 1005 1 (tok_punctuator 0)].
Definition plain_file : MarkedFile := mkMarkedFile plain_spelled [] 0 3.
Definition plain_buffer : TokenBuffer :=
  mkTokenBuffer plain_expanded {[ 1%Z := plain_file ]}.


(** An object-like macro:
<<
#define X 1
int a = X;
>> *)
Definition macro_env : Env :=
  example_env [(macro_loc 10, 1020%N)]
    [(1%Z, mkLexerRun [raw 1000 1 (tok_punctuator 1) "#";
                       raw 1001 6 tok_raw_identifier "define";
                       raw 1008 1 tok_raw_identifier "X";
                       raw 1010 1 (tok_literal 0) "1";
                       raw 1012 3 tok_raw_identifier "int";
                       raw 1016 1 tok_raw_identifier "a";
                       raw 1018 1 (tok_punctuator 2) "=";
                       raw 1020 1 tok_raw_identifier "X";
                       raw 1021 1 (tok_punctuator 0) ";"]
                      (raw_eof 1023))].
Definition macro_expanded : list Token :=
  [mkToken 1012 3 (tok_keyword 0); mkToken 1016 1 tok_identifier;
   mkToken 1018 1 (tok_punctuator 2); mkToken (macro_loc 10) 1 (tok_literal 0);
   mkToken 1021 1 (tok_punctuator 0); mkToken 1023 0 tok_eof].
Definition macro_expansions : gmap N SourceLocation := {[ 1020%N := 1020%N ]}.
Definition macro_file : MarkedFile :=
  mkMarkedFile
    [mkToken 1000 1 (tok_punctuator 1); mkToken 1001 6 tok_identifier;
     mkToken 1008 1 tok_identifier; mkToken 1010 1 (tok_literal 0);
     mkToken 1012 3 (tok_keyword 0); mkToken 1016 1 tok_identifier;
     mkToken 1018 1 (tok_punctuator 2); mkToken 1020 1 tok_identifier;
     mkToken 1021 1 (tok_punctuator 0)]
    [mkMapping 0 4 0 0; mkMapping 7 8 3 4]
    0 5.
Definition macro_buffer : TokenBuffer :=
  mkTokenBuffer macro_expanded {[ 1%Z := macro_file ]}.

(** A main file (1) that includes a header (2):
<<
#include "h"        int a;
int b;
>> *)
Definition include_env : Env :=
  example_env []
    [(1%Z, mkLexerRun [raw 1000 1 (tok_punctuator 1) "#";
                       raw 1001 7 tok_raw_identifier "include";
                       raw 1009 3 (tok_literal 1) "h";
                       raw 1013 3 tok_raw_identifier "int";
                       raw 1017 1 tok_raw_identifier "b";
                       raw 1018 1 (tok_punctuator 0) ";"]
                      (raw_eof 1020));
     (2%Z, mkLexerRun [raw 2000 3 tok_raw_identifier "int";
                       raw 2004 1 tok_raw_identifier "a";
                       raw 2005 1 (tok_punctuator 0) ";"]
                      (raw_eof 2007))].
Definition include_expanded : list Token :=
  [mkToken 2000 3 (tok_keyword 0); mkToken 2004 1 tok_identifier;
   mkToken 2005 1 (tok_punctuator 0);
   mkToken 1013 3 (tok_keyword 0); mkToken 1017 1 tok_identifier;
   mkToken 1018 1 (tok_punctuator 0); mkToken 1020 0 tok_eof].
Definition include_main : MarkedFile :=
  mkMarkedFile
    [mkToken 1000 1 (tok_punctuator 1); mkToken 1001 7 tok_identifier;
     mkToken 1009 3 (tok_literal 1); mkToken 1013 3 (tok_keyword 0);
     mkToken 1017 1 tok_identifier; mkToken 1018 1 (tok_punctuator 0)]
    [mkMapping 0 3 3 3]
    3 6.
Definition include_header : MarkedFile :=
  mkMarkedFile
    [mkToken 2000 3 (tok_keyword 0); mkToken 2004 1 tok_identifier;
     mkToken 2005 1 (tok_punctuator 0)]
    [] 0 3.
Definition include_buffer : TokenBuffer :=
  mkTokenBuffer include_expanded {[ 1%Z := include_main; 2%Z := include_header ]}.

(** A macro whose expansion ends in a call that takes its arguments from the
    file:
<<
#define B(X) X
#define A 1 + B
A(2)
>>
    The name [B] of the inner call lies in the expansion of [A], at the macro
    location 4. *)
Definition merged_env : Env :=
  example_env [(macro_loc 1, 1031); (macro_loc 2, 1031); (macro_loc 3, 1031);
               (macro_loc 4, 1031)]
    [(1%Z, mkLexerRun [raw 1000 1 (tok_punctuator 1) "#";
                       raw 1001 6 tok_raw_identifier "define";
                       raw 1008 1 tok_raw_identifier "B";
                       raw 1009 1 (tok_punctuator 3) "(";
                       raw 1010 1 tok_raw_identifier "X";
                       raw 1011 1 (tok_punctuator 4) ")";
                       raw 1013 1 tok_raw_identifier "X";
                       raw 1015 1 (tok_punctuator 1) "#";
                       raw 1016 6 tok_raw_identifier "define";
                       raw 1023 1 tok_raw_identifier "A";
                       raw 1025 1 (tok_literal 0) "1";
                       raw 1027 1 (tok_punctuator 5) "+";
                       raw 1029 1 tok_raw_identifier "B";
                       raw 1031 1 tok_raw_identifier "A";
                       raw 1032 1 (tok_punctuator 3) "(";
                       raw 1033 1 (tok_literal 0) "2";
                       raw 1034 1 (tok_punctuator 4) ")"]
                      (raw_eof 1036))].
Definition merged_expanded : list Token :=
  [mkToken (macro_loc 1) 1 (tok_literal 0); mkToken (macro_loc 2) 1 (tok_punctuator 5);
   mkToken (macro_loc 3) 1 (tok_literal 0); mkToken 1036 0 tok_eof].
Definition A_range : SourceRange := mkSourceRange 1031 1031.
Definition B_range : SourceRange := mkSourceRange (macro_loc 4) 1034.
Definition A_collector : TokenCollector := mkTokenCollector {[ 1031 := 1031 ]}.
Definition A_capturer : CollectPPExpansions :=
  mkCollectPPExpansions (Some A_collector) 1031.
Definition merged_expansions : gmap N SourceLocation := {[ 1031 := 1034 ]}.
Definition merged_file : MarkedFile :=
  mkMarkedFile
    [mkToken 1000 1 (tok_punctuator 1); mkToken 1001 6 tok_identifier;
     mkToken 1008 1 tok_identifier; mkToken 1009 1 (tok_punctuator 3);
     mkToken 1010 1 tok_identifier; mkToken 1011 1 (tok_punctuator 4);
     mkToken 1013 1 tok_identifier;
     mkToken 1015 1 (tok_punctuator 1); mkToken 1016 6 tok_identifier;
     mkToken 1023 1 tok_identifier; mkToken 1025 1 (tok_literal 0);
     mkToken 1027 1 (tok_punctuator 5); mkToken 1029 1 tok_identifier;
     mkToken 1031 1 tok_identifier; mkToken 1032 1 (tok_punctuator 3);
     mkToken 1033 1 (tok_literal 0); mkToken 1034 1 (tok_punctuator 4)]
    [mkMapping 0 13 0 0; mkMapping 13 17 0 3]
    0 3.
Definition merged_buffer : TokenBuffer :=
  mkTokenBuffer merged_expanded {[ 1%Z := merged_file ]}.

(** An expanded stream in which the tokens rooted at the expansion at 1000
    are not contiguous: a file token stands between them. *)
Definition split_env : Env :=
  example_env [(macro_loc 1, 1000%N); (macro_loc 2, 1000%N)]
    [(1%Z, mkLexerRun [raw 1000 1 tok_raw_identifier "X";
                       raw 1002 1 tok_raw_identifier "f"]
                      (raw_eof 1004))].
Definition split_expanded : list Token :=
  [mkToken (macro_loc 1) 1 (tok_literal 0); mkToken 1002 1 tok_identifier;
   mkToken (macro_loc 2) 1 (tok_literal 0); mkToken 1004 0 tok_eof].
Definition split_expansions : gmap N SourceLocation := {[ 1000%N := 1000%N ]}.
Definition split_file : MarkedFile :=
  mkMarkedFile
    [mkToken 1000 1 tok_identifier; mkToken 1002 1 tok_identifier]
    [mkMapping 0 1 0 1; mkMapping 2 2 2 3]
    0 3.
Definition split_buffer : TokenBuffer :=
  mkTokenBuffer split_expanded {[ 1%Z := split_file ]}.

(** A stream whose end-of-file token sits at the location of a captured
    expansion, so that advance takes it into the mapping of the macro. *)
Definition eof_env : Env :=
  example_env [(macro_loc 1, 1000)]
    [(1%Z, mkLexerRun [raw 1000 1 tok_raw_identifier "X";
                       raw 1002 1 tok_raw_identifier "y"]
                      (raw_eof 1004))].
Definition eof_expanded : list Token :=
  [mkToken (macro_loc 1) 1 (tok_literal 0); mkToken 1000 0 tok_eof].
Definition eof_file : MarkedFile :=
  mkMarkedFile
    [mkToken 1000 1 tok_identifier; mkToken 1002 1 tok_identifier]
    [mkMapping 0 1 0 2; mkMapping 1 2 1 1]
    0 1.
Definition eof_buffer : TokenBuffer :=
  mkTokenBuffer eof_expanded {[ 1%Z := eof_file ]}.

(** Two identifiers that touch: [foo] at 1000..1003 and [bar] at 1003..1006. *)
Definition foo : Token := mkToken 1000 3 tok_identifier.
Definition bar : Token := mkToken 1003 3 tok_identifier.
Definition touching_env : Env :=
  example_env []
    [(1%Z, mkLexerRun [raw 1000 3 tok_raw_identifier "foo";
                       raw 1003 3 tok_raw_identifier "bar"]
                      (raw_eof 1006))].
Definition touching_expanded : list Token := [foo; bar; mkToken 1006 0 tok_eof].
Definition touching_file : MarkedFile := mkMarkedFile [foo; bar] [] 0 2.
Definition touching_buffer : TokenBuffer :=
  mkTokenBuffer touching_expanded {[ 1%Z := touching_file ]}.

(** An enabled capturer with an empty table, a disabled one, and the
    expansion of [X] above. *)
Definition empty_collector : TokenCollector := mkTokenCollector ∅.
Definition enabled_capturer : CollectPPExpansions :=
  mkCollectPPExpansions (Some empty_collector) 0%N.
Definition disabled_capturer : CollectPPExpansions := disable enabled_capturer.
Definition X_range : SourceRange := mkSourceRange 1020%N 1020%N.

Close Scope N_scope.

(** Case analysis over the tokens of a concrete stream. *)
Ltac each_token :=
  let Tok := fresh "Tok" in
  let H := fresh "HTok" in
  intros Tok H;
  repeat (apply elem_of_cons in H as [->|H]);
  [..|by apply elem_of_nil in H].

(** ** More examples *)

Open Scope N_scope.

(** The capturer after the two expansion events of [A(2)]. *)
Definition merged_capturer : CollectPPExpansions :=
  mkCollectPPExpansions (Some (mkTokenCollector merged_expansions)) 1034.

(** The source manager of [A(2)], with every macro location expanded at
    the use of [A]. *)
Definition rooted_env : Env :=
  mkEnv (getFileID merged_env)
        (λ L, if isFileID L then L else 1031)
        (getLocForEndOfFile merged_env)
        (λ A B, (if isFileID A then A else 1031) <? (if isFileID B then B else 1031))
        (RawLexer merged_env)
        (getTokenID merged_env).

(** [int a = X;] with an expansion recorded at [X] that ends before it
    starts, and the expanded tokens behind it. *)
Definition backwards_expansions : gmap N SourceLocation := {[ 1020 := 1000 ]}.
Definition backwards_expanded : list Token :=
  [mkToken 1021 1 (tok_punctuator 0); mkToken 1023 0 tok_eof].

(** SourceManager::getDecomposedLoc of the example source managers. *)
Definition example_decomposed (L : SourceLocation) : FileID * N :=
  (Z.of_N (L / 1000), L mod 1000).

(** The Builder of [int x;] before its first step. *)
Definition plain_builder : Builder := mkBuilder plain_buffer 0 ∅ ∅.

Close Scope N_scope.

(** * Proofs *)


(** ** Binary search and linear scans *)

Lemma partition_point_from_spec {A} (P : A → bool) (v : list A) (k : nat) :
  (∀ i x, i < k → v !! i = Some x → P x = true) →
  (∀ i x, k ≤ i → v !! i = Some x → P x = false) →
  ∀ fuel first len,
    len ≤ fuel → first ≤ k → k ≤ first + len → first + len ≤ length v →
    partition_point_from P v first len fuel = k.
Proof.
  intros Hlt Hge. induction fuel as [|fuel IH]; intros first len Hf H1 H2 H3.
  - simpl. lia.
  - cbn [partition_point_from]. destruct (Nat.eqb_spec len 0) as [->|Hlen]; [lia|].
    assert (Hhalf : len / 2 < len) by (apply Nat.div_lt; lia).
    destruct (lookup_lt_is_Some_2 v (first + len / 2)) as [x Hx]; [lia|].
    rewrite Hx. destruct (P x) eqn:HP.
    + assert (first + len / 2 < k).
      { destruct (decide (first + len / 2 < k)); [done|].
        rewrite (Hge (first + len / 2) x) in HP; [done|lia|done]. }
      apply IH; lia.
    + assert (k ≤ first + len / 2).
      { destruct (decide (k ≤ first + len / 2)); [done|].
        rewrite (Hlt (first + len / 2) x) in HP; [done|lia|done]. }
      apply IH; lia.
Qed.

Lemma partition_point_spec {A} (P : A → bool) (v : list A) (k : nat) :
  k ≤ length v →
  (∀ i x, i < k → v !! i = Some x → P x = true) →
  (∀ i x, k ≤ i → v !! i = Some x → P x = false) →
  partition_point v P = k.
Proof.
  intros Hk Hlt Hge. unfold partition_point.
  apply partition_point_from_spec; auto; lia.
Qed.

Lemma count_while_le {A} (P : A → bool) (v : list A) : count_while P v ≤ length v.
Proof. induction v as [|x v IH]; simpl; [lia|]. destruct (P x); simpl; lia. Qed.

Lemma count_while_true {A} (P : A → bool) (v : list A) i x :
  i < count_while P v → v !! i = Some x → P x = true.
Proof.
  revert i. induction v as [|y v IH]; intros i Hi Hx; simpl in *; [lia|].
  destruct (P y) eqn:HP; [|lia].
  destruct i as [|i]; simpl in Hx.
  - by simplify_eq.
  - apply (IH i); [lia|done].
Qed.

Lemma count_while_false {A} (P : A → bool) (v : list A) x :
  v !! count_while P v = Some x → P x = false.
Proof.
  induction v as [|y v IH]; simpl; [done|].
  destruct (P y) eqn:HP; simpl; [done|]. by intros [= ->].
Qed.

Lemma partition_point_count_while {A} (P : A → bool) (v : list A) :
  prefix_closed P v → partition_point v P = count_while P v.
Proof.
  intros Hmono. apply partition_point_spec.
  - apply count_while_le.
  - intros i x. apply count_while_true.
  - intros i x Hi Hx.
    destruct (lookup_lt_is_Some_2 v (count_while P v)) as [z Hz].
    { apply lookup_lt_Some in Hx. lia. }
    pose proof (count_while_false P v z Hz) as Hfalse.
    destruct (P x) eqn:HP; [|done].
    rewrite (Hmono _ _ _ _ Hi Hz Hx HP) in Hfalse. done.
Qed.

Lemma at_index_Some {A} (v : list A) i a : v !! i = Some a → at_index v i = Ok a.
Proof. unfold at_index. by intros ->. Qed.

Lemma at_index_Ok {A} (v : list A) i a : at_index v i = Ok a → v !! i = Some a.
Proof. unfold at_index. destruct (v !! i); by intros [= ->]. Qed.

Lemma prefix_closed_tail {A} (P : A → bool) x (v : list A) :
  prefix_closed P (x :: v) → prefix_closed P v.
Proof. intros H i j a b Hij Ha Hb. apply (H (S i) (S j)); [lia|done..]. Qed.

Lemma rightmost_with_none {A} (P : A → bool) (v : list A) :
  (∀ i x, v !! i = Some x → P x = false) → rightmost_with P v = None.
Proof.
  induction v as [|x v IH]; intros H; [done|]. simpl.
  rewrite IH; [|intros i y Hy; apply (H (S i) y Hy)].
  by rewrite (H 0 x).
Qed.

Lemma rightmost_with_count_while {A} (P : A → bool) (v : list A) :
  prefix_closed P v →
  rightmost_with P v =
    match count_while P v with
    | 0 => None
    | S k => v !! k
    end.
Proof.
  induction v as [|x v IH]; intros Hmono; [done|]. simpl.
  destruct (P x) eqn:HP.
  - rewrite IH by (by eapply prefix_closed_tail).
    destruct (count_while P v) as [|k] eqn:Hk; [done|]. simpl.
    destruct (lookup_lt_is_Some_2 v k) as [y Hy].
    { pose proof (count_while_le P v). lia. }
    by rewrite Hy.
  - rewrite rightmost_with_none; [done|].
    intros i y Hy. destruct (P y) eqn:HPy; [|done].
    rewrite (Hmono 0 (S i) x y) in HP; [done|lia|done..].
Qed.

Lemma usub_small (a b : nat) :
  b ≤ a → (Z.of_nat a < 2 ^ 32)%Z → usub a b = a - b.
Proof.
  intros Hle Hlt. unfold usub, wrap32. rewrite Z.mod_small by lia. lia.
Qed.

Lemma uadd_small (a b : nat) :
  (Z.of_nat a + Z.of_nat b < 2 ^ 32)%Z → uadd a b = a + b.
Proof.
  intros Hlt. unfold uadd, wrap32. rewrite Z.mod_small by lia. lia.
Qed.

Lemma sorted_by_prefix_closed_le {A} (key : A → nat) (v : list A) n :
  sorted_by key v → prefix_closed (λ x, bool_decide (key x ≤ n)) v.
Proof.
  intros Hs i j x y Hij Hx Hy HP. apply bool_decide_eq_true in HP.
  apply bool_decide_eq_true. pose proof (Hs _ _ _ _ Hij Hx Hy). lia.
Qed.

Lemma sorted_by_prefix_closed_lt {A} (key : A → nat) (v : list A) n :
  sorted_by key v → prefix_closed (λ x, bool_decide (key x < n)) v.
Proof.
  intros Hs i j x y Hij Hx Hy HP. apply bool_decide_eq_true in HP.
  apply bool_decide_eq_true. pose proof (Hs _ _ _ _ Hij Hx Hy). lia.
Qed.

(** ** spelledForExpandedToken *)

Section QueryFacts.
Context (E : Env).

(** C2: on a file whose mappings are sorted by BeginExpanded,
    spelledForExpandedToken answers from the rightmost mapping with
    BeginExpanded ≤ index: without one, the spelled token at
    index − File.BeginExpanded and no mapping; inside that mapping, the token
    at its BeginSpelled and the mapping; behind it, the token at
    EndSpelled + (index − EndExpanded) and no mapping.  The three index
    computations are the unsigned ones of the code as long as they fit 32
    bits. *)
Theorem spelledForExpandedToken_rightmost (TB : TokenBuffer) (index : nat)
    (Tok : Token) (File : MarkedFile) :
  ExpandedTokens TB !! index = Some Tok →
  Files TB !! getFileID E (getExpansionLoc E (location Tok)) = Some File →
  sorted_by BeginExpanded (Mappings File) →
  File_BeginExpanded File ≤ index →
  (Z.of_nat index < 2 ^ 32)%Z →
  Forall (λ M, (Z.of_nat (EndSpelled M) + Z.of_nat index < 2 ^ 32)%Z) (Mappings File) →
  spelledForExpandedToken E TB index =
    Ok (spelledForExpandedToken_spec
          (getFileID E (getExpansionLoc E (location Tok))) File index).
Proof.
  intros HTok HFile Hsorted Hbegin Hidx Hfit.
  unfold spelledForExpandedToken, spelledForExpandedToken_spec.
  rewrite bool_decide_eq_true_2 by (by eapply lookup_lt_Some).
  run_ok. rewrite (at_index_Some _ _ _ HTok). run_ok. rewrite HFile.
  rewrite partition_point_count_while by (by apply sorted_by_prefix_closed_le).
  rewrite rightmost_with_count_while by (by apply sorted_by_prefix_closed_le).
  destruct (count_while _ (Mappings File)) as [|k] eqn:Hk.
  - rewrite bool_decide_eq_true_2 by done. by rewrite usub_small.
  - rewrite bool_decide_eq_false_2 by done.
    replace (S k - 0) with (S k) by lia. simpl. rewrite Nat.sub_0_r.
    destruct (lookup_lt_is_Some_2 (Mappings File) k) as [M HM].
    { pose proof (count_while_le (λ M, bool_decide (BeginExpanded M ≤ index))
                    (Mappings File)). lia. }
    rewrite (at_index_Some _ _ _ HM), HM. run_ok.
    destruct (bool_decide (index < EndExpanded M)) eqn:Hin; [done|].
    apply bool_decide_eq_false in Hin.
    rewrite Forall_lookup in Hfit. specialize (Hfit _ _ HM). simpl in Hfit.
    rewrite usub_small by lia. rewrite uadd_small by lia. done.
Qed.
End QueryFacts.

(** ** The outcome monad *)

Lemma bind_Ok_inv {A B} (m : outcome A) (k : A → outcome B) b :
  m ≫= k = Ok b → ∃ a, m = Ok a ∧ k a = Ok b.
Proof. destruct m as [a|f]; [by exists a|done]. Qed.

Lemma assert_Ok_inv b u : assert b = Ok u → b = true.
Proof. by destruct b. Qed.

(** ** The tokenizer *)

Section TokenizerFacts.
Context (E : Env).

Lemma AddToken_Ok Tokens T Tokens' :
  AddToken E Tokens T = Ok Tokens' →
  Tokens' = Tokens ++ [mkToken (getLocation T) (getLength T) (stored_kind E T)].
Proof.
  unfold AddToken, stored_kind, Token_of_clang, Token_new.
  destruct (kind_is (getKind T) tok_raw_identifier && negb (needsCleaning T)
            && negb (hasUCN T)); simpl;
    destruct (isValid (getLocation T)); simpl; try done;
    match goal with |- context [assert ?b] => destruct b end; simpl; try done;
    by intros [= <-].
Qed.

Lemma stored_kind_not_eof T :
  (∀ Name, getTokenID E Name ≠ tok_eof) →
  getKind T ≠ tok_eof → stored_kind E T ≠ tok_eof.
Proof.
  intros Htable HT. unfold stored_kind.
  destruct (kind_is (getKind T) tok_raw_identifier && negb (needsCleaning T)
            && negb (hasUCN T)); auto.
Qed.

Lemma tokenize_loop_Ok run : ∀ Tokens Tokens',
  tokenize_loop E run Tokens = Ok Tokens' →
  Tokens' = Tokens ++
    map (λ T, mkToken (getLocation T) (getLength T) (stored_kind E T)) run.
Proof.
  induction run as [|T run IH]; intros Tokens Tokens' H; simpl in *.
  - rewrite app_nil_r. by simplify_eq.
  - apply bind_Ok_inv in H as (Tokens1 & H1 & H2).
    apply AddToken_Ok in H1 as ->. apply IH in H2 as ->.
    by rewrite <- app_assoc.
Qed.

(** tokenize stores no end-of-file token and drops or keeps the last
    token of the lexer by its kind. *)
Lemma tokenize_stores_no_eof (FID : FileID) (Tokens : list Token) :
  Forall (λ T, getKind T ≠ tok_eof) (Lexed (RawLexer E FID)) →
  (∀ Name, getTokenID E Name ≠ tok_eof) →
  tokenize E FID = Ok Tokens →
  Forall (λ T, kind T ≠ tok_eof) Tokens ∧
  ∃ Body,
    tokenize_loop E (Lexed (RawLexer E FID)) [] = Ok Body ∧
    length Body = length (Lexed (RawLexer E FID)) ∧
    Tokens =
      Body ++
      (if bool_decide (getKind (Final (RawLexer E FID)) = tok_eof) then []
       else [mkToken (getLocation (Final (RawLexer E FID)))
                     (getLength (Final (RawLexer E FID)))
                     (stored_kind E (Final (RawLexer E FID)))]).
Proof.
  intros Hlex Htable H. unfold tokenize in H.
  apply bind_Ok_inv in H as (Body & HBody & H).
  pose proof (tokenize_loop_Ok _ _ _ HBody) as HB. simpl in HB.
  assert (Forall (λ T, kind T ≠ tok_eof) Body) as HnoeofB.
  { subst Body. apply Forall_fmap. eapply Forall_impl; [exact Hlex|].
    intros T HT. simpl. by apply stored_kind_not_eof. }
  unfold kind_is in H.
  destruct (bool_decide (getKind (Final (RawLexer E FID)) = tok_eof)) eqn:Heof; simpl in H.
  - assert (Tokens = Body) as -> by congruence.
    split; [done|]. exists Body. rewrite app_nil_r.
    split_and!; [done| |done]. rewrite HB. by rewrite length_map.
  - apply bool_decide_eq_false in Heof. apply AddToken_Ok in H as ->. split.
    + apply Forall_app. split; [done|]. apply Forall_singleton. simpl.
      by apply stored_kind_not_eof.
    + exists Body. split_and!; [done| |done]. rewrite HB. by rewrite length_map.
Qed.
End TokenizerFacts.

(** ** The expansion capturer *)

Section CapturerFacts.
Context (E : Env).

Lemma MacroExpands_disabled (C : CollectPPExpansions) (Range : SourceRange) :
  Collector C = None → MacroExpands E C Range = Ok C.
Proof. unfold MacroExpands. by intros ->. Qed.

(** C4, amended: while the capturer is enabled, MacroExpands leaves the
    capturer as it is when the filter of the spec rejects the event, and
    records it when the filter accepts it: under the begin of the range, or
    under its expansion location when the begin is no file location, with the
    end of the range as value and as LastExpansionEnd.  In the second case
    the key has to be in the table already, else the assertion fails. *)
Theorem MacroExpands_enabled (C : CollectPPExpansions) (Col : TokenCollector)
    (Range : SourceRange) :
  Collector C = Some Col →
  (recorded_by_spec E (LastExpansionEnd C) Range = false →
     MacroExpands E C Range = Ok C) ∧
  (recorded_by_spec E (LastExpansionEnd C) Range = true →
     (isFileID (getBegin Range) = true ∨
      is_Some (Expansions Col !! getExpansionLoc E (getBegin Range))) →
     MacroExpands E C Range = Ok (record_event E Col Range) ∧
     holds_event E (record_event E Col Range) Range) ∧
  (recorded_by_spec E (LastExpansionEnd C) Range = true →
     isFileID (getBegin Range) = false →
     Expansions Col !! getExpansionLoc E (getBegin Range) = None →
     MacroExpands E C Range = Fault AssertionFailure).
Proof.
  intros HCol. unfold MacroExpands, recorded_by_spec, record_event, record_key.
  rewrite HCol.
  destruct (isFileID (getEnd Range)); simpl.
  2: { split_and!; done. }
  destruct (isValid (LastExpansionEnd C)); simpl.
  - destruct (isBeforeInTranslationUnit E (LastExpansionEnd C) (getEnd Range)); simpl.
    2: { split_and!; done. }
    split_and!; [done| |].
    + intros _ Hkey. split.
      * destruct (isFileID (getBegin Range)); simpl; [done|].
        destruct Hkey as [?|Hkey]; [done|].
        by rewrite bool_decide_eq_true_2.
      * eexists. split_and!; [done| |done]. simpl. by rewrite lookup_insert_eq.
    + intros _ -> Hnone. simpl. rewrite bool_decide_eq_false_2; [done|].
      rewrite Hnone. by intros [? ?].
  - split_and!; [done| |].
    + intros _ Hkey. split.
      * destruct (isFileID (getBegin Range)); simpl; [done|].
        destruct Hkey as [?|Hkey]; [done|].
        by rewrite bool_decide_eq_true_2.
      * eexists. split_and!; [done| |done]. simpl. by rewrite lookup_insert_eq.
    + intros _ -> Hnone. simpl. rewrite bool_decide_eq_false_2; [done|].
      rewrite Hnone. by intros [? ?].
Qed.
End CapturerFacts.

(** ** spelledForExpanded, expansionStartingAt, spelledTokensTouching *)

Section QueryFacts2.
Context (E : Env).

Lemma spelledForExpanded_empty (TB : TokenBuffer) (D : nat) :
  spelledForExpanded E TB (mkExpandedRef D 0) = Ok None.
Proof. done. Qed.

(** C7: spelledForExpanded answers none, without any fault, for an empty
    range and for a range whose two ends resolve to spelled tokens of
    different files.  The method is const: the embedding takes the buffer
    and hands none back. *)
Theorem spelledForExpanded_none (TB : TokenBuffer) (R : ExpandedRef) :
  (Length R = 0 ∨
   ∃ B BM L LM BT LT,
     spelledForExpandedToken E TB (Data R) = Ok (B, BM) ∧
     spelledForExpandedToken E TB (Data R + Length R - 1) = Ok (L, LM) ∧
     deref TB B = Ok BT ∧ deref TB L = Ok LT ∧
     getFileID E (location BT) ≠ getFileID E (location LT)) →
  spelledForExpanded E TB R = Ok None.
Proof.
  intros [Hempty|(B & BM & L & LM & BT & LT & HB & HL & HBT & HLT & Hne)];
    unfold spelledForExpanded.
  - by rewrite bool_decide_eq_true_2.
  - destruct (bool_decide (Length R = 0)); [done|].
    rewrite HB. run_ok. rewrite HL. run_ok. rewrite HBT. run_ok.
    rewrite HLT. run_ok. by rewrite bool_decide_eq_true_2.
Qed.

(** C8: for a spelled token of a tracked file whose mappings are sorted by
    BeginSpelled, expansionStartingAt returns some expansion exactly when
    the index of the token is the BeginSpelled of a mapping of the file, and
    the expansion it returns carries the two ranges of such a mapping. *)
Theorem expansionStartingAt_iff (TB : TokenBuffer) (P : SpelledPtr)
    (Tok : Token) (File : MarkedFile) :
  deref TB P = Ok Tok →
  isFileID (location Tok) = true →
  getFileID E (location Tok) = ptr_file P →
  Files TB !! ptr_file P = Some File →
  sorted_by BeginSpelled (Mappings File) →
  ∃ r, expansionStartingAt E TB P = Ok r ∧
       (is_Some r ↔ ∃ M, M ∈ Mappings File ∧ BeginSpelled M = ptr_index P) ∧
       (∀ Ex, r = Some Ex →
          ∃ M, M ∈ Mappings File ∧ BeginSpelled M = ptr_index P ∧
               Spelled Ex =
                 mkSpelledRef (mkSpelledPtr (ptr_file P) (BeginSpelled M))
                              (mkSpelledPtr (ptr_file P) (EndSpelled M)) ∧
               Expanded Ex = mkExpandedRange (BeginExpanded M) (EndExpanded M)).
Proof.
  intros HTok HisFile HFID HFile Hsorted.
  unfold expansionStartingAt. rewrite HTok. run_ok. rewrite HisFile. run_ok.
  rewrite HFID, HFile.
  assert (ptr_index P < length (SpelledTokens File)) as Hlen.
  { unfold deref in HTok. rewrite HFile in HTok.
    apply at_index_Ok in HTok. by eapply lookup_lt_Some. }
  rewrite !bool_decide_eq_true_2 by done. run_ok.
  rewrite partition_point_count_while by (by apply sorted_by_prefix_closed_lt).
  set (Q := λ M : Mapping, bool_decide (BeginSpelled M < ptr_index P)).
  set (k := count_while Q (Mappings File)).
  assert (∀ i M, i < k → Mappings File !! i = Some M → BeginSpelled M < ptr_index P)
    as Hbefore.
  { intros i M Hi HM. pose proof (count_while_true Q _ i M Hi HM) as HQ.
    by apply bool_decide_eq_true in HQ. }
  destruct (Mappings File !! k) as [Mp|] eqn:HMp.
  - pose proof (count_while_false Q _ Mp HMp) as HQ.
    apply bool_decide_eq_false in HQ.
    destruct (bool_decide (BeginSpelled Mp ≠ ptr_index P)) eqn:Hne.
    + apply bool_decide_eq_true in Hne. exists None. split_and!; [done| |done].
      split; [by intros [? ?]|]. intros (M & HM & HBS).
      apply list_elem_of_lookup in HM as [i HM].
      destruct (decide (i < k)) as [Hi|Hi].
      * specialize (Hbefore i M Hi HM). lia.
      * pose proof (Hsorted k i Mp M ltac:(lia) HMp HM). lia.
    + apply bool_decide_eq_false in Hne. apply dec_stable in Hne.
      eexists. split_and!; [done| |].
      * split; [|by eauto]. intros _. exists Mp. split; [|done].
        by eapply list_elem_of_lookup_2.
      * intros Ex [= <-]. exists Mp. simpl. split_and!; try done.
        by eapply list_elem_of_lookup_2.
  - exists None. split_and!; [done| |done].
    split; [by intros [? ?]|]. intros (M & HM & HBS).
    apply list_elem_of_lookup in HM as [i HM].
    destruct (decide (i < k)) as [Hi|Hi].
    + specialize (Hbefore i M Hi HM). lia.
    + apply lookup_ge_None in HMp. apply lookup_lt_Some in HM. lia.
Qed.

(** C9: at the common boundary of two adjacent identifiers,
    spelledTokensTouching returns the two of them, the left one first, and
    spelledIdentifierTouching returns the left one. *)
Theorem touching_adjacent_identifiers (TB : TokenBuffer) (Loc : SourceLocation)
    (File : MarkedFile) (Pre Post : list Token) (foo bar : Token) :
  isFileID Loc = true →
  Files TB !! getFileID E Loc = Some File →
  SpelledTokens File = Pre ++ foo :: bar :: Post →
  sorted_by_location (SpelledTokens File) →
  kind foo = tok_identifier →
  kind bar = tok_identifier →
  (location foo < Loc)%N →
  endLocation foo = Loc →
  location bar = Loc →
  spelledTokensTouching E Loc TB =
    Ok (mkSpelledRef (mkSpelledPtr (getFileID E Loc) (length Pre))
                     (mkSpelledPtr (getFileID E Loc) (length Pre + 2))) ∧
  spelledIdentifierTouching E Loc TB =
    Ok (Some (mkSpelledPtr (getFileID E Loc) (length Pre))).
Proof.
  intros HLoc HFile HSp Hsorted Hfoo Hbar Hlt Hend Hbarloc.
  assert (SpelledTokens File !! length Pre = Some foo) as Hfoo_at.
  { rewrite HSp. by rewrite list_lookup_middle. }
  assert (SpelledTokens File !! S (length Pre) = Some bar) as Hbar_at.
  { rewrite HSp. rewrite (cons_middle foo), app_assoc.
    rewrite list_lookup_middle; [done|]. rewrite length_app. simpl. lia. }
  assert (partition_point (SpelledTokens File) (λ Tok, (location Tok <? Loc)%N)
          = S (length Pre)) as HRight.
  { apply partition_point_spec.
    - apply lookup_lt_Some in Hbar_at. lia.
    - intros i x Hi Hx. apply N.ltb_lt.
      pose proof (Hsorted i (length Pre) x foo ltac:(lia) Hx Hfoo_at). lia.
    - intros i x Hi Hx. apply N.ltb_ge.
      pose proof (Hsorted (S (length Pre)) i bar x ltac:(lia) Hbar_at Hx). lia. }
  assert (spelledTokensTouching E Loc TB =
    Ok (mkSpelledRef (mkSpelledPtr (getFileID E Loc) (length Pre))
                     (mkSpelledPtr (getFileID E Loc) (length Pre + 2)))) as Htouch.
  { unfold spelledTokensTouching, spelledTokens. rewrite HLoc. run_ok.
    rewrite HFile. run_ok. rewrite HRight, Hbar_at, Hfoo_at.
    rewrite Hend, Hbarloc, N.leb_refl. simpl.
    do 3 f_equal; lia. }
  split; [done|].
  unfold spelledIdentifierTouching. rewrite Htouch. run_ok.
  unfold spelledTokens. simpl. rewrite HFile. run_ok.
  replace (length Pre + 2 - length Pre) with 2 by lia.
  rewrite HSp, drop_app_length. simpl.
  unfold kind_is. rewrite Hfoo. by rewrite bool_decide_eq_true_2.
Qed.
End QueryFacts2.



(** ** Ordered runs of mappings *)

Lemma chain_bounds b e lo Ms hi : chain b e lo Ms hi → lo ≤ hi.
Proof.
  revert lo. induction Ms as [|M Ms IH]; intros lo H; simpl in *; [done|].
  destruct H as (? & ? & H). apply IH in H. lia.
Qed.

Lemma chain_app b e lo Ms1 mid Ms2 hi :
  chain b e lo Ms1 mid → chain b e mid Ms2 hi → chain b e lo (Ms1 ++ Ms2) hi.
Proof.
  revert lo. induction Ms1 as [|M Ms1 IH]; intros lo H1 H2; simpl in *.
  - destruct Ms2 as [|M2 Ms2]; simpl in *; [lia|].
    destruct H2 as (? & ? & ?). split_and!; [lia|done..].
  - destruct H1 as (? & ? & H1). split_and!; [done..|]. by apply IH.
Qed.

Lemma chain_weaken b e lo lo' Ms hi hi' :
  chain b e lo Ms hi → lo' ≤ lo → hi ≤ hi' → chain b e lo' Ms hi'.
Proof.
  revert lo lo'. induction Ms as [|M Ms IH]; intros lo lo' H Hlo Hhi; simpl in *; [lia|].
  destruct H as (? & ? & H). split_and!; [lia|done|]. by apply (IH (e M)).
Qed.

Lemma chain_snoc b e lo Ms hi M hi' :
  chain b e lo Ms hi → hi ≤ b M → b M ≤ e M → e M ≤ hi' →
  chain b e lo (Ms ++ [M]) hi'.
Proof.
  intros H ? ? ?. eapply chain_app; [exact H|]. simpl. lia.
Qed.

(** The upper bound of a chain only bounds the ends of its mappings. *)
Lemma chain_lower b e lo Ms hi hi' :
  chain b e lo Ms hi → lo ≤ hi' → Forall (λ M, e M ≤ hi') Ms → chain b e lo Ms hi'.
Proof.
  revert lo. induction Ms as [|M Ms IH]; intros lo H Hlo HF; simpl in *; [done|].
  destruct H as (? & ? & H). apply Forall_cons in HF as [? HF].
  split_and!; [done..|]. by apply IH.
Qed.

Lemma chain_Forall b e lo Ms hi :
  chain b e lo Ms hi → Forall (λ M, lo ≤ b M ∧ b M ≤ e M ∧ e M ≤ hi) Ms.
Proof.
  revert lo. induction Ms as [|M Ms IH]; intros lo H; simpl in *; [done|].
  destruct H as (? & ? & H). pose proof (chain_bounds _ _ _ _ _ H).
  constructor; [lia|]. eapply Forall_impl; [by apply IH|]. simpl. lia.
Qed.

Lemma chain_pairs b e lo Ms hi i j M1 M2 :
  chain b e lo Ms hi → i < j → Ms !! i = Some M1 → Ms !! j = Some M2 →
  e M1 ≤ b M2.
Proof.
  revert lo i j. induction Ms as [|M Ms IH]; intros lo i j H Hij H1 H2; [done|].
  simpl in H. destruct H as (? & ? & H).
  destruct i as [|i]; destruct j as [|j]; simpl in *; try lia.
  - simplify_eq. apply chain_Forall in H. rewrite Forall_lookup in H.
    specialize (H _ _ H2). simpl in H. lia.
  - eapply (IH _ i j); [done|lia|done..].
Qed.

Lemma chain_sorted_b b e lo Ms hi : chain b e lo Ms hi → sorted_by b Ms.
Proof.
  intros H i j M1 M2 Hij H1 H2.
  destruct (decide (i = j)) as [->|Hne]; [by simplify_eq|].
  pose proof (chain_pairs _ _ _ _ _ i j M1 M2 H ltac:(lia) H1 H2).
  apply chain_Forall in H. rewrite Forall_lookup in H.
  specialize (H _ _ H1). simpl in H. lia.
Qed.

Lemma chain_flushed BE Ms :
  Forall (flushed BE) Ms → chain BeginExpanded EndExpanded BE Ms BE.
Proof.
  induction Ms as [|M Ms IH]; intros H; simpl; [done|].
  apply Forall_cons in H as [(HB & HE & _) H]. rewrite HB, HE.
  split_and!; [done..|]. by apply IH.
Qed.

Lemma FlushMapping_spec NS BE MB Ms MB' Ms' :
  MB ≤ NS →
  FlushMapping NS BE MB Ms = (MB', Ms') →
  MB' = NS ∧
  ∃ added, Ms' = Ms ++ added ∧ Forall (flushed BE) added ∧
           chain BeginSpelled EndSpelled MB added NS.
Proof.
  intros Hle. unfold FlushMapping. intros [= <- <-]. split; [done|].
  case_bool_decide as Hne.
  - eexists [_]. split_and!; [done| |].
    + apply Forall_singleton. unfold flushed. simpl. lia.
    + simpl. lia.
  - exists []. rewrite app_nil_r. split_and!; [done|done|]. simpl. lia.
Qed.

Lemma discard_loop_spec Target Exps Sp BE : ∀ fuel NS MB Ms NS' MB' Ms',
  MB ≤ NS →
  discard_loop Target Exps Sp BE fuel NS MB Ms = Ok (NS', MB', Ms') →
  NS ≤ NS' ∧ MB' ≤ NS' ∧ (NS ≤ length Sp → NS' ≤ length Sp) ∧
  ∃ added, Ms' = Ms ++ added ∧ Forall (flushed BE) added ∧
           chain BeginSpelled EndSpelled MB added MB'.
Proof.
  induction fuel as [|fuel IH]; intros NS MB Ms NS' MB' Ms' Hle H.
  - simpl in H. destruct (Sp !! NS) as [Tok|]; [|].
    + destruct (negb (location Tok <? Target)%N); [|done].
      simplify_eq. split_and!; [done..|]. exists []. rewrite app_nil_r. simpl. done.
    + simplify_eq. split_and!; [done..|]. exists []. rewrite app_nil_r. simpl. done.
  - cbn [discard_loop] in H. destruct (Sp !! NS) as [Tok|] eqn:HTok.
    2: { simplify_eq. split_and!; [done..|]. exists []. rewrite app_nil_r. simpl. done. }
    destruct (negb (location Tok <? Target)%N).
    { simplify_eq. split_and!; [done..|]. exists []. rewrite app_nil_r. simpl. done. }
    destruct (isValid (PPExpansions_lookup Exps (location Tok))).
    + destruct (FlushMapping NS BE MB Ms) as [MB1 Ms1] eqn:HF1.
      apply FlushMapping_spec in HF1 as (-> & added1 & -> & Hfl1 & Hch1); [|done].
      set (K := count_while _ (drop NS Sp)) in H.
      destruct (FlushMapping (NS + K) BE NS (Ms ++ added1)) as [MB2 Ms2] eqn:HF2.
      apply FlushMapping_spec in HF2 as (-> & added2 & -> & Hfl2 & Hch2); [|lia].
      case_bool_decide; [done|].
      apply IH in H as (? & ? & Hlen & added3 & -> & Hfl3 & Hch3); [|done].
      assert (K ≤ length (drop NS Sp)) as HK by apply count_while_le.
      rewrite length_drop in HK.
      split_and!; [lia|done|intros; apply Hlen; lia|].
      exists (added1 ++ added2 ++ added3). rewrite <- !app_assoc.
      split_and!; [done| |].
      * by rewrite !Forall_app.
      * eapply chain_app; [done|]. eapply chain_app; done.
    + apply IH in H as (? & ? & Hlen & added & -> & Hfl & Hch); [|lia].
      apply lookup_lt_Some in HTok.
      split_and!; [lia|done|intros; apply Hlen; lia|].
      exists added. done.
Qed.

(** ** DenseMap lookups *)

Lemma Files_at_lookup Fs F MF : Fs !! F = Some MF → Files_at Fs F = MF.
Proof. unfold Files_at. by intros ->. Qed.

Lemma Files_at_insert_eq Fs F MF : Files_at (<[F := MF]> Fs) F = MF.
Proof. unfold Files_at. by rewrite lookup_insert_eq. Qed.

Lemma Files_at_insert_ne Fs F G MF : F ≠ G → Files_at (<[F := MF]> Fs) G = Files_at Fs G.
Proof. intros. unfold Files_at. by rewrite lookup_insert_ne. Qed.

Lemma Files_at_touch Fs F G : Files_at (touch Fs F) G = Files_at Fs G.
Proof.
  unfold touch. destruct (decide (F = G)) as [->|].
  - by rewrite Files_at_insert_eq.
  - by rewrite Files_at_insert_ne.
Qed.

Lemma NextSpelled_at_insert_eq (NS : gmap FileID nat) F n :
  NextSpelled_at (<[F := n]> NS) F = n.
Proof. unfold NextSpelled_at. by rewrite lookup_insert_eq. Qed.

Lemma NextSpelled_at_insert_ne (NS : gmap FileID nat) F G n :
  F ≠ G → NextSpelled_at (<[F := n]> NS) G = NextSpelled_at NS G.
Proof. intros. unfold NextSpelled_at. by rewrite lookup_insert_ne. Qed.

Lemma touch_is_Some Fs F G : is_Some (touch Fs F !! G) ↔ is_Some (Fs !! G) ∨ G = F.
Proof.
  unfold touch. destruct (decide (F = G)) as [->|].
  - rewrite lookup_insert_eq. split; [by right|by eauto].
  - rewrite lookup_insert_ne by done. split; [by left|]. by intros [?| ->].
Qed.

(** ** One step of the Builder, seen from one file *)

Section BuildSteps.
Context (E : Env).

Lemma discard_spec B Drain B' :
  discard E B Drain = Ok B' →
  ∃ Target added NS',
    discard_Target E B Drain Target ∧
    NextExpanded B' = NextExpanded B ∧
    file_step B B' (getFileID E Target) added NS' ∧
    Forall (flushed (discard_position B Drain)) added ∧
    chain BeginSpelled EndSpelled
          (NextSpelled_at (NextSpelled B) (getFileID E Target)) added NS'.
Proof.
  unfold discard. intros H.
  apply bind_Ok_inv in H as (Target & HTarget & H).
  set (File := getFileID E Target) in *.
  set (Fs := match Drain with
             | Some D => touch (touch (Files (Result B)) File) D
             | None => touch (Files (Result B)) File
             end) in *.
  assert (∀ G, Files_at Fs G = Files_at (Files (Result B)) G) as HFs.
  { intros G. unfold Fs. destruct Drain; by rewrite ?Files_at_touch. }
  set (BE := match Drain with
             | Some D => File_EndExpanded (Files_at Fs D)
             | None => NextExpanded B
             end) in *.
  assert (BE = discard_position B Drain) as HBE.
  { unfold BE, discard_position. destruct Drain; by rewrite ?HFs. }
  apply bind_Ok_inv in H as ([[NS' MB] Ms] & Hloop & H).
  apply discard_loop_spec in Hloop as (HNS & HMB & Hlen & added & -> & Hfl & Hch);
    [|done].
  destruct (FlushMapping NS' BE MB (Mappings (Files_at Fs File) ++ added))
    as [MB2 Ms2] eqn:HF.
  apply FlushMapping_spec in HF as (-> & added2 & -> & Hfl2 & Hch2); [|done].
  injection H as <-. exists Target, (added ++ added2), NS'.
  split_and!.
  - destruct Drain as [D|]; simpl in *.
    + by injection HTarget as <-.
    + apply bind_Ok_inv in HTarget as (Tok & HTok & HT).
      injection HT as <-. exists Tok. split; [|done]. by apply at_index_Ok.
  - done.
  - unfold file_step. simpl. split_and!; try done.
    + intros G HG. rewrite Files_at_insert_ne, NextSpelled_at_insert_ne by done.
      by rewrite HFs.
    + rewrite Files_at_insert_eq, HFs. by rewrite app_assoc.
    + by rewrite NextSpelled_at_insert_eq.
    + by rewrite HFs in Hlen.
  - rewrite <- HBE. by apply Forall_app.
  - by eapply chain_app.
Qed.

Lemma count_lockstep_le Sp Ex : count_lockstep Sp Ex ≤ length Sp.
Proof.
  revert Ex. induction Sp as [|S_ Sp IH]; intros [|E_ Ex]; simpl; try lia.
  destruct (location S_ =? location E_)%N; simpl; [|lia].
  specialize (IH Ex). lia.
Qed.

Lemma count_while_drop_true {A} (P : A → bool) (v : list A) n i x :
  n ≤ i → i < n + count_while P (drop n v) → v !! i = Some x → P x = true.
Proof.
  intros Hn Hi Hx. apply (count_while_true P (drop n v) (i - n)); [lia|].
  rewrite lookup_drop. by replace (n + (i - n)) with i by lia.
Qed.

Lemma count_while_drop_pos {A} (P : A → bool) (v : list A) n x :
  v !! n = Some x → P x = true → 0 < count_while P (drop n v).
Proof.
  intros Hx HP. destruct (drop n v) as [|y w] eqn:Hd.
  - apply (f_equal length) in Hd. rewrite length_drop in Hd.
    apply lookup_lt_Some in Hx. simpl in Hd. lia.
  - assert (drop n v !! 0 = Some x) as H0.
    { rewrite lookup_drop. by rewrite Nat.add_0_r. }
    rewrite Hd in H0. simpl in H0. injection H0 as ->.
    simpl. rewrite HP. lia.
Qed.

Lemma count_while_drop_le {A} (P : A → bool) (v : list A) n :
  n ≤ length v → n + count_while P (drop n v) ≤ length v.
Proof.
  intros Hn. pose proof (count_while_le P (drop n v)) as H.
  rewrite length_drop in H. lia.
Qed.

Lemma advance_spec B B' :
  advance E B = Ok B' →
  ∃ Tok, ExpandedTokens (Result B) !! NextExpanded B = Some Tok ∧
         advance_effect E B B' Tok.
Proof.
  unfold advance. intros H.
  apply bind_Ok_inv in H as (Tok & HTok & H). apply at_index_Ok in HTok.
  exists Tok. split; [done|]. unfold advance_effect.
  set (Expansion := getExpansionLoc E (location Tok)) in *.
  set (File := getFileID E Expansion) in *.
  set (Fs := touch (Files (Result B)) File) in *.
  assert (∀ G, Files_at Fs G = Files_at (Files (Result B)) G) as HFs.
  { intros G. apply Files_at_touch. }
  destruct (isFileID (location Tok)).
  - injection H as <-. eexists. split; [done|].
    unfold file_step. simpl. split_and!; try done.
    + intros G HG. by rewrite HFs, NextSpelled_at_insert_ne.
    + rewrite HFs, app_nil_r. by destruct (Files_at (Files (Result B)) File).
    + by rewrite NextSpelled_at_insert_eq.
    + lia.
    + intros Hle. rewrite HFs.
      pose proof (count_lockstep_le
        (drop (NextSpelled_at (NextSpelled B) File)
              (SpelledTokens (Files_at (Files (Result B)) File)))
        (drop (NextExpanded B) (ExpandedTokens (Result B)))) as HK.
      rewrite length_drop in HK. lia.
  - apply bind_Ok_inv in H as (u & Hvalid & H). apply assert_Ok_inv in Hvalid.
    injection H as <-. split; [done|]. eexists _, _. unfold file_step. simpl.
    rewrite Files_at_insert_eq, NextSpelled_at_insert_eq, !HFs.
    split_and!; try done.
    + apply Nat.lt_add_pos_r. eapply count_while_drop_pos; [done|].
      apply N.eqb_refl.
    + apply count_while_drop_le. apply lookup_lt_Some in HTok. lia.
    + intros G HG. by rewrite Files_at_insert_ne, HFs, NextSpelled_at_insert_ne.
    + lia.
    + intros Hle. by apply count_while_drop_le.
    + intros i T Hi1 Hi2 HT. apply N.eqb_eq.
      apply (count_while_drop_true
               (λ T, (getExpansionLoc E (location T) =? Expansion)%N)
               (ExpandedTokens (Result B)) (NextExpanded B) i T Hi1 Hi2 HT).
Qed.
End BuildSteps.


(** ** The spelled side of the mappings *)

Lemma flushed_nonempty BE M : flushed BE M → nonempty M.
Proof. intros (? & ? & ?). unfold nonempty. lia. Qed.

Lemma spelled_inv_step B B' File added NS' :
  spelled_inv B →
  file_step B B' File added NS' →
  chain BeginSpelled EndSpelled (NextSpelled_at (NextSpelled B) File) added NS' →
  Forall nonempty added →
  spelled_inv B'.
Proof.
  intros HI (_ & _ & Hother & Hfile & HNS & Hle & _) Hch Hne F.
  destruct (decide (F = File)) as [->|HF].
  - rewrite Hfile, HNS. simpl. destruct (HI File) as [Hc Hn]. split.
    + by eapply chain_app.
    + by apply Forall_app.
  - destruct (Hother F HF) as [-> ->]. apply HI.
Qed.

Section BuildInvariants.
Context (E : Env) (DenseMap_order : gmap FileID MarkedFile → list FileID).

Lemma discard_spelled_inv B Drain B' :
  spelled_inv B → discard E B Drain = Ok B' → spelled_inv B'.
Proof.
  intros HI H. apply discard_spec in H as (T & added & NS' & _ & _ & Hstep & Hfl & Hch).
  eapply spelled_inv_step; [done..|].
  eapply Forall_impl; [done|]. apply flushed_nonempty.
Qed.

Lemma advance_spelled_inv B B' :
  spelled_inv B → advance E B = Ok B' → spelled_inv B'.
Proof.
  intros HI H. apply advance_spec in H as (Tok & HTok & H).
  unfold advance_effect in H. destruct (isFileID (location Tok)).
  - destruct H as (K & _ & Hstep). eapply spelled_inv_step; [done..| |done].
    simpl. lia.
  - destruct H as (_ & NS' & NE' & _ & Hlt & _ & Hstep & _).
    pose proof Hstep as (_ & _ & _ & _ & _ & Hle & _).
    eapply spelled_inv_step; [done..| |].
    + simpl. lia.
    + apply Forall_singleton. unfold nonempty. simpl. lia.
Qed.

Lemma count_while_drop_pos_iff {A} (P : A → bool) (v : list A) n :
  0 < count_while P (drop n v) ↔ ∃ x, v !! n = Some x ∧ P x = true.
Proof.
  split.
  - intros Hpos. destruct (drop n v) as [|y w] eqn:Hd; [simpl in Hpos; lia|].
    assert (v !! n = Some y) as Hy.
    { rewrite <- (Nat.add_0_r n), <- lookup_drop. by rewrite Hd. }
    exists y. split; [done|]. simpl in Hpos. destruct (P y); [done|lia].
  - intros (x & Hx & HP). by eapply count_while_drop_pos.
Qed.

(** The mapping of advance: its expanded side is never empty; its spelled
    side is empty unless the spelled token at the cursor exists and lies
    at or before the captured end of the expansion. *)
Lemma advance_macro_mapping B B' Tok :
  advance E B = Ok B' →
  ExpandedTokens (Result B) !! NextExpanded B = Some Tok →
  isFileID (location Tok) = false →
  let Expansion := getExpansionLoc E (location Tok) in
  let File := getFileID E Expansion in
  let End := PPExpansions_lookup (CollectedExpansions B) Expansion in
  let NS := NextSpelled_at (NextSpelled B) File in
  let Sp := SpelledTokens (Files_at (Files (Result B)) File) in
  ∃ NS' NE',
    Mappings (Files_at (Files (Result B')) File)
      = Mappings (Files_at (Files (Result B)) File)
        ++ [mkMapping NS NS' (NextExpanded B) NE'] ∧
    NextExpanded B < NE' ∧
    (NS < NS' ↔ ∃ T, Sp !! NS = Some T ∧ (location T ≤ End)%N).
Proof.
  intros H HTok Hmacro. simpl. unfold advance in H.
  rewrite (at_index_Some _ _ _ HTok) in H. cbn [mbind outcome_bind] in H.
  rewrite Hmacro in H.
  apply bind_Ok_inv in H as (u & Hvalid & H). injection H as <-. simpl.
  rewrite Files_at_insert_eq, !Files_at_touch. simpl.
  eexists _, _. split_and!; [done| |].
  - apply Nat.lt_add_pos_r. eapply count_while_drop_pos; [done|].
    apply N.eqb_refl.
  - set (K := count_while _ _). split.
    + intros Hlt. assert (0 < K) as Hpos by lia.
      apply count_while_drop_pos_iff in Hpos as (T & HT & HP).
      exists T. split; [done|]. by apply N.leb_le.
    + intros (T & HT & HP). apply Nat.lt_add_pos_r.
      apply count_while_drop_pos_iff. exists T. split; [done|]. by apply N.leb_le.
Qed.

Lemma build_loop_spelled_inv fuel : ∀ B B',
  spelled_inv B → build_loop E fuel B = Ok B' → spelled_inv B'.
Proof.
  induction fuel as [|fuel IH]; intros B B' HI H; simpl in H.
  - case_bool_decide; [done|]. by simplify_eq.
  - case_bool_decide; [|by simplify_eq].
    apply bind_Ok_inv in H as (B1 & H1 & H).
    apply bind_Ok_inv in H as (B2 & H2 & H).
    case_bool_decide; [done|].
    eapply IH; [|done].
    eapply advance_spelled_inv; [|done]. by eapply discard_spelled_inv.
Qed.

Lemma drain_spelled_inv Keys : ∀ B B',
  spelled_inv B → drain E B Keys = Ok B' → spelled_inv B'.
Proof.
  induction Keys as [|F Keys IH]; intros B B' HI H; simpl in H.
  - by simplify_eq.
  - apply bind_Ok_inv in H as (B1 & H1 & H).
    eapply IH; [|done]. by eapply discard_spelled_inv.
Qed.

(** buildSpelledTokens creates files without mappings. *)
Lemma buildSpelledTokens_from_Mappings Toks : ∀ I Fs Fs',
  buildSpelledTokens_from E Toks I Fs = Ok Fs' →
  (∀ F, Mappings (Files_at Fs F) = []) →
  ∀ F, Mappings (Files_at Fs' F) = [].
Proof.
  induction Toks as [|Tok Toks IH]; intros I Fs Fs' H Hnil; simpl in H.
  - by simplify_eq.
  - apply bind_Ok_inv in H as (Fs1 & H1 & H). eapply IH; [done|].
    intros F. set (FID := getFileID E (getExpansionLoc E (location Tok))) in *.
    destruct (Fs !! FID) as [File|] eqn:HFile.
    + injection H1 as <-. destruct (decide (FID = F)) as [<-|].
      * rewrite Files_at_insert_eq. simpl.
        rewrite <- (Files_at_lookup _ _ _ HFile). apply Hnil.
      * by rewrite Files_at_insert_ne.
    + apply bind_Ok_inv in H1 as (Sp & _ & H1). injection H1 as <-.
      destruct (decide (FID = F)) as [<-|].
      * by rewrite Files_at_insert_eq.
      * by rewrite Files_at_insert_ne.
Qed.

Lemma build_spelled_inv B TB :
  Files (Result B) = ∅ → NextSpelled B = ∅ →
  build E DenseMap_order B = Ok TB →
  ∃ B', Result B' = TB ∧ spelled_inv B'.
Proof.
  intros HFs HNS H. unfold build in H.
  apply bind_Ok_inv in H as (_ & _ & H).
  apply bind_Ok_inv in H as (_ & _ & H).
  apply bind_Ok_inv in H as (B1 & H1 & H).
  apply bind_Ok_inv in H as (B2 & H2 & H).
  apply bind_Ok_inv in H as (B3 & H3 & H).
  injection H as <-. exists B3. split; [done|].
  eapply drain_spelled_inv; [|done].
  eapply build_loop_spelled_inv; [|done].
  unfold buildSpelledTokens in H1.
  apply bind_Ok_inv in H1 as (Fs1 & HFs1 & H1). injection H1 as <-.
  intros F. simpl.
  rewrite (buildSpelledTokens_from_Mappings _ _ _ _ HFs1); [|by rewrite HFs].
  rewrite HNS. split; [|done]. simpl. unfold NextSpelled_at.
  rewrite lookup_empty. simpl. lia.
Qed.

(** Whatever the stream is, every mapping of a built buffer has
    BeginSpelled ≤ EndSpelled and is not empty on both sides: a mapping
    with an empty expanded side, as FlushMapping pushes them, has a
    non-empty spelled side, and the mapping advance pushes has a non-empty
    expanded side. *)
Lemma build_mappings_not_empty (Expanded_ : list Token)
    (Expansions_ : gmap N SourceLocation) (TB : TokenBuffer)
    (F : FileID) (File : MarkedFile) (M : Mapping) :
  consume E DenseMap_order Expanded_ Expansions_ = Ok TB →
  Files TB !! F = Some File →
  M ∈ Mappings File →
  BeginSpelled M ≤ EndSpelled M ∧
  BeginExpanded M ≤ EndExpanded M ∧
  (BeginExpanded M = EndExpanded M → BeginSpelled M < EndSpelled M).
Proof.
  intros H HFile HM. unfold consume in H.
  apply build_spelled_inv in H as (B' & <- & HI); [|done..].
  destruct (HI F) as [Hch Hne]. rewrite (Files_at_lookup _ _ _ HFile) in Hch, Hne.
  apply chain_Forall in Hch. rewrite Forall_forall in Hch, Hne.
  specialize (Hch M HM). specialize (Hne M HM). unfold nonempty in Hne.
  simpl in Hch. split_and!; [lia|tauto|tauto].
Qed.
End BuildInvariants.


(** ** The expanded side of the mappings *)


Lemma file_step_static B B' File added NS' G :
  file_step B B' File added NS' →
  File_EndExpanded (Files_at (Files (Result B')) G)
    = File_EndExpanded (Files_at (Files (Result B)) G) ∧
  File_BeginExpanded (Files_at (Files (Result B')) G)
    = File_BeginExpanded (Files_at (Files (Result B)) G) ∧
  SpelledTokens (Files_at (Files (Result B')) G)
    = SpelledTokens (Files_at (Files (Result B)) G).
Proof.
  intros (_ & _ & Hother & Hfile & _).
  destruct (decide (G = File)) as [->|HG].
  - by rewrite Hfile.
  - by destruct (Hother G HG) as [-> _].
Qed.

Section ExpandedSide.
Context (E : Env) (DenseMap_order : gmap FileID MarkedFile → list FileID).

Lemma ends_inv_step B B' File added NS' :
  ends_inv E B → file_step B B' File added NS' → ends_inv E B'.
Proof.
  intros HI Hstep i Tok HTok.
  destruct (file_step_static _ _ _ _ _ (file_of E Tok) Hstep) as (-> & _ & _).
  destruct Hstep as (HEx & _). rewrite HEx in HTok. by apply HI.
Qed.

Lemma expanded_inv_step B B' File added NS' :
  expanded_inv B →
  file_step B B' File added NS' →
  chain BeginExpanded EndExpanded (NextExpanded B) added (NextExpanded B') →
  Forall (λ M, EndExpanded M
                 ≤ File_EndExpanded (Files_at (Files (Result B)) File)) added →
  expanded_inv B'.
Proof.
  intros HI Hstep Hch Hend F.
  destruct (file_step_static _ _ _ _ _ F Hstep) as (-> & _ & _).
  pose proof (chain_bounds _ _ _ _ _ Hch) as Hle.
  destruct Hstep as (_ & _ & Hother & Hfile & _).
  destruct (HI F) as [Hc He].
  destruct (decide (F = File)) as [->|HF].
  - rewrite Hfile. simpl. split.
    + by eapply chain_app.
    + by apply Forall_app.
  - destruct (Hother F HF) as [-> _]. split; [|done].
    eapply chain_weaken; [done|lia|done].
Qed.

Lemma discard_expanded_inv B B' :
  ends_inv E B → expanded_inv B → discard E B None = Ok B' →
  ends_inv E B' ∧ expanded_inv B'.
Proof.
  intros HS HI H.
  apply discard_spec in H as (T & added & NS' & HT & HNE & Hstep & Hfl & _).
  split; [by eapply ends_inv_step|].
  simpl in HT, Hfl. destruct HT as (Tok & HTok & ->).
  eapply expanded_inv_step; [done..| |].
  - rewrite HNE. by apply chain_flushed.
  - eapply Forall_impl; [done|]. intros M (_ & -> & _).
    by apply (HS _ _ HTok).
Qed.

Lemma advance_expanded_inv B B' :
  eof_not_captured E (ExpandedTokens (Result B)) (CollectedExpansions B) →
  ends_inv E B → expanded_inv B → advance E B = Ok B' →
  ends_inv E B' ∧ expanded_inv B' ∧ NextExpanded B ≤ NextExpanded B'.
Proof.
  intros Heof HS HI H. apply advance_spec in H as (Tok & HTok & H).
  unfold advance_effect in H. destruct (isFileID (location Tok)).
  - destruct H as (K & HNE & Hstep).
    split_and!; [by eapply ends_inv_step| |lia].
    eapply expanded_inv_step; [done..| |done]. simpl. lia.
  - destruct H as (Hvalid & NS' & NE' & HNE & Hlt & Hlen & Hstep & Hrun).
    split_and!; [by eapply ends_inv_step| |lia].
    eapply expanded_inv_step; [done..| |].
    + rewrite HNE. simpl. lia.
    + apply Forall_singleton. simpl.
      destruct (lookup_lt_is_Some_2 (ExpandedTokens (Result B)) (NE' - 1))
        as [T HT]; [lia|].
      pose proof (Hrun (NE' - 1) T ltac:(lia) ltac:(lia) HT) as HTexp.
      destruct (HS _ _ HT) as [_ Hend]. unfold file_of in Hend.
      rewrite HTexp in Hend.
      assert (kind T ≠ tok_eof) as Hkind.
      { intros Hk. apply list_elem_of_lookup_2 in HT.
        specialize (Heof T HT Hk). rewrite HTexp in Heof. congruence. }
      specialize (Hend Hkind). lia.
Qed.

Lemma build_loop_expanded_inv fuel : ∀ B B',
  eof_not_captured E (ExpandedTokens (Result B)) (CollectedExpansions B) →
  ends_inv E B → expanded_inv B → build_loop E fuel B = Ok B' →
  ends_inv E B' ∧ expanded_inv B'.
Proof.
  induction fuel as [|fuel IH]; intros B B' Heof HS HI H; simpl in H.
  - case_bool_decide; [done|]. by simplify_eq.
  - case_bool_decide; [|by simplify_eq].
    apply bind_Ok_inv in H as (B1 & H1 & H).
    apply bind_Ok_inv in H as (B2 & H2 & H).
    case_bool_decide; [done|].
    pose proof (discard_spec _ _ _ _ H1) as (? & ? & ? & _ & _ & Hst1 & _).
    destruct Hst1 as (HEx1 & HCE1 & _).
    destruct (discard_expanded_inv _ _ HS HI H1) as [HS1 HI1].
    assert (eof_not_captured E (ExpandedTokens (Result B1)) (CollectedExpansions B1))
      as Heof1 by (by rewrite HEx1, HCE1).
    destruct (advance_expanded_inv _ _ Heof1 HS1 HI1 H2) as (HS2 & HI2 & _).
    eapply IH; [|done..].
    pose proof (advance_spec _ _ _ H2) as (Tok & _ & Heff).
    assert (ExpandedTokens (Result B2) = ExpandedTokens (Result B1) ∧
            CollectedExpansions B2 = CollectedExpansions B1) as [-> ->]; [|done].
    unfold advance_effect in Heff. destruct (isFileID (location Tok)).
    + by destruct Heff as (? & _ & (? & ? & _)).
    + by destruct Heff as (_ & ? & ? & _ & _ & _ & (? & ? & _) & _).
Qed.

Lemma expanded_inv_drain_inv B : expanded_inv B → drain_inv B.
Proof.
  intros HI F. destruct (HI F) as [Hc He].
  eapply chain_lower; [done|lia|done].
Qed.

Lemma discard_drain_inv B D B' :
  getFileID E (getLocForEndOfFile E D) = D →
  drain_inv B → discard E B (Some D) = Ok B' → drain_inv B'.
Proof.
  intros HD HI H.
  apply discard_spec in H as (T & added & NS' & HT & _ & Hstep & Hfl & _).
  simpl in HT, Hfl. subst T. rewrite HD in Hstep.
  intros F. destruct (file_step_static _ _ _ _ _ F Hstep) as (-> & _ & _).
  destruct Hstep as (_ & _ & Hother & Hfile & _).
  destruct (decide (F = D)) as [->|HF].
  - rewrite Hfile. simpl. eapply chain_app; [apply HI|]. by apply chain_flushed.
  - destruct (Hother F HF) as [-> _]. apply HI.
Qed.

Lemma drain_drain_inv Keys : ∀ B B',
  Forall (λ D, getFileID E (getLocForEndOfFile E D) = D) Keys →
  drain_inv B → drain E B Keys = Ok B' → drain_inv B'.
Proof.
  induction Keys as [|D Keys IH]; intros B B' HK HI H; simpl in H.
  - by simplify_eq.
  - apply Forall_cons in HK as [HD HK].
    apply bind_Ok_inv in H as (B1 & H1 & H).
    eapply IH; [done| |done]. by eapply discard_drain_inv.
Qed.
End ExpandedSide.



(** ** The tracked files *)

Section Keys.
Context (E : Env) (DenseMap_order : gmap FileID MarkedFile → list FileID).

Lemma insert_is_Some (Fs : gmap FileID MarkedFile) F MF G :
  is_Some (<[F := MF]> Fs !! G) ↔ is_Some (Fs !! G) ∨ G = F.
Proof.
  destruct (decide (F = G)) as [->|].
  - rewrite lookup_insert_eq. split; [by right|by eauto].
  - rewrite lookup_insert_ne by done. split; [by left|]. by intros [?| ->].
Qed.

Lemma discard_keys B Drain B' G :
  discard E B Drain = Ok B' →
  is_Some (Files (Result B') !! G) ↔
    is_Some (Files (Result B) !! G) ∨
    (∃ T, discard_Target E B Drain T ∧ G = getFileID E T) ∨ Drain = Some G.
Proof.
  unfold discard. intros H.
  apply bind_Ok_inv in H as (Target & HTarget & H).
  apply bind_Ok_inv in H as ([[NS' MB] Ms] & _ & H).
  destruct (FlushMapping _ _ _ _) as [MB2 Ms2]. injection H as <-. simpl.
  assert (discard_Target E B Drain Target) as HT.
  { destruct Drain as [D|]; simpl in *.
    - by injection HTarget as <-.
    - apply bind_Ok_inv in HTarget as (Tok & HTok & HT).
      injection HT as <-. exists Tok. split; [|done]. by apply at_index_Ok. }
  assert (∀ T, discard_Target E B Drain T → T = Target) as Huniq.
  { intros T HT'. destruct Drain as [D|]; simpl in *; [congruence|].
    destruct HT as (Tok1 & H1 & ->). destruct HT' as (Tok2 & H2 & ->). congruence. }
  rewrite insert_is_Some. destruct Drain as [D|].
  - rewrite !touch_is_Some. split.
    + intros [[[?| ->]| ->]| ->]; eauto.
    + intros [?|[(T & HT' & ->)|[= ->]]]; rewrite ?(Huniq _ HT'); eauto.
  - rewrite !touch_is_Some. split.
    + intros [[?| ->]| ->]; eauto.
    + intros [?|[(T & HT' & ->)|?]]; rewrite ?(Huniq _ HT'); eauto. done.
Qed.

Lemma advance_keys B B' G :
  advance E B = Ok B' →
  is_Some (Files (Result B') !! G) ↔
    is_Some (Files (Result B) !! G) ∨
    ∃ Tok, ExpandedTokens (Result B) !! NextExpanded B = Some Tok ∧
           G = file_of E Tok.
Proof.
  unfold advance. intros H.
  apply bind_Ok_inv in H as (Tok & HTok & H). apply at_index_Ok in HTok.
  assert (∀ Tok', ExpandedTokens (Result B) !! NextExpanded B = Some Tok' →
                  Tok' = Tok) as Huniq by (intros; congruence).
  destruct (isFileID (location Tok)).
  - injection H as <-. simpl. rewrite touch_is_Some. split.
    + intros [?| ->]; eauto.
    + intros [?|(Tok' & HT' & ->)]; rewrite ?(Huniq _ HT'); eauto.
  - apply bind_Ok_inv in H as (u & _ & H). injection H as <-. simpl.
    rewrite insert_is_Some, touch_is_Some. split.
    + intros [[?| ->]| ->]; eauto.
    + intros [?|(Tok' & HT' & ->)]; rewrite ?(Huniq _ HT'); eauto.
Qed.

Lemma discard_keys_inv B B' :
  keys_inv E B → discard E B None = Ok B' → keys_inv E B'.
Proof.
  intros HK H G. rewrite (discard_keys _ _ _ G H).
  pose proof (discard_spec _ _ _ _ H) as (? & ? & ? & _ & _ & (-> & _) & _).
  rewrite (HK G). split; [|by eauto].
  intros [?|[(T & (Tok & HTok & ->) & ->)|?]]; [done| |done].
  exists Tok. split; [|done]. by eapply list_elem_of_lookup_2.
Qed.

Lemma advance_keys_inv B B' :
  keys_inv E B → advance E B = Ok B' → keys_inv E B'.
Proof.
  intros HK H G. rewrite (advance_keys _ _ G H).
  assert (ExpandedTokens (Result B') = ExpandedTokens (Result B)) as ->.
  { pose proof (advance_spec _ _ _ H) as (Tok & _ & Heff).
    unfold advance_effect in Heff. destruct (isFileID (location Tok)).
    - by destruct Heff as (? & _ & (? & _)).
    - by destruct Heff as (_ & ? & ? & _ & _ & _ & (? & _) & _). }
  rewrite (HK G). split; [|by eauto].
  intros [?|(Tok & HTok & ->)]; [done|].
  exists Tok. split; [|done]. by eapply list_elem_of_lookup_2.
Qed.

Lemma build_loop_keys_inv fuel : ∀ B B',
  keys_inv E B → build_loop E fuel B = Ok B' → keys_inv E B'.
Proof.
  induction fuel as [|fuel IH]; intros B B' HI H; simpl in H.
  - case_bool_decide; [done|]. by simplify_eq.
  - case_bool_decide; [|by simplify_eq].
    apply bind_Ok_inv in H as (B1 & H1 & H).
    apply bind_Ok_inv in H as (B2 & H2 & H).
    case_bool_decide; [done|].
    eapply IH; [|done].
    eapply advance_keys_inv; [|done]. by eapply discard_keys_inv.
Qed.

Lemma build_loop_static fuel : ∀ B B',
  build_loop E fuel B = Ok B' →
  ExpandedTokens (Result B') = ExpandedTokens (Result B) ∧
  CollectedExpansions B' = CollectedExpansions B.
Proof.
  induction fuel as [|fuel IH]; intros B B' H; simpl in H.
  - case_bool_decide; [done|]. by simplify_eq.
  - case_bool_decide; [|by simplify_eq].
    apply bind_Ok_inv in H as (B1 & H1 & H).
    apply bind_Ok_inv in H as (B2 & H2 & H).
    case_bool_decide; [done|].
    apply IH in H as [-> ->].
    pose proof (discard_spec _ _ _ _ H1) as (? & ? & ? & _ & _ & (<- & <- & _) & _).
    pose proof (advance_spec _ _ _ H2) as (Tok & _ & Heff).
    unfold advance_effect in Heff. destruct (isFileID (location Tok)).
    + by destruct Heff as (? & _ & (? & ? & _)).
    + by destruct Heff as (_ & ? & ? & _ & _ & _ & (? & ? & _) & _).
Qed.

(** One iteration of buildSpelledTokens. *)
Lemma buildSpelledTokens_step (Fs Fs1 : gmap FileID MarkedFile) FID I End :
  match Fs !! FID with
  | Some File => Ok (<[FID := set_EndExpanded File End]> Fs)
  | None => Sp ← tokenize E FID; Ok (<[FID := mkMarkedFile Sp [] I End]> Fs)
  end = Ok Fs1 →
  File_EndExpanded (Files_at Fs1 FID) = End ∧
  (∀ G, G ≠ FID → Files_at Fs1 G = Files_at Fs G) ∧
  (∀ G, is_Some (Fs1 !! G) ↔ is_Some (Fs !! G) ∨ G = FID).
Proof.
  intros H. destruct (Fs !! FID) as [File|] eqn:HFile.
  - injection H as <-. rewrite Files_at_insert_eq. split_and!; [done| |].
    + intros G HG. by rewrite Files_at_insert_ne.
    + intros G. apply insert_is_Some.
  - apply bind_Ok_inv in H as (Sp & _ & H). injection H as <-.
    rewrite Files_at_insert_eq. split_and!; [done| |].
    + intros G HG. by rewrite Files_at_insert_ne.
    + intros G. apply insert_is_Some.
Qed.

Lemma buildSpelledTokens_from_later Toks : ∀ I Fs Fs',
  buildSpelledTokens_from E Toks I Fs = Ok Fs' →
  ∀ G, File_EndExpanded (Files_at Fs' G) = File_EndExpanded (Files_at Fs G) ∨
       I ≤ File_EndExpanded (Files_at Fs' G).
Proof.
  induction Toks as [|Tok Toks IH]; intros I Fs Fs' H G; simpl in H.
  - simplify_eq. by left.
  - apply bind_Ok_inv in H as (Fs1 & H1 & H).
    apply buildSpelledTokens_step in H1 as (HEnd & Hother & _).
    destruct (IH _ _ _ H G) as [Heq|Hle]; [|right; lia].
    rewrite Heq. destruct (decide (G = file_of E Tok)) as [->|HG].
    + right. unfold file_of. rewrite HEnd. case_match; lia.
    + left. by rewrite Hother.
Qed.

Lemma buildSpelledTokens_from_ends Toks : ∀ I Fs Fs',
  buildSpelledTokens_from E Toks I Fs = Ok Fs' →
  ∀ j Tok, Toks !! j = Some Tok →
    I + j ≤ File_EndExpanded (Files_at Fs' (file_of E Tok)) ∧
    (kind Tok ≠ tok_eof → I + j < File_EndExpanded (Files_at Fs' (file_of E Tok))).
Proof.
  induction Toks as [|Tok0 Toks IH]; intros I Fs Fs' H j Tok HTok; [done|].
  simpl in H. apply bind_Ok_inv in H as (Fs1 & H1 & H).
  apply buildSpelledTokens_step in H1 as (HEnd & _ & _).
  destruct j as [|j]; simpl in HTok.
  - injection HTok as ->.
    destruct (buildSpelledTokens_from_later _ _ _ _ H (file_of E Tok)) as [Heq|Hle].
    + rewrite Heq. unfold file_of. rewrite HEnd. unfold kind_is.
      case_bool_decide; split; try lia; done.
    + split; lia.
  - destruct (IH _ _ _ H j Tok HTok) as [H1 H2]. split; [lia|].
    intros Hk. specialize (H2 Hk). lia.
Qed.

Lemma buildSpelledTokens_from_keys Toks : ∀ I Fs Fs',
  buildSpelledTokens_from E Toks I Fs = Ok Fs' →
  ∀ G, is_Some (Fs' !! G) ↔
       is_Some (Fs !! G) ∨ ∃ Tok, Tok ∈ Toks ∧ file_of E Tok = G.
Proof.
  induction Toks as [|Tok0 Toks IH]; intros I Fs Fs' H G; simpl in H.
  - simplify_eq. split; [by left|]. intros [?|(Tok & HTok & _)]; [done|].
    by apply elem_of_nil in HTok.
  - apply bind_Ok_inv in H as (Fs1 & H1 & H).
    apply buildSpelledTokens_step in H1 as (_ & _ & Hkeys).
    rewrite (IH _ _ _ H G), (Hkeys G). split.
    + intros [[?| ->]|(Tok & HTok & <-)].
      * by left.
      * right. exists Tok0. split; [by left|done].
      * right. exists Tok. split; [by right|done].
    + intros [?|(Tok & HTok & <-)]; [by left; left|].
      apply elem_of_cons in HTok as [->|HTok]; [left; by right|].
      right. by exists Tok.
Qed.
End Keys.



(** ** The ordering of the mappings of a built buffer *)

Section BuildOrdered.
Context (E : Env) (DenseMap_order : gmap FileID MarkedFile → list FileID).

Lemma buildSpelledTokens_invs B B1 :
  Files (Result B) = ∅ → NextExpanded B = 0 →
  buildSpelledTokens E B = Ok B1 →
  ExpandedTokens (Result B1) = ExpandedTokens (Result B) ∧
  CollectedExpansions B1 = CollectedExpansions B ∧
  NextExpanded B1 = 0 ∧ NextSpelled B1 = NextSpelled B ∧
  ends_inv E B1 ∧ expanded_inv B1 ∧ keys_inv E B1.
Proof.
  intros HFs HNE H. unfold buildSpelledTokens in H.
  apply bind_Ok_inv in H as (Fs1 & HFs1 & H). injection H as <-. simpl.
  split_and!; try done.
  - intros i Tok HTok. simpl in *.
    by apply (buildSpelledTokens_from_ends E _ _ _ _ HFs1 i Tok HTok).
  - intros F. simpl.
    rewrite (buildSpelledTokens_from_Mappings E _ _ _ _ HFs1); [|by rewrite HFs].
    split; [|done]. simpl. lia.
  - intros G. simpl. rewrite (buildSpelledTokens_from_keys E _ _ _ _ HFs1 G).
    rewrite HFs, lookup_empty. split; [|by right].
    intros [[? ?]|?]; done.
Qed.

Lemma build_drain_inv B TB :
  visits_keys DenseMap_order → end_in_file E (ExpandedTokens (Result B)) →
  eof_not_captured E (ExpandedTokens (Result B)) (CollectedExpansions B) →
  Files (Result B) = ∅ → NextExpanded B = 0 →
  build E DenseMap_order B = Ok TB →
  ∀ F, chain BeginExpanded EndExpanded 0
             (Mappings (Files_at (Files TB) F))
             (File_EndExpanded (Files_at (Files TB) F)).
Proof.
  intros Hvis Hend Heof HFs HNE H. unfold build in H.
  apply bind_Ok_inv in H as (_ & _ & H).
  apply bind_Ok_inv in H as (_ & _ & H).
  apply bind_Ok_inv in H as (B1 & H1 & H).
  apply bind_Ok_inv in H as (B2 & H2 & H).
  apply bind_Ok_inv in H as (B3 & H3 & H).
  injection H as <-.
  apply buildSpelledTokens_invs in H1
    as (HEx1 & HCE1 & _ & _ & HS1 & HI1 & HK1); [|done..].
  rewrite <- HEx1, <- HCE1 in Heof. rewrite <- HEx1 in Hend.
  destruct (build_loop_expanded_inv E _ _ _ Heof HS1 HI1 H2) as [HS2 HI2].
  pose proof (build_loop_keys_inv E _ _ _ HK1 H2) as HK2.
  destruct (build_loop_static E _ _ _ H2) as [HEx2 _].
  apply (drain_drain_inv E (DenseMap_order (Files (Result B2))) B2 B3);
    [|by apply expanded_inv_drain_inv|done].
  apply Forall_forall. intros D HD. apply Hvis in HD.
  apply HK2 in HD as (Tok & HTok & <-). apply Hend. by rewrite <- HEx2.
Qed.

End BuildOrdered.



(** ** Cursors, spelled tokens and mappings stay inside their vectors *)

Section Shape.
Context (E : Env) (DenseMap_order : gmap FileID MarkedFile → list FileID).

Lemma shape_inv_step B B' File added NS' :
  shape_inv E B →
  file_step B B' File added NS' →
  Forall (covers E (ExpandedTokens (Result B)) File) added →
  Forall (λ M, EndSpelled M ≤ NS') added →
  shape_inv E B'.
Proof.
  intros HI Hstep Hadd Hend F.
  destruct (file_step_static _ _ _ _ _ F Hstep) as (_ & _ & ->).
  destruct Hstep as (-> & _ & Hother & Hfile & HNS & Hle & Hlen).
  destruct (HI F) as (Hcur & Hsrc & Hcov & Hes).
  destruct (decide (F = File)) as [->|HF].
  - rewrite Hfile, HNS. simpl. split_and!; [by apply Hlen|done| |].
    + by apply Forall_app.
    + apply Forall_app. split; [|done].
      eapply Forall_impl; [exact Hes|]. simpl. intros M ?. lia.
  - destruct (Hother F HF) as [-> ->]. done.
Qed.

Lemma discard_shape_inv B Drain B' :
  shape_inv E B → discard E B Drain = Ok B' → shape_inv E B'.
Proof.
  intros HI H.
  apply discard_spec in H as (T & added & NS' & _ & _ & Hstep & Hfl & Hch).
  eapply shape_inv_step; [done..| |].
  - eapply Forall_impl; [done|]. intros M (? & ? & _) ?. lia.
  - apply chain_Forall in Hch. eapply Forall_impl; [done|]. simpl. intros M ?. lia.
Qed.

Lemma advance_shape_inv B B' :
  shape_inv E B → advance E B = Ok B' → shape_inv E B'.
Proof.
  intros HI H. apply advance_spec in H as (Tok & HTok & H).
  unfold advance_effect in H. destruct (isFileID (location Tok)).
  - destruct H as (K & _ & Hstep). by eapply shape_inv_step.
  - destruct H as (_ & NS' & NE' & _ & Hlt & Hlen & Hstep & Hrun).
    eapply shape_inv_step; [done..| |].
    + apply Forall_singleton. intros _. simpl. split; [done|].
      intros i T Hi1 Hi2 HT. unfold file_of. by rewrite (Hrun i T Hi1 Hi2 HT).
    + apply Forall_singleton. simpl. lia.
Qed.

Lemma build_loop_shape_inv fuel : ∀ B B',
  shape_inv E B → build_loop E fuel B = Ok B' → shape_inv E B'.
Proof.
  induction fuel as [|fuel IH]; intros B B' HI H; simpl in H.
  - case_bool_decide; [done|]. by simplify_eq.
  - case_bool_decide; [|by simplify_eq].
    apply bind_Ok_inv in H as (B1 & H1 & H).
    apply bind_Ok_inv in H as (B2 & H2 & H).
    case_bool_decide; [done|].
    eapply IH; [|done].
    eapply advance_shape_inv; [|done]. by eapply discard_shape_inv.
Qed.

Lemma drain_shape_inv Keys : ∀ B B',
  shape_inv E B → drain E B Keys = Ok B' → shape_inv E B'.
Proof.
  induction Keys as [|F Keys IH]; intros B B' HI H; simpl in H.
  - by simplify_eq.
  - apply bind_Ok_inv in H as (B1 & H1 & H).
    eapply IH; [|done]. by eapply discard_shape_inv.
Qed.

Lemma drain_static Keys : ∀ B B',
  drain E B Keys = Ok B' →
  ExpandedTokens (Result B') = ExpandedTokens (Result B).
Proof.
  induction Keys as [|F Keys IH]; intros B B' H; simpl in H.
  - by simplify_eq.
  - apply bind_Ok_inv in H as (B1 & H1 & H). apply IH in H as ->.
    by pose proof (discard_spec _ _ _ _ H1) as (? & ? & ? & _ & _ & (<- & _) & _).
Qed.

(** buildSpelledTokens fills a new file with its raw tokens. *)
Lemma buildSpelledTokens_from_source Toks : ∀ I Fs Fs',
  buildSpelledTokens_from E Toks I Fs = Ok Fs' →
  (∀ F, SpelledTokens (Files_at Fs F) = [] ∨
        tokenize E F = Ok (SpelledTokens (Files_at Fs F))) →
  ∀ F, SpelledTokens (Files_at Fs' F) = [] ∨
       tokenize E F = Ok (SpelledTokens (Files_at Fs' F)).
Proof.
  induction Toks as [|Tok Toks IH]; intros I Fs Fs' H Hsrc; simpl in H.
  - by simplify_eq.
  - apply bind_Ok_inv in H as (Fs1 & H1 & H). eapply IH; [done|].
    intros F. set (FID := getFileID E (getExpansionLoc E (location Tok))) in *.
    destruct (Fs !! FID) as [File|] eqn:HFile.
    + injection H1 as <-. destruct (decide (FID = F)) as [<-|].
      * rewrite Files_at_insert_eq. simpl.
        rewrite <- (Files_at_lookup _ _ _ HFile). apply Hsrc.
      * by rewrite Files_at_insert_ne.
    + apply bind_Ok_inv in H1 as (Sp & HSp & H1). injection H1 as <-.
      destruct (decide (FID = F)) as [<-|].
      * rewrite Files_at_insert_eq. by right.
      * by rewrite Files_at_insert_ne.
Qed.

Lemma build_shape_inv B TB :
  Files (Result B) = ∅ → NextSpelled B = ∅ →
  build E DenseMap_order B = Ok TB →
  ExpandedTokens TB = ExpandedTokens (Result B) ∧
  ∀ F,
    (SpelledTokens (Files_at (Files TB) F) = [] ∨
     tokenize E F = Ok (SpelledTokens (Files_at (Files TB) F))) ∧
    Forall (covers E (ExpandedTokens TB) F) (Mappings (Files_at (Files TB) F)) ∧
    Forall (λ M, EndSpelled M ≤ length (SpelledTokens (Files_at (Files TB) F)))
           (Mappings (Files_at (Files TB) F)).
Proof.
  intros HFs HNS H.
  unfold build in H.
  apply bind_Ok_inv in H as (_ & _ & H).
  apply bind_Ok_inv in H as (_ & _ & H).
  apply bind_Ok_inv in H as (B1 & H1 & H).
  apply bind_Ok_inv in H as (B2 & H2 & H).
  apply bind_Ok_inv in H as (B3 & H3 & H).
  injection H as <-.
  assert (shape_inv E B1) as HI1.
  { unfold buildSpelledTokens in H1.
    apply bind_Ok_inv in H1 as (Fs1 & HFs1 & H1). injection H1 as <-.
    intros F. simpl.
    rewrite (buildSpelledTokens_from_Mappings E _ _ _ _ HFs1); [|by rewrite HFs].
    rewrite HNS. unfold NextSpelled_at at 1. rewrite lookup_empty. simpl.
    split_and!; [lia| |done|done].
    apply (buildSpelledTokens_from_source _ _ _ _ HFs1).
    intros G. left. by rewrite HFs. }
  pose proof (build_loop_shape_inv _ _ _ HI1 H2) as HI2.
  pose proof (drain_shape_inv _ _ _ HI2 H3) as HI3.
  split.
  - rewrite (drain_static _ _ _ H3).
    destruct (build_loop_static E _ _ _ H2) as [-> _].
    unfold buildSpelledTokens in H1.
    apply bind_Ok_inv in H1 as (Fs1 & HFs1 & H1). by injection H1 as <-.
  - intros F. destruct (HI3 F) as (Hcur & Hsrc & Hcov & Hes).
    split_and!; [done..|].
    eapply Forall_impl; [exact Hes|]. simpl. intros M ?. lia.
Qed.
End Shape.



(** ** From a mapping to its spelled range *)

Section RoundTrip.
Context (E : Env) (DenseMap_order : gmap FileID MarkedFile → list FileID).

Lemma tokenize_locations F Toks T :
  lexer_in_file E F → tokenize E F = Ok Toks → T ∈ Toks →
  getFileID E (location T) = F.
Proof.
  intros Hlex H HT. unfold lexer_in_file in Hlex.
  apply Forall_app in Hlex as [Hlexed Hfinal].
  rewrite Forall_singleton in Hfinal.
  unfold tokenize in H. apply bind_Ok_inv in H as (Body & HBody & H).
  apply tokenize_loop_Ok in HBody. simpl in HBody.
  assert (∀ T, T ∈ Body → getFileID E (location T) = F) as HB.
  { intros T' HT'. rewrite HBody in HT'.
    apply list_elem_of_fmap in HT' as (CT & -> & HCT). simpl.
    rewrite Forall_forall in Hlexed. by apply Hlexed. }
  destruct (negb (kind_is (getKind (Final (RawLexer E F))) tok_eof)).
  - apply AddToken_Ok in H as ->. apply elem_of_app in HT as [HT|HT]; [by apply HB|].
    apply list_elem_of_singleton in HT as ->. simpl. done.
  - injection H as <-. by apply HB.
Qed.

(** Inside the expanded range of a mapping, spelledForExpandedToken finds
    that mapping. *)
Lemma spelledForExpandedToken_in_mapping (TB : TokenBuffer) (F : FileID)
    (File : MarkedFile) (M : Mapping) (index : nat) lo hi :
  Files TB !! F = Some File →
  chain BeginExpanded EndExpanded lo (Mappings File) hi →
  M ∈ Mappings File →
  covers E (ExpandedTokens TB) F M →
  BeginExpanded M ≤ index → index < EndExpanded M →
  spelledForExpandedToken E TB index = Ok (mkSpelledPtr F (BeginSpelled M), Some M).
Proof.
  intros HFile Hch HM Hcov Hlo Hhi.
  destruct (Hcov ltac:(lia)) as [Hlen Hfile].
  destruct (lookup_lt_is_Some_2 (ExpandedTokens TB) index) as [Tok HTok]; [lia|].
  specialize (Hfile index Tok Hlo Hhi HTok). unfold file_of in Hfile.
  apply list_elem_of_lookup in HM as [k Hk].
  assert (partition_point (Mappings File)
            (λ M', bool_decide (BeginExpanded M' ≤ index)) = S k) as HIt.
  { apply partition_point_spec.
    - apply lookup_lt_Some in Hk. lia.
    - intros i M' Hi HM'. apply bool_decide_eq_true.
      destruct (decide (i = k)) as [->|Hne]; [by simplify_eq|].
      pose proof (chain_pairs _ _ _ _ _ i k M' M Hch ltac:(lia) HM' Hk).
      apply chain_Forall in Hch. rewrite Forall_lookup in Hch.
      specialize (Hch _ _ HM'). simpl in Hch. lia.
    - intros i M' Hi HM'. apply bool_decide_eq_false.
      pose proof (chain_pairs _ _ _ _ _ k i M M' Hch ltac:(lia) Hk HM'). lia. }
  unfold spelledForExpandedToken.
  rewrite bool_decide_eq_true_2 by lia. run_ok.
  rewrite (at_index_Some _ _ _ HTok). run_ok. rewrite Hfile, HFile, HIt.
  rewrite bool_decide_eq_false_2 by done.
  replace (S k - 1) with k by lia. rewrite (at_index_Some _ _ _ Hk). run_ok.
  by rewrite bool_decide_eq_true_2.
Qed.

End RoundTrip.



(** ** The bounds of the modelled loops are large enough *)

Lemma bind_Fault_inv {A B} (m : outcome A) (k : A → outcome B) f :
  m ≫= k = Fault f → m = Fault f ∨ ∃ a, m = Ok a ∧ k a = Fault f.
Proof.
  destruct m as [a|f']; intros H; [right; by exists a|left].
  cbn in H. by injection H as ->.
Qed.

Section Fuel.
Context (E : Env) (DenseMap_order : gmap FileID MarkedFile → list FileID).

Lemma discard_loop_fuel Target Exps Sp BE : ∀ fuel NS MB Ms,
  length Sp - NS < fuel →
  discard_loop Target Exps Sp BE fuel NS MB Ms ≠ Fault OutOfFuel.
Proof.
  induction fuel as [|fuel IH]; intros NS MB Ms Hfuel; [lia|].
  cbn [discard_loop]. destruct (Sp !! NS) as [Tok|] eqn:HTok; [|done].
  apply lookup_lt_Some in HTok.
  destruct (negb (location Tok <? Target)%N); [done|].
  destruct (isValid (PPExpansions_lookup Exps (location Tok))).
  - unfold FlushMapping. case_bool_decide as Hstuck; [done|].
    apply IH. lia.
  - apply IH. lia.
Qed.

Lemma at_index_not_OutOfFuel {A} (v : list A) i : at_index v i ≠ Fault OutOfFuel.
Proof. unfold at_index. by destruct (v !! i). Qed.

Lemma discard_fuel B Drain : discard E B Drain ≠ Fault OutOfFuel.
Proof.
  unfold discard. intros H.
  apply bind_Fault_inv in H as [H|(Target & _ & H)].
  { destruct Drain; [done|]. simpl in H.
    apply bind_Fault_inv in H as [H|(? & _ & ?)]; [|done].
    by apply at_index_not_OutOfFuel in H. }
  apply bind_Fault_inv in H as [H|([[? ?] ?] & _ & H)].
  - apply discard_loop_fuel in H; [done|lia].
  - unfold FlushMapping in H. done.
Qed.

Lemma advance_fuel B : advance E B ≠ Fault OutOfFuel.
Proof.
  unfold advance. intros H.
  apply bind_Fault_inv in H as [H|(Tok & _ & H)].
  { by apply at_index_not_OutOfFuel in H. }
  destruct (isFileID (location Tok)); [done|].
  apply bind_Fault_inv in H as [H|(? & _ & ?)]; [|done].
  unfold assert in H. by destruct (isValid _).
Qed.

Lemma advance_monotone B B' :
  advance E B = Ok B' → NextExpanded B ≤ NextExpanded B'.
Proof.
  intros H. apply advance_spec in H as (Tok & _ & H).
  unfold advance_effect in H. destruct (isFileID (location Tok)).
  - destruct H as (K & -> & _). lia.
  - destruct H as (_ & ? & ? & -> & ? & _). lia.
Qed.

Lemma step_static B B1 B2 :
  discard E B None = Ok B1 → advance E B1 = Ok B2 →
  ExpandedTokens (Result B2) = ExpandedTokens (Result B) ∧
  NextExpanded B ≤ NextExpanded B2 ∧ NextExpanded B1 = NextExpanded B.
Proof.
  intros H1 H2.
  pose proof (advance_monotone _ _ H2).
  pose proof (discard_spec _ _ _ _ H1) as (? & ? & ? & _ & HNE & (HEx & _) & _).
  pose proof (advance_spec _ _ _ H2) as (Tok & _ & Heff).
  assert (ExpandedTokens (Result B2) = ExpandedTokens (Result B1)) as ->.
  { unfold advance_effect in Heff. destruct (isFileID (location Tok)).
    - by destruct Heff as (? & _ & (? & _)).
    - by destruct Heff as (_ & ? & ? & _ & _ & _ & (? & _) & _). }
  split_and!; [done|lia|done].
Qed.

Lemma build_loop_fuel fuel : ∀ B,
  length (ExpandedTokens (Result B)) - 1 - NextExpanded B < fuel ∨
  ¬ NextExpanded B < length (ExpandedTokens (Result B)) - 1 →
  build_loop E fuel B ≠ Fault OutOfFuel.
Proof.
  induction fuel as [|fuel IH]; intros B Hfuel; simpl.
  - case_bool_decide; [lia|done].
  - case_bool_decide as Hlt; [|done]. intros H.
    apply bind_Fault_inv in H as [H|(B1 & H1 & H)].
    { by apply discard_fuel in H. }
    apply bind_Fault_inv in H as [H|(B2 & H2 & H)].
    { by apply advance_fuel in H. }
    case_bool_decide as Hstuck; [done|].
    destruct (step_static _ _ _ H1 H2) as (HEx & Hle & HNE).
    apply IH in H; [done|]. rewrite HEx. left. lia.
Qed.

Lemma tokenize_fuel F : tokenize E F ≠ Fault OutOfFuel.
Proof.
  assert (∀ Tokens T, AddToken E Tokens T ≠ Fault OutOfFuel) as HAdd.
  { intros Tokens T. unfold AddToken, Token_of_clang, Token_new.
    destruct (kind_is _ _ && _ && _); simpl;
      destruct (isValid _); simpl; try done;
      match goal with |- context [assert ?b] => destruct b end; done. }
  assert (∀ run Tokens, tokenize_loop E run Tokens ≠ Fault OutOfFuel) as Hloop.
  { induction run as [|T run IH]; intros Tokens; simpl; [done|].
    intros H. apply bind_Fault_inv in H as [H|(? & _ & H)].
    - by apply HAdd in H.
    - by apply IH in H. }
  unfold tokenize. intros H.
  apply bind_Fault_inv in H as [H|(? & _ & H)].
  - by apply Hloop in H.
  - destruct (negb _); [by apply HAdd in H|done].
Qed.

Lemma buildSpelledTokens_from_fuel Toks : ∀ I Fs,
  buildSpelledTokens_from E Toks I Fs ≠ Fault OutOfFuel.
Proof.
  induction Toks as [|Tok Toks IH]; intros I Fs; simpl; [done|].
  intros H. apply bind_Fault_inv in H as [H|(? & _ & H)].
  - destruct (Fs !! _); [done|].
    apply bind_Fault_inv in H as [H|(? & _ & H)]; [|done].
    by apply tokenize_fuel in H.
  - by apply IH in H.
Qed.

Lemma drain_fuel Keys : ∀ B, drain E B Keys ≠ Fault OutOfFuel.
Proof.
  induction Keys as [|F Keys IH]; intros B; simpl; [done|].
  intros H. apply bind_Fault_inv in H as [H|(? & _ & H)].
  - by apply discard_fuel in H.
  - by apply IH in H.
Qed.

(** build never stops because a modelled loop ran out of iterations. *)
Lemma build_fuel B :
  NextExpanded B = 0 → build E DenseMap_order B ≠ Fault OutOfFuel.
Proof.
  intros HNE. unfold build. intros H.
  apply bind_Fault_inv in H as [H|(? & Hne & H)].
  { unfold assert in H. by destruct (negb _). }
  apply bind_Fault_inv in H as [H|(? & _ & H)].
  { unfold assert in H. by destruct (last _) as [Tok|]; [destruct (kind_is _ _)|]. }
  apply bind_Fault_inv in H as [H|(B1 & H1 & H)].
  { unfold buildSpelledTokens in H.
    apply bind_Fault_inv in H as [H|(? & _ & H)]; [|done].
    by apply buildSpelledTokens_from_fuel in H. }
  apply bind_Fault_inv in H as [H|(B2 & H2 & H)].
  { apply build_loop_fuel in H; [done|].
    unfold buildSpelledTokens in H1.
    apply bind_Ok_inv in H1 as (Fs1 & _ & H1). injection H1 as <-. simpl.
    rewrite HNE. apply assert_Ok_inv in Hne.
    destruct (ExpandedTokens (Result B)); [done|]. simpl. left. lia. }
  apply bind_Fault_inv in H as [H|(? & _ & H)]; [|done].
  by apply drain_fuel in H.
Qed.
End Fuel.



(** ** What every built buffer offers to the queries *)

Section Built.
Context (E : Env) (DenseMap_order : gmap FileID MarkedFile → list FileID).

Lemma begins_inv_step B B' :
  ExpandedTokens (Result B') = ExpandedTokens (Result B) →
  (∀ G, is_Some (Files (Result B) !! G) → is_Some (Files (Result B') !! G)) →
  (∀ G, File_BeginExpanded (Files_at (Files (Result B')) G)
        = File_BeginExpanded (Files_at (Files (Result B)) G)) →
  begins_inv E B → begins_inv E B'.
Proof.
  intros HEx Hkeys Hbegin HI i Tok HTok. rewrite HEx in HTok.
  destruct (HI i Tok HTok) as (File & HFile & Hle).
  destruct (Hkeys (file_of E Tok)) as [File' HFile']; [by eexists|].
  exists File'. split; [done|].
  specialize (Hbegin (file_of E Tok)).
  rewrite (Files_at_lookup _ _ _ HFile), (Files_at_lookup _ _ _ HFile') in Hbegin.
  lia.
Qed.

Lemma discard_begins_inv B Drain B' :
  begins_inv E B → discard E B Drain = Ok B' → begins_inv E B'.
Proof.
  intros HI H.
  pose proof (discard_spec _ _ _ _ H) as (T & added & NS' & _ & _ & Hstep & _).
  eapply begins_inv_step; [| | |done].
  - by destruct Hstep as (? & _).
  - intros G HG. apply (discard_keys _ _ _ _ G H). by left.
  - intros G. by destruct (file_step_static _ _ _ _ _ G Hstep) as (_ & ? & _).
Qed.

Lemma advance_begins_inv B B' :
  begins_inv E B → advance E B = Ok B' → begins_inv E B'.
Proof.
  intros HI H.
  pose proof (advance_spec _ _ _ H) as (Tok & _ & Heff).
  assert (∃ File added NS', file_step B B' File added NS')
    as (File & added & NS' & Hstep).
  { unfold advance_effect in Heff. destruct (isFileID (location Tok)).
    - destruct Heff as (? & _ & ?). by eexists _, _, _.
    - destruct Heff as (_ & ? & ? & _ & _ & _ & ? & _). by eexists _, _, _. }
  eapply begins_inv_step; [| | |done].
  - by destruct Hstep as (? & _).
  - intros G HG. apply (advance_keys _ _ _ G H). by left.
  - intros G. by destruct (file_step_static _ _ _ _ _ G Hstep) as (_ & ? & _).
Qed.

Lemma build_loop_begins_inv fuel : ∀ B B',
  begins_inv E B → build_loop E fuel B = Ok B' → begins_inv E B'.
Proof.
  induction fuel as [|fuel IH]; intros B B' HI H; simpl in H.
  - case_bool_decide; [done|]. by simplify_eq.
  - case_bool_decide; [|by simplify_eq].
    apply bind_Ok_inv in H as (B1 & H1 & H).
    apply bind_Ok_inv in H as (B2 & H2 & H).
    case_bool_decide; [done|].
    eapply IH; [|done].
    eapply advance_begins_inv; [|done]. by eapply discard_begins_inv.
Qed.

Lemma drain_begins_inv Keys : ∀ B B',
  begins_inv E B → drain E B Keys = Ok B' → begins_inv E B'.
Proof.
  induction Keys as [|F Keys IH]; intros B B' HI H; simpl in H.
  - by simplify_eq.
  - apply bind_Ok_inv in H as (B1 & H1 & H).
    eapply IH; [|done]. by eapply discard_begins_inv.
Qed.

(** buildSpelledTokens never moves the begin of a file it has seen. *)
Lemma buildSpelledTokens_from_begin_kept Toks : ∀ I Fs Fs' G File,
  buildSpelledTokens_from E Toks I Fs = Ok Fs' →
  Fs !! G = Some File →
  ∃ File', Fs' !! G = Some File' ∧
           File_BeginExpanded File' = File_BeginExpanded File.
Proof.
  induction Toks as [|Tok Toks IH]; intros I Fs Fs' G File H HG; simpl in H.
  - simplify_eq. by exists File.
  - apply bind_Ok_inv in H as (Fs1 & H1 & H).
    set (FID := getFileID E (getExpansionLoc E (location Tok))) in *.
    assert (∃ File1, Fs1 !! G = Some File1 ∧
                     File_BeginExpanded File1 = File_BeginExpanded File)
      as (File1 & HG1 & Hb1).
    { destruct (Fs !! FID) as [File0|] eqn:HFID.
      - injection H1 as <-. destruct (decide (FID = G)) as [<-|Hne].
        + rewrite lookup_insert_eq. eexists. split; [done|]. simpl. congruence.
        + rewrite lookup_insert_ne by done. by exists File.
      - apply bind_Ok_inv in H1 as (Sp & _ & H1). injection H1 as <-.
        destruct (decide (FID = G)) as [<-|Hne]; [congruence|].
        rewrite lookup_insert_ne by done. by exists File. }
    destruct (IH _ _ _ _ _ H HG1) as (File' & HG' & Hb').
    exists File'. split; [done|]. congruence.
Qed.

Lemma buildSpelledTokens_from_begins Toks : ∀ I Fs Fs',
  buildSpelledTokens_from E Toks I Fs = Ok Fs' →
  (∀ G File, Fs !! G = Some File → File_BeginExpanded File ≤ I) →
  ∀ j Tok, Toks !! j = Some Tok →
    ∃ File, Fs' !! file_of E Tok = Some File ∧ File_BeginExpanded File ≤ I + j.
Proof.
  induction Toks as [|Tok0 Toks IH]; intros I Fs Fs' H Hle j Tok HTok; [done|].
  simpl in H. apply bind_Ok_inv in H as (Fs1 & H1 & H).
  set (FID := getFileID E (getExpansionLoc E (location Tok0))) in *.
  assert (∀ G File, Fs1 !! G = Some File → File_BeginExpanded File ≤ I) as Hle1.
  { intros G File HG. destruct (Fs !! FID) as [File0|] eqn:HFID.
    - injection H1 as <-. destruct (decide (FID = G)) as [<-|Hne].
      + rewrite lookup_insert_eq in HG. injection HG as <-. simpl. by eapply Hle.
      + rewrite lookup_insert_ne in HG by done. by eapply Hle.
    - apply bind_Ok_inv in H1 as (Sp & _ & H1). injection H1 as <-.
      destruct (decide (FID = G)) as [<-|Hne].
      + rewrite lookup_insert_eq in HG. by injection HG as <-.
      + rewrite lookup_insert_ne in HG by done. by eapply Hle. }
  destruct j as [|j]; simpl in HTok.
  - injection HTok as ->.
    assert (is_Some (Fs1 !! FID)) as [File1 HF1].
    { destruct (Fs !! FID) as [File0|] eqn:HFID.
      - injection H1 as <-. rewrite lookup_insert_eq. by eexists.
      - apply bind_Ok_inv in H1 as (Sp & _ & H1). injection H1 as <-.
        rewrite lookup_insert_eq. by eexists. }
    destruct (buildSpelledTokens_from_begin_kept _ _ _ _ _ _ H HF1)
      as (File' & HF' & Hb').
    exists File'. split; [done|]. specialize (Hle1 _ _ HF1). lia.
  - destruct (IH (S I) Fs1 Fs' H) with (j := j) (Tok := Tok)
      as (File & HFile & Hb); [|done|].
    + intros G File HG. specialize (Hle1 _ _ HG). lia.
    + exists File. split; [done|]. lia.
Qed.

(** In a built buffer every expanded token has its file, and the file
    begins at or before it. *)
Lemma build_file_of_token B TB (i : nat) (Tok : Token) :
  Files (Result B) = ∅ →
  build E DenseMap_order B = Ok TB →
  ExpandedTokens TB !! i = Some Tok →
  ∃ File, Files TB !! file_of E Tok = Some File ∧ File_BeginExpanded File ≤ i.
Proof.
  intros HFs H HTok. unfold build in H.
  apply bind_Ok_inv in H as (_ & _ & H).
  apply bind_Ok_inv in H as (_ & _ & H).
  apply bind_Ok_inv in H as (B1 & H1 & H).
  apply bind_Ok_inv in H as (B2 & H2 & H).
  apply bind_Ok_inv in H as (B3 & H3 & H).
  injection H as <-.
  assert (begins_inv E B1) as HI1.
  { unfold buildSpelledTokens in H1.
    apply bind_Ok_inv in H1 as (Fs1 & HFs1 & H1). injection H1 as <-.
    intros j T HT. simpl in *.
    destruct (buildSpelledTokens_from_begins _ _ _ _ HFs1) with (j := j) (Tok := T)
      as (File & HFile & Hb); [|done|by exists File].
    intros G File. by rewrite HFs, lookup_empty. }
  pose proof (build_loop_begins_inv _ _ _ HI1 H2) as HI2.
  pose proof (drain_begins_inv _ _ _ HI2 H3) as HI3.
  by apply HI3.
Qed.

(** The mappings of a built buffer are sorted by BeginSpelled. *)
Lemma build_sorted_BeginSpelled B TB F File :
  Files (Result B) = ∅ → NextSpelled B = ∅ →
  build E DenseMap_order B = Ok TB →
  Files TB !! F = Some File →
  sorted_by BeginSpelled (Mappings File).
Proof.
  intros HFs HNS H HFile.
  apply build_spelled_inv in H as (B' & <- & HI); [|done..].
  destruct (HI F) as [Hch _]. rewrite (Files_at_lookup _ _ _ HFile) in Hch.
  by eapply chain_sorted_b.
Qed.

(** Under the assumptions of the ordering theorem they are sorted by
    BeginExpanded as well. *)
Lemma build_sorted_BeginExpanded B TB F File :
  visits_keys DenseMap_order → end_in_file E (ExpandedTokens (Result B)) →
  eof_not_captured E (ExpandedTokens (Result B)) (CollectedExpansions B) →
  Files (Result B) = ∅ → NextExpanded B = 0 →
  build E DenseMap_order B = Ok TB →
  Files TB !! F = Some File →
  sorted_by BeginExpanded (Mappings File).
Proof.
  intros Hvis Hend Heof HFs HNE H HFile.
  pose proof (build_drain_inv E DenseMap_order B TB Hvis Hend Heof HFs HNE H F) as Hch.
  rewrite (Files_at_lookup _ _ _ HFile) in Hch.
  by eapply chain_sorted_b.
Qed.

(** C5: when the raw lexer hands out end-of-file only as its last token and
    the identifier table never names it, tokenize stores no end-of-file:
    its result is the tokens lexed before the last one, followed by the
    last one exactly when its kind is not end-of-file; and no SpelledTokens
    of a built buffer holds an end-of-file token. *)
Theorem spelled_tokens_never_hold_eof :
  (∀ F, Forall (λ T, getKind T ≠ tok_eof) (Lexed (RawLexer E F))) →
  (∀ Name, getTokenID E Name ≠ tok_eof) →
  (∀ FID Tokens, tokenize E FID = Ok Tokens →
     Forall (λ T, kind T ≠ tok_eof) Tokens ∧
     ∃ Body,
       tokenize_loop E (Lexed (RawLexer E FID)) [] = Ok Body ∧
       length Body = length (Lexed (RawLexer E FID)) ∧
       Tokens =
         Body ++
         (if bool_decide (getKind (Final (RawLexer E FID)) = tok_eof) then []
          else [mkToken (getLocation (Final (RawLexer E FID)))
                        (getLength (Final (RawLexer E FID)))
                        (stored_kind E (Final (RawLexer E FID)))])) ∧
  (∀ Expanded_ Expansions_ TB F File,
     consume E DenseMap_order Expanded_ Expansions_ = Ok TB →
     Files TB !! F = Some File →
     Forall (λ T, kind T ≠ tok_eof) (SpelledTokens File)).
Proof.
  intros Hlex Htable. split.
  - intros FID Tokens H. by apply (tokenize_stores_no_eof E FID).
  - intros Expanded_ Expansions_ TB F File H HFile. unfold consume in H.
    pose proof (build_shape_inv E DenseMap_order (Builder_new Expanded_ Expansions_)
                  TB eq_refl eq_refl H) as [_ Hshape].
    destruct (Hshape F) as ([Hnil|Hsrc] & _).
    + rewrite (Files_at_lookup _ _ _ HFile) in Hnil. by rewrite Hnil.
    + rewrite (Files_at_lookup _ _ _ HFile) in Hsrc.
      by apply (tokenize_stores_no_eof E F).
Qed.
End Built.


(** * The examples, run *)

(** The keys of the map, in the order of its list of entries, are keys. *)
Lemma example_order_visits_keys : visits_keys example_order.
Proof.
  intros Fs D HD. unfold example_order in HD.
  apply list_elem_of_fmap in HD as ([K V] & -> & HKV).
  apply elem_of_map_to_list in HKV. simpl. by eexists.
Qed.

(** The Builder on the examples. *)
Lemma plain_built :
  consume plain_env example_order plain_expanded ∅ = Ok plain_buffer.
Proof. vm_compute. reflexivity. Qed.


Lemma macro_built :
  consume macro_env example_order macro_expanded macro_expansions = Ok macro_buffer.
Proof. vm_compute. reflexivity. Qed.

Lemma include_built :
  consume include_env example_order include_expanded ∅ = Ok include_buffer.
Proof. vm_compute. reflexivity. Qed.

Lemma split_built :
  consume split_env example_order split_expanded split_expansions = Ok split_buffer.
Proof. vm_compute. reflexivity. Qed.

(** The capturer on the two expansion events of [A(2)], and the Builder on
    what it captured: one merged mapping from [A ( 2 )] to [1 + 2]. *)
Lemma merged_captured :
  MacroExpands merged_env enabled_capturer A_range = Ok A_capturer ∧
  MacroExpands merged_env A_capturer B_range
    = Ok (mkCollectPPExpansions (Some (mkTokenCollector merged_expansions)) 1034%N).
Proof. split; vm_compute; reflexivity. Qed.

Lemma merged_built :
  consume merged_env example_order merged_expanded merged_expansions
  = Ok merged_buffer.
Proof. vm_compute. reflexivity. Qed.

Lemma touching_built :
  consume touching_env example_order touching_expanded ∅ = Ok touching_buffer.
Proof. vm_compute. reflexivity. Qed.


(** * C1 *)


(** The assumption on end-of-file tokens is needed: when a captured
    expansion starts at the location of the end-of-file token, the mapping
    of the macro ends behind the range of its file and the mapping of the
    drained tokens begins inside it. *)
Lemma eof_inside_expansion_breaks_order :
  consume eof_env example_order eof_expanded split_expansions = Ok eof_buffer ∧
  ¬ weakly_ordered (Mappings eof_file).
Proof.
  split; [vm_compute; reflexivity|]. intros [_ H].
  specialize (H 0 1 (mkMapping 0 1 0 2) (mkMapping 1 2 1 1) ltac:(lia) eq_refl eq_refl).
  simpl in H. lia.
Qed.

(** * C2 *)

(** In [int a = X;] the expanded token 3 lies in the mapping of [X] and
    resolves to its first spelled token; the token 4 behind it resolves to
    the spelled token behind the mapping. *)
Lemma spelledForExpandedToken_rightmost_witness :
  spelledForExpandedToken macro_env macro_buffer 3
    = Ok (spelledForExpandedToken_spec 1%Z macro_file 3) ∧
  spelledForExpandedToken_spec 1%Z macro_file 3
    = (mkSpelledPtr 1%Z 7, Some (mkMapping 7 8 3 4)) ∧
  spelledForExpandedToken macro_env macro_buffer 4
    = Ok (spelledForExpandedToken_spec 1%Z macro_file 4) ∧
  spelledForExpandedToken_spec 1%Z macro_file 4 = (mkSpelledPtr 1%Z 8, None).
Proof.
  assert (sorted_by BeginExpanded (Mappings macro_file)) as Hsorted.
  { apply (build_sorted_BeginExpanded macro_env example_order
             (Builder_new macro_expanded macro_expansions) macro_buffer 1%Z macro_file);
      [exact example_order_visits_keys| | |reflexivity..|exact macro_built|reflexivity].
    - unfold end_in_file. each_token; reflexivity.
    - unfold eof_not_captured. each_token; intros Hk; (discriminate Hk || reflexivity). }
  split_and!; [|reflexivity| |reflexivity].
  - apply (spelledForExpandedToken_rightmost macro_env macro_buffer 3
             (mkToken (macro_loc 10) 1%N (tok_literal 0)) macro_file);
      [reflexivity|reflexivity|exact Hsorted|simpl; lia|lia|].
    repeat constructor; simpl; lia.
  - apply (spelledForExpandedToken_rightmost macro_env macro_buffer 4
             (mkToken 1021%N 1%N (tok_punctuator 0)) macro_file);
      [reflexivity|reflexivity|exact Hsorted|simpl; lia|lia|].
    repeat constructor; simpl; lia.
Defined.

(** * C3 *)


(** * C4 *)

(** C4, as stated, fails for a disabled capturer: the event passes the
    filter and nothing is recorded. *)
Lemma disabled_capturer_records_nothing :
  recorded_by_spec plain_env (LastExpansionEnd disabled_capturer) X_range = true ∧
  MacroExpands plain_env disabled_capturer X_range = Ok disabled_capturer ∧
  ¬ records_iff_filter plain_env disabled_capturer X_range.
Proof.
  split_and!; [reflexivity..|]. intros [H _].
  destruct (H eq_refl) as (C' & HC' & Col' & HCol' & _).
  injection HC' as <-. discriminate HCol'.
Qed.

(** The enabled capturer records the same event; and it records the call of
    [B] in [A(2)], whose begin lies in the expansion of [A], under the
    location of [A]. *)
Lemma MacroExpands_enabled_witness :
  (MacroExpands plain_env enabled_capturer X_range
     = Ok (record_event plain_env empty_collector X_range) ∧
   holds_event plain_env (record_event plain_env empty_collector X_range) X_range) ∧
  (record_key merged_env B_range = 1031%N ∧
   MacroExpands merged_env A_capturer B_range
     = Ok (record_event merged_env A_collector B_range) ∧
   holds_event merged_env (record_event merged_env A_collector B_range) B_range).
Proof.
  split.
  - destruct (MacroExpands_enabled plain_env enabled_capturer empty_collector
                X_range eq_refl) as (_ & H & _).
    apply H; [reflexivity|left; reflexivity].
  - split; [reflexivity|].
    destruct (MacroExpands_enabled merged_env A_capturer A_collector
                B_range eq_refl) as (_ & H & _).
    apply H; [reflexivity|right; by eexists].
Defined.

(** * C5 *)

(** The lexer of [int x;] ends with end-of-file, which tokenize drops. *)
Lemma spelled_tokens_never_hold_eof_witness :
  tokenize plain_env 1%Z = Ok plain_spelled ∧
  Forall (λ T, kind T ≠ tok_eof) plain_spelled ∧
  Forall (λ T, kind T ≠ tok_eof) (SpelledTokens plain_file).
Proof.
  destruct (spelled_tokens_never_hold_eof plain_env example_order) as [Htok Hbuf].
  - intros F. destruct F as [|[p|p|]|p]; simpl; repeat constructor; discriminate.
  - intros Name. simpl. destruct (String.eqb Name "int"); discriminate.
  - split_and!; [reflexivity| |].
    + apply (Htok 1%Z plain_spelled). reflexivity.
    + apply (Hbuf plain_expanded ∅ plain_buffer 1%Z plain_file);
        [exact plain_built|reflexivity].
Defined.

(** * C7 *)

(** In the buffer of the main file and its header, an empty range and the
    range from the last token of the header to the first one of the main
    file both give none. *)
Lemma spelledForExpanded_none_witness :
  spelledForExpanded include_env include_buffer (mkExpandedRef 2 0) = Ok None ∧
  spelledForExpanded include_env include_buffer (mkExpandedRef 2 2) = Ok None.
Proof.
  split.
  - apply (spelledForExpanded_none include_env include_buffer (mkExpandedRef 2 0)).
    left. reflexivity.
  - apply (spelledForExpanded_none include_env include_buffer (mkExpandedRef 2 2)).
    right.
    exists (mkSpelledPtr 2%Z 2), None, (mkSpelledPtr 1%Z 3), None,
           (mkToken 2005%N 1%N (tok_punctuator 0)), (mkToken 1013%N 3%N (tok_keyword 0)).
    split_and!; [reflexivity..|]. simpl. discriminate.
Defined.

(** * C8 *)

(** The spelled token [X] of [int a = X;] starts the expansion [7,8) => [3,4). *)
Lemma expansionStartingAt_iff_witness :
  ∃ r, expansionStartingAt macro_env macro_buffer (mkSpelledPtr 1%Z 7) = Ok r ∧
       (is_Some r ↔
        ∃ M, M ∈ Mappings macro_file ∧ BeginSpelled M = 7) ∧
       r = Some (mkExpansion
                   (mkSpelledRef (mkSpelledPtr 1%Z 7) (mkSpelledPtr 1%Z 8))
                   (mkExpandedRange 3 4)).
Proof.
  destruct (expansionStartingAt_iff macro_env macro_buffer (mkSpelledPtr 1%Z 7)
              (mkToken 1020%N 1%N tok_identifier) macro_file)
    as (r & Hr & Hiff & _).
  - reflexivity.
  - reflexivity.
  - reflexivity.
  - reflexivity.
  - apply (build_sorted_BeginSpelled macro_env example_order
             (Builder_new macro_expanded macro_expansions) macro_buffer 1%Z macro_file);
      [reflexivity..|exact macro_built|reflexivity].
  - exists r. split_and!; [exact Hr|exact Hiff|].
    vm_compute in Hr. by injection Hr as <-.
Defined.

(** * C9 *)

(** [foo] and [bar] touch at 1003. *)
Lemma touching_adjacent_identifiers_witness :
  spelledTokensTouching touching_env 1003%N touching_buffer
    = Ok (mkSpelledRef (mkSpelledPtr 1%Z 0) (mkSpelledPtr 1%Z 2)) ∧
  spelledIdentifierTouching touching_env 1003%N touching_buffer
    = Ok (Some (mkSpelledPtr 1%Z 0)).
Proof.
  apply (touching_adjacent_identifiers touching_env touching_buffer 1003%N
           touching_file [] [] foo bar).
  - reflexivity.
  - reflexivity.
  - reflexivity.
  - intros i j x y Hij Hx Hy.
    destruct i as [|[|i]]; destruct j as [|[|j]]; simpl in *;
      simplify_eq; simpl; lia.
  - reflexivity.
  - reflexivity.
  - simpl. lia.
  - reflexivity.
  - reflexivity.
Defined.

(** * C10 *)

(** C10: for [int x;] the end-of-file token, which the assertions of
    spelledForExpandedToken accept, resolves to the index 3 of a file with three
    spelled tokens; reading through that pointer, as spelledForExpanded does,
    is out of bounds. *)
Theorem eof_resolves_past_the_end :
  consume plain_env example_order plain_expanded ∅ = Ok plain_buffer ∧
  plain_expanded !! 3 = Some (mkToken 1006%N 0%N tok_eof) ∧
  spelledForExpandedToken plain_env plain_buffer 3 = Ok (mkSpelledPtr 1%Z 3, None) ∧
  length (SpelledTokens plain_file) = 3 ∧
  deref plain_buffer (mkSpelledPtr 1%Z 3) = Fault OutOfBounds ∧
  spelledForExpanded plain_env plain_buffer (mkExpandedRef 3 1) = Fault OutOfBounds ∧
  ¬ resolves_in_bounds plain_env plain_buffer 3.
Proof.
  split_and!; [exact plain_built|reflexivity..|].
  intros (P & M & Tok & HP & HTok).
  assert (P = mkSpelledPtr 1%Z 3) as -> by (vm_compute in HP; congruence).
  discriminate HTok.
Qed.

(** * Further properties *)


(** ** The tokenizer and the token watcher, token by token *)

Section TokenizerExact.
Context (E : Env).

Lemma AddToken_storable Tokens T :
  storable E T = true → AddToken E Tokens T = Ok (Tokens ++ [stored E T]).
Proof.
  unfold storable, AddToken, stored, stored_kind, Token_of_clang, Token_new, isAnnotation.
  destruct (kind_is (getKind T) tok_raw_identifier && negb (needsCleaning T)
            && negb (hasUCN T)); simpl;
    intros [-> Hk]%andb_prop; simpl;
    match goal with Hk : negb (is_annotation_kind ?k) = true |- _ =>
      destruct k; simpl in *; done end.
Qed.

Lemma AddToken_Ok_storable Tokens T Tokens' :
  AddToken E Tokens T = Ok Tokens' → storable E T = true.
Proof.
  unfold storable, AddToken, stored_kind, Token_of_clang, Token_new, isAnnotation.
  destruct (kind_is (getKind T) tok_raw_identifier && negb (needsCleaning T)
            && negb (hasUCN T)); simpl;
    destruct (isValid (getLocation T)); simpl; try done;
    match goal with |- context [is_annotation_kind ?k] => destruct k end;
    simpl; done.
Qed.

Lemma tokenize_loop_exact run : ∀ Tokens Tokens',
  tokenize_loop E run Tokens = Ok Tokens' ↔
  Forall (λ T, storable E T = true) run ∧ Tokens' = Tokens ++ map (stored E) run.
Proof.
  induction run as [|T run IH]; intros Tokens Tokens'; simpl.
  - rewrite app_nil_r. split.
    + intros [= ->]. by split.
    + by intros [_ ->].
  - split.
    + intros H. apply bind_Ok_inv in H as (Tokens1 & H1 & H2).
      pose proof (AddToken_Ok_storable _ _ _ H1) as Hs.
      rewrite (AddToken_storable _ _ Hs) in H1. injection H1 as <-.
      apply IH in H2 as [Hrun ->]. split; [by constructor|].
      by rewrite <- app_assoc.
    + intros [Hall ->]. apply Forall_cons in Hall as [Hs Hall].
      rewrite (AddToken_storable _ _ Hs). simpl.
      apply IH. split; [done|]. by rewrite <- app_assoc.
Qed.

(** X1: tokenize stores one token for each token the raw lexer delivers, in
    the order of delivery and with the location and the length the lexer
    gave it; the kind is the one of the identifier table for a raw
    identifier that needs no cleaning and has no UCN, and the kind of the
    lexer otherwise.  The last token of the lexer is dropped when it is
    the end of file.  tokenize returns exactly when every delivered token
    has a valid location and no annotation kind. *)
Theorem tokenize_exact (FID : FileID) (Tokens : list Token) :
  tokenize E FID = Ok Tokens ↔
  Forall (λ T, storable E T = true) (delivered (RawLexer E FID)) ∧
  Tokens = map (stored E) (delivered (RawLexer E FID)).
Proof.
  unfold tokenize, delivered.
  destruct (kind_is (getKind (Final (RawLexer E FID))) tok_eof) eqn:Heof; simpl.
  - rewrite app_nil_r. split.
    + intros H. apply bind_Ok_inv in H as (Body & HBody & [= ->]).
      by apply tokenize_loop_exact in HBody.
    + intros [Hall ->].
      assert (tokenize_loop E (Lexed (RawLexer E FID)) []
              = Ok (map (stored E) (Lexed (RawLexer E FID)))) as ->; [|done].
      by apply tokenize_loop_exact.
  - split.
    + intros H. apply bind_Ok_inv in H as (Body & HBody & H).
      apply tokenize_loop_exact in HBody as [Hall ->]. simpl in H.
      pose proof (AddToken_Ok_storable _ _ _ H) as Hs.
      rewrite (AddToken_storable _ _ Hs) in H. injection H as <-.
      split.
      * apply Forall_app. split; [done|]. by apply Forall_singleton.
      * by rewrite map_app.
    + intros [Hall ->]. apply Forall_app in Hall as [Hall Hs].
      rewrite Forall_singleton in Hs.
      assert (tokenize_loop E (Lexed (RawLexer E FID)) []
              = Ok ([] ++ map (stored E) (Lexed (RawLexer E FID)))) as ->.
      { by apply tokenize_loop_exact. }
      simpl. rewrite (AddToken_storable _ _ Hs). by rewrite map_app.
Qed.
End TokenizerExact.

(** ** The token watcher *)

Lemma TokenWatcher_cases Expanded_ T :
  TokenWatcher Expanded_ T =
    if isAnnotation T then Ok Expanded_
    else if isValid (getLocation T) then Ok (Expanded_ ++ [watched T])
    else Fault AssertionFailure.
Proof.
  unfold TokenWatcher, Token_of_clang, Token_new, watched.
  destruct (isAnnotation T) eqn:HA; [done|].
  destruct (isValid (getLocation T)); done.
Qed.

(** X2: the token watcher appends one token for each token of the
    preprocessor that is no annotation, in order and with its location,
    length and kind, and skips the annotations; it returns exactly when
    those tokens have valid locations, so the assertion of the converting
    constructor that the token is no annotation never fails here. *)
Theorem watch_skips_annotations (Emitted : list ClangToken)
    (Expanded_ Expanded' : list Token) :
  watch Emitted Expanded_ = Ok Expanded' ↔
  Forall (λ T, isValid (getLocation T) = true)
         (List.filter (λ T, negb (isAnnotation T)) Emitted) ∧
  Expanded' = Expanded_ ++
    map watched (List.filter (λ T, negb (isAnnotation T)) Emitted).
Proof.
  revert Expanded_. induction Emitted as [|T Emitted IH]; intros Expanded_; simpl.
  - rewrite app_nil_r. split; [intros [= ->]; by split|by intros [_ ->]].
  - rewrite TokenWatcher_cases.
    destruct (isAnnotation T); simpl; [apply IH|].
    destruct (isValid (getLocation T)) eqn:HV; simpl.
    + rewrite IH, <- app_assoc. simpl. split.
      * intros [? ->]. split; [by constructor|done].
      * intros [[_ ?]%Forall_cons ->]. by split.
    + split; [done|]. intros [[? _]%Forall_cons _]. congruence.
Qed.

(** ** The capturer along a run of the preprocessor *)

Section CapturerRuns.
Context (E : Env).

(** A call either leaves the capturer as it is or records the event. *)
Lemma MacroExpands_cases (C C' : CollectPPExpansions) (Range : SourceRange) :
  MacroExpands E C Range = Ok C' →
  C' = C ∨
  ∃ Col, Collector C = Some Col ∧
         recorded_by_spec E (LastExpansionEnd C) Range = true ∧
         (isFileID (getBegin Range) = true ∨
          is_Some (Expansions Col !! getExpansionLoc E (getBegin Range))) ∧
         C' = record_event E Col Range.
Proof.
  unfold MacroExpands, recorded_by_spec, record_event, record_key.
  destruct (Collector C) as [Col|] eqn:HCol; [|intros [= <-]; by left].
  destruct (isFileID (getEnd Range)); simpl; [|intros [= <-]; by left].
  destruct (isValid (LastExpansionEnd C)
            && negb (isBeforeInTranslationUnit E (LastExpansionEnd C) (getEnd Range)))
    eqn:Hnested; [intros [= <-]; by left|].
  intros H. right. exists Col. split; [done|].
  assert (negb (isValid (LastExpansionEnd C))
          || isBeforeInTranslationUnit E (LastExpansionEnd C) (getEnd Range) = true)
    as Hfilter.
  { destruct (isValid (LastExpansionEnd C)); simpl in *; [|done].
    by apply negb_false_iff in Hnested. }
  split; [done|].
  destruct (isFileID (getBegin Range)); simpl in H.
  - injection H as <-. split; [by left|done].
  - case_bool_decide as Hkey; simpl in H; [|done].
    injection H as <-. split; [by right|done].
Qed.

(** X3: MacroExpands keeps what it has: a call does not remove a key and
    changes the value of no key but the one of its event; it does not
    enable or disable the capturer; and when it moves LastExpansionEnd,
    from a valid location, it moves it forward in the translation
    unit. *)
Theorem MacroExpands_keeps (C C' : CollectPPExpansions) (Range : SourceRange) :
  MacroExpands E C Range = Ok C' →
  (∀ K, is_Some (table C !! K) → is_Some (table C' !! K)) ∧
  (∀ K, K ≠ record_key E Range → table C' !! K = table C !! K) ∧
  (is_Some (Collector C') ↔ is_Some (Collector C)) ∧
  (LastExpansionEnd C' ≠ LastExpansionEnd C →
   isValid (LastExpansionEnd C) = true →
   isBeforeInTranslationUnit E (LastExpansionEnd C) (LastExpansionEnd C') = true).
Proof.
  intros H. apply MacroExpands_cases in H as [->|(Col & HCol & Hf & _ & ->)].
  { split_and!; done. }
  unfold table, record_event. rewrite HCol. simpl. split_and!.
  - intros K HK.
    destruct (decide (K = record_key E Range)) as [->|Hne].
    + rewrite lookup_insert_eq. by eexists.
    + by rewrite lookup_insert_ne.
  - intros K Hne. by rewrite lookup_insert_ne.
  - split; intros _; by eexists.
  - intros _ HV. unfold recorded_by_spec in Hf. rewrite HV in Hf. simpl in Hf.
    by apply andb_prop in Hf as [_ ?].
Qed.

Lemma MacroExpands_table_in_files (C C' : CollectPPExpansions) (Range : SourceRange) :
  (∀ L, isFileID (getExpansionLoc E L) = true) →
  MacroExpands E C Range = Ok C' →
  table_in_files C → table_in_files C'.
Proof.
  intros HSM H HI. apply MacroExpands_cases in H as [->|(Col & HCol & Hf & _ & ->)];
    [done|].
  intros K V. unfold table, record_event. simpl.
  destruct (decide (K = record_key E Range)) as [->|Hne].
  - rewrite lookup_insert_eq. intros [= <-]. split.
    + unfold record_key. destruct (isFileID (getBegin Range)) eqn:HB; [done|apply HSM].
    + unfold recorded_by_spec in Hf. by apply andb_prop in Hf as [? _].
  - rewrite lookup_insert_ne by done. intros HK. apply (HI K V).
    unfold table. by rewrite HCol.
Qed.

(** X4: along any run of the preprocessor, from a table of file locations
    on (the empty one, say), the table of the capturer holds file
    locations only, as keys and as values, when the source manager gives
    every location an expansion location in a file: the Builder looks the
    table up at the locations of spelled tokens and compares the values
    with them. *)
Theorem MacroExpands_run_in_files (Events : list SourceRange)
    (C C' : CollectPPExpansions) :
  (∀ L, isFileID (getExpansionLoc E L) = true) →
  table_in_files C →
  MacroExpands_run E C Events = Ok C' →
  table_in_files C'.
Proof.
  intros HSM. revert C. induction Events as [|Range Events IH]; intros C HI H; simpl in H.
  - by injection H as <-.
  - apply bind_Ok_inv in H as (C1 & H1 & H2).
    eapply IH; [|exact H2]. by eapply MacroExpands_table_in_files.
Qed.
End CapturerRuns.



(** ** More about the queries *)

Lemma partition_point_from_bounds {A} (P : A → bool) (v : list A) :
  ∀ fuel first len,
    first ≤ partition_point_from P v first len fuel ∧
    partition_point_from P v first len fuel ≤ first + len.
Proof.
  induction fuel as [|fuel IH]; intros first len; cbn [partition_point_from]; [lia|].
  destruct (Nat.eqb_spec len 0) as [->|Hlen]; [lia|].
  assert (len / 2 < len) by (apply Nat.div_lt; lia).
  destruct (v !! (first + len / 2)) as [x|]; [|lia].
  destruct (P x).
  - specialize (IH (first + len / 2 + 1) (len - (len / 2 + 1))). lia.
  - specialize (IH first (len / 2)). lia.
Qed.

Lemma partition_point_le {A} (P : A → bool) (v : list A) :
  partition_point v P ≤ length v.
Proof.
  unfold partition_point.
  pose proof (partition_point_from_bounds P v (length v) 0 (length v)). lia.
Qed.

Lemma count_while_lt_iff {A} (P : A → bool) (v : list A) i x :
  prefix_closed P v → v !! i = Some x →
  i < count_while P v ↔ P x = true.
Proof.
  intros Hpc Hx. split; [intros Hi; by eapply count_while_true|].
  intros HP. destruct (decide (i < count_while P v)) as [|Hge]; [done|].
  destruct (lookup_lt_is_Some_2 v (count_while P v)) as [z Hz].
  { apply lookup_lt_Some in Hx. lia. }
  pose proof (count_while_false P v z Hz) as Hfalse.
  rewrite (Hpc (count_while P v) i z x) in Hfalse; [done|lia|done..].
Qed.

Lemma first_identifier_spec Toks FID : ∀ I,
  match first_identifier Toks FID I with
  | Some P =>
      ptr_file P = FID ∧ I ≤ ptr_index P ∧ ptr_index P < I + length Toks ∧
      (∃ T, Toks !! (ptr_index P - I) = Some T ∧ kind T = tok_identifier) ∧
      ∀ j T, j < ptr_index P - I → Toks !! j = Some T → kind T ≠ tok_identifier
  | None => ∀ j T, Toks !! j = Some T → kind T ≠ tok_identifier
  end.
Proof.
  induction Toks as [|Tok Toks IH]; intros I; simpl; [done|].
  unfold kind_is. case_bool_decide as Hk.
  - simpl. split_and!; [done|lia|lia| |intros j T Hj; lia].
    exists Tok. by rewrite Nat.sub_diag.
  - specialize (IH (S I)). destruct (first_identifier Toks FID (S I)) as [P|].
    + destruct IH as (HF & Hle & Hlt & (T & HT & HTk) & Hfirst).
      split_and!; [done|lia|lia| |].
      * exists T. split; [|done].
        replace (ptr_index P - I) with (S (ptr_index P - S I)) by lia. done.
      * intros [|j] T' Hj HT'; simpl in HT'; [by simplify_eq|].
        apply (Hfirst j T'); [lia|done].
    + intros [|j] T HT; simpl in HT; [by simplify_eq|]. by eapply IH.
Qed.

Section QueryExtras.
Context (E : Env).

(** X5: expandedTokens(R) returns the empty ArrayRef for an invalid range.
    For a valid one, when the order of the translation unit is transitive
    and the expanded tokens stand in that order, it returns a slice of
    ExpandedTokens that holds exactly the tokens that are neither before
    the begin of the range nor behind its end. *)
Theorem expandedTokens_exact (TB : TokenBuffer) (R : SourceRange) :
  tu_transitive E → expanded_in_order E TB →
  (isInvalid R = true → expandedTokens E TB R = ArrayRef_empty) ∧
  (isInvalid R = false →
   Data (expandedTokens E TB R) + Length (expandedTokens E TB R)
     ≤ length (ExpandedTokens TB) ∧
   ∀ i T, ExpandedTokens TB !! i = Some T →
     (Data (expandedTokens E TB R) ≤ i ∧
      i < Data (expandedTokens E TB R) + Length (expandedTokens E TB R))
     ↔ within E R T).
Proof.
  intros Htrans Hord. unfold expandedTokens.
  split; [by intros ->|]. intros ->.
  set (P1 := λ T : Token, isBeforeInTranslationUnit E (location T) (getBegin R)).
  set (P2 := λ T : Token, negb (isBeforeInTranslationUnit E (getEnd R) (location T))).
  assert (prefix_closed P1 (ExpandedTokens TB)) as Hpc1.
  { intros i j x y Hij Hx Hy HP. unfold P1 in *.
    destruct (decide (i = j)) as [->|Hne]; [by simplify_eq|].
    destruct (Hord i j x y ltac:(lia) Hx Hy) as [Hb|Heq].
    - by eapply Htrans.
    - by rewrite Heq. }
  assert (prefix_closed P2 (ExpandedTokens TB)) as Hpc2.
  { intros i j x y Hij Hx Hy HP. unfold P2 in *.
    destruct (decide (i = j)) as [->|Hne]; [by simplify_eq|].
    apply negb_true_iff in HP. apply negb_true_iff.
    destruct (Hord i j x y ltac:(lia) Hx Hy) as [Hb|Heq].
    - destruct (isBeforeInTranslationUnit E (getEnd R) (location x)) eqn:Hex; [|done].
      by rewrite (Htrans _ _ _ Hex Hb) in HP.
    - by rewrite Heq. }
  rewrite !partition_point_count_while by done.
  pose proof (count_while_le P1 (ExpandedTokens TB)) as Hle1.
  pose proof (count_while_le P2 (ExpandedTokens TB)) as Hle2.
  assert (∀ i T, ExpandedTokens TB !! i = Some T →
            (count_while P1 (ExpandedTokens TB) ≤ i ∧
             i < count_while P2 (ExpandedTokens TB)) ↔ within E R T) as Hin.
  { intros i T HT.
    pose proof (count_while_lt_iff P1 _ i T Hpc1 HT) as H1.
    pose proof (count_while_lt_iff P2 _ i T Hpc2 HT) as H2.
    assert (within E R T ↔ P1 T = false ∧ P2 T = true) as ->.
    { unfold within, P1, P2. by rewrite negb_true_iff. }
    rewrite <- H2. split.
    - intros [Hge Hlt]. split; [|done].
      destruct (P1 T) eqn:HP; [|done].
      assert (i < count_while P1 (ExpandedTokens TB)) by (by apply H1). lia.
    - intros [HP Hlt]. split; [|done].
      destruct (decide (count_while P1 (ExpandedTokens TB) ≤ i)); [done|].
      assert (P1 T = true) by (apply H1; lia). congruence. }
  case_bool_decide as Hrev; simpl.
  - split; [lia|]. intros i T HT. rewrite <- (Hin i T HT). lia.
  - split; [lia|]. intros i T HT. rewrite <- (Hin i T HT). lia.
Qed.

Lemma spelledTokensTouching_range (Loc : SourceLocation) (TB : TokenBuffer)
    (R : SpelledRef) :
  spelledTokensTouching E Loc TB = Ok R →
  isFileID Loc = true ∧
  ∃ File, Files TB !! getFileID E Loc = Some File ∧
    ptr_file (ref_begin R) = getFileID E Loc ∧
    ptr_file (ref_end R) = getFileID E Loc ∧
    ptr_index (ref_begin R) ≤ ptr_index (ref_end R) ∧
    ptr_index (ref_end R) ≤ length (SpelledTokens File) ∧
    ptr_index (ref_end R) - ptr_index (ref_begin R) ≤ 2.
Proof.
  unfold spelledTokensTouching, spelledTokens.
  destruct (isFileID Loc); simpl; [|done].
  destruct (Files TB !! getFileID E Loc) as [File|] eqn:HFile; simpl; [|done].
  intros [= <-]. simpl.
  split; [done|]. exists File. split; [done|].
  pose proof (partition_point_le (λ Tok, (location Tok <? Loc)%N) (SpelledTokens File))
    as Hle.
  set (Right := partition_point (SpelledTokens File) (λ Tok, (location Tok <? Loc)%N)) in *.
  split_and!; [done|done|..].
  - destruct Right; simpl; [lia|].
    repeat match goal with |- context [if ?b then _ else _] => destruct b end; lia.
  - destruct (SpelledTokens File !! Right) as [Tok|] eqn:HTok.
    + apply lookup_lt_Some in HTok. destruct (location Tok <=? Loc)%N; lia.
    + lia.
  - destruct Right; simpl;
    repeat match goal with |- context [if ?b then _ else _] => destruct b end; lia.
Qed.

(** X6: spelledTokensTouching returns at most two tokens, and they are tokens
    of the file of the location: the range it returns lies inside the
    spelled tokens of that file.  It fails an assertion, and does nothing
    else, when the location is no file location or its file is not
    tracked. *)
Theorem spelledTokensTouching_bounds (Loc : SourceLocation) (TB : TokenBuffer) :
  match spelledTokensTouching E Loc TB with
  | Ok R =>
      isFileID Loc = true ∧
      ∃ File, Files TB !! getFileID E Loc = Some File ∧
        ptr_file (ref_begin R) = getFileID E Loc ∧
        ptr_file (ref_end R) = getFileID E Loc ∧
        ptr_index (ref_begin R) ≤ ptr_index (ref_end R) ∧
        ptr_index (ref_end R) ≤ length (SpelledTokens File) ∧
        ptr_index (ref_end R) - ptr_index (ref_begin R) ≤ 2
  | Fault f =>
      f = AssertionFailure ∧
      (isFileID Loc = false ∨ Files TB !! getFileID E Loc = None)
  end.
Proof.
  destruct (spelledTokensTouching E Loc TB) as [R|f] eqn:H.
  - by apply spelledTokensTouching_range.
  - unfold spelledTokensTouching, spelledTokens in H.
    destruct (isFileID Loc); simpl in H; [|injection H as <-; by auto].
    destruct (Files TB !! getFileID E Loc); simpl in H; [done|].
    injection H as <-. by auto.
Qed.

(** X7: on a file whose spelled tokens follow each other without overlap,
    spelledTokensTouching returns exactly the tokens that touch the
    location: a token of the file is in the returned range if and only if
    it starts at or before the location and ends at or behind it. *)
Theorem spelledTokensTouching_exact (Loc : SourceLocation) (TB : TokenBuffer)
    (File : MarkedFile) :
  isFileID Loc = true →
  Files TB !! getFileID E Loc = Some File →
  laid_out (SpelledTokens File) →
  ∃ R, spelledTokensTouching E Loc TB = Ok R ∧
       ∀ i T, SpelledTokens File !! i = Some T → in_ref R i ↔ touches Loc T.
Proof.
  intros HLoc HFile [Hends Hlaid].
  unfold spelledTokensTouching, spelledTokens. rewrite HLoc, HFile. run_ok.
  eexists. split; [done|]. unfold in_ref. simpl.
  set (P := λ Tok : Token, (location Tok <? Loc)%N).
  assert (prefix_closed P (SpelledTokens File)) as Hpc.
  { intros i j x y Hij Hx Hy HP. unfold P in *. apply N.ltb_lt in HP. apply N.ltb_lt.
    destruct (decide (i = j)) as [->|Hne]; [by simplify_eq|].
    destruct (Hlaid i j x y ltac:(lia) Hx Hy). lia. }
  rewrite partition_point_count_while by done.
  set (Right := count_while P (SpelledTokens File)).
  assert (∀ i T, SpelledTokens File !! i = Some T →
                 i < Right ↔ (location T < Loc)%N) as Hbefore.
  { intros i T HT. unfold Right. rewrite (count_while_lt_iff P _ i T Hpc HT).
    unfold P. apply N.ltb_lt. }
  intros i T HT. unfold touches.
  pose proof (Hends T ltac:(by eapply list_elem_of_lookup_2)) as HendT.
  pose proof (Hbefore i T HT) as HiT.
  (* what the two neighbours of Right say *)
  assert (∀ Tok, SpelledTokens File !! Right = Some Tok → i = Right ∨
            (i < Right ∧ (endLocation T ≤ location Tok)%N) ∨
            (Right < i ∧ (location Tok < location T)%N)) as HRight.
  { intros Tok HTok. destruct (lt_eq_lt_dec i Right) as [[Hlt| ->]|Hgt]; [|by left|].
    - right. left. split; [done|]. by destruct (Hlaid i Right T Tok Hlt HT HTok).
    - right. right. split; [done|]. by destruct (Hlaid Right i Tok T Hgt HTok HT). }
  assert (∀ L Tok, Right = S L → SpelledTokens File !! L = Some Tok → i = L ∨
            (i < L ∧ (endLocation T ≤ location Tok)%N) ∨ L < i) as HLeft.
  { intros L Tok _ HTok. destruct (lt_eq_lt_dec i L) as [[Hlt| ->]|Hgt]; [|by left|by auto].
    right. left. split; [done|]. by destruct (Hlaid i L T Tok Hlt HT HTok). }
  assert (Right ≤ length (SpelledTokens File)) as HRle by apply count_while_le.
  destruct (SpelledTokens File !! Right) as [TokR|] eqn:HTokR.
  - pose proof (Hbefore Right TokR HTokR) as HR.
    specialize (HRight TokR eq_refl).
    destruct Right as [|L] eqn:HRdef.
    + (* no token to the left *)
      destruct (N.leb_spec (location TokR) Loc) as [HleR|HgtR]; simpl.
      * split; [intros [_ Hi]; assert (i = 0) as -> by lia; simplify_eq; lia|].
        intros [HT1 HT2]. destruct HRight as [->|[[? _]|[Hgt Hloc]]]; [lia|lia|]. lia.
      * split; [lia|]. intros [HT1 HT2].
        destruct HRight as [->|[[? _]|[Hgt Hloc]]]; [simplify_eq; lia|lia|lia].
    + destruct (lookup_lt_is_Some_2 (SpelledTokens File) L) as [TokL HTokL]; [lia|].
      rewrite HTokL. pose proof (Hbefore L TokL HTokL) as HL.
      specialize (HLeft L TokL eq_refl HTokL).
      destruct (N.leb_spec Loc (endLocation TokL)) as [HleL|HgtL];
        destruct (N.leb_spec (location TokR) Loc) as [HleR|HgtR]; simpl.
      * split.
        -- intros [Hi1 Hi2].
           assert (i = L ∨ i = S L) as [->| ->] by lia; simplify_eq; lia.
        -- intros [HT1 HT2].
           destruct HRight as [->|[[Hlt Hend]|[Hgt Hloc]]]; [lia| |lia].
           destruct HLeft as [->|[[Hlt' Hend']|?]]; [lia| |lia]. lia.
      * split.
        -- intros [Hi1 Hi2]. assert (i = L) as -> by lia. simplify_eq. lia.
        -- intros [HT1 HT2].
           destruct HRight as [->|[[Hlt Hend]|[Hgt Hloc]]]; [simplify_eq; lia| |lia].
           destruct HLeft as [->|[[Hlt' Hend']|?]]; [lia| |lia]. lia.
      * split.
        -- intros [Hi1 Hi2]. assert (i = S L) as -> by lia. simplify_eq. lia.
        -- intros [HT1 HT2].
           destruct HRight as [->|[[Hlt Hend]|[Hgt Hloc]]]; [lia| |lia].
           destruct HLeft as [->|[[Hlt' Hend']|?]]; [simplify_eq; lia| |lia]. lia.
      * split; [lia|]. intros [HT1 HT2].
        destruct HRight as [->|[[Hlt Hend]|[Hgt Hloc]]]; [simplify_eq; lia| |lia].
        destruct HLeft as [->|[[Hlt' Hend']|?]]; [simplify_eq; lia| |lia]. lia.
  - (* Right is the end of the tokens *)
    apply lookup_ge_None in HTokR.
    assert (i < Right) as Hi by (apply lookup_lt_Some in HT; lia).
    destruct Right as [|L] eqn:HRdef; [lia|].
    destruct (lookup_lt_is_Some_2 (SpelledTokens File) L) as [TokL HTokL]; [lia|].
    rewrite HTokL. specialize (HLeft L TokL eq_refl HTokL).
    pose proof (proj1 HiT Hi) as HltT.
    destruct (N.leb_spec Loc (endLocation TokL)) as [HleL|HgtL]; simpl.
    + split.
      * intros [Hi1 Hi2]. assert (i = L) as -> by lia. simplify_eq. lia.
      * intros [HT1 HT2]. destruct HLeft as [->|[[Hlt' Hend']|?]]; [lia| |lia].
        pose proof (Hbefore L TokL HTokL). lia.
    + split; [lia|]. intros [HT1 HT2].
      destruct HLeft as [->|[[Hlt' Hend']|?]]; [simplify_eq; lia| |lia].
      pose proof (Hbefore L TokL HTokL). lia.
Qed.

(** X8: spelledIdentifierTouching returns the first identifier among the
    tokens that spelledTokensTouching returns, and the null pointer
    exactly when none of them is an identifier. *)
Theorem spelledIdentifierTouching_first (Loc : SourceLocation) (TB : TokenBuffer)
    (R : SpelledRef) (File : MarkedFile) :
  spelledTokensTouching E Loc TB = Ok R →
  Files TB !! getFileID E Loc = Some File →
  ∃ r, spelledIdentifierTouching E Loc TB = Ok r ∧
    match r with
    | Some P =>
        ptr_file P = getFileID E Loc ∧ in_ref R (ptr_index P) ∧
        (∃ T, SpelledTokens File !! ptr_index P = Some T ∧ kind T = tok_identifier) ∧
        ∀ j T, in_ref R j → j < ptr_index P → SpelledTokens File !! j = Some T →
               kind T ≠ tok_identifier
    | None =>
        ∀ j T, in_ref R j → SpelledTokens File !! j = Some T →
               kind T ≠ tok_identifier
    end.
Proof.
  intros HR HFile.
  destruct (spelledTokensTouching_range Loc TB R HR)
    as (_ & File' & HFile' & HF1 & HF2 & Hle & Hlen & _).
  rewrite HFile in HFile'. injection HFile' as <-.
  unfold spelledIdentifierTouching. rewrite HR. run_ok.
  unfold spelledTokens. rewrite HF1, HFile. run_ok.
  eexists. split; [done|].
  set (B := ptr_index (ref_begin R)) in *. set (En := ptr_index (ref_end R)) in *.
  pose proof (first_identifier_spec
                (take (En - B) (drop B (SpelledTokens File))) (getFileID E Loc) B) as Hspec.
  assert (length (take (En - B) (drop B (SpelledTokens File))) = En - B) as Hlen'.
  { rewrite length_take, length_drop. lia. }
  assert (∀ j, j < En - B →
            take (En - B) (drop B (SpelledTokens File)) !! j
            = SpelledTokens File !! (B + j)) as Hlook.
  { intros j Hj. rewrite lookup_take_lt by done. by rewrite lookup_drop. }
  unfold in_ref. fold B En.
  destruct (first_identifier _ _ B) as [P|].
  - destruct Hspec as (HF & HPle & HPlt & (T & HT & HTk) & Hfirst).
    rewrite Hlen' in HPlt. split_and!; [done|done|lia| |].
    + exists T. split; [|done]. rewrite Hlook in HT by lia.
      by replace (B + (ptr_index P - B)) with (ptr_index P) in HT by lia.
    + intros j T' [Hj1 Hj2] HjP HT'. apply (Hfirst (j - B) T'); [lia|].
      rewrite Hlook by lia. by replace (B + (j - B)) with j by lia.
  - intros j T [Hj1 Hj2] HT. apply (Hspec (j - B) T).
    rewrite Hlook by lia. by replace (B + (j - B)) with j by lia.
Qed.
End QueryExtras.



(** ** The macro expansions of a file *)

Section MacroExpansions.
Context (E : Env).

Lemma macroExpansions_loop_spec FID Spelled_ Ms : ∀ Expansions_,
  Forall (λ M, BeginSpelled M < length Spelled_) Ms →
  macroExpansions_loop FID Spelled_ Ms Expansions_ =
    Ok (Expansions_ ++
        map (λ M, mkSpelledPtr FID (BeginSpelled M))
            (List.filter (begins_at_identifier Spelled_) Ms)).
Proof.
  induction Ms as [|M Ms IH]; intros Acc Hin; simpl.
  - by rewrite app_nil_r.
  - apply Forall_cons in Hin as [HM Hin].
    destruct (lookup_lt_is_Some_2 Spelled_ (BeginSpelled M) HM) as [Tok HTok].
    rewrite (at_index_Some _ _ _ HTok). run_ok. rewrite IH by done.
    unfold begins_at_identifier at 2. rewrite HTok.
    destruct (kind_is (kind Tok) tok_identifier); simpl; [|done].
    by rewrite <- app_assoc.
Qed.

(** expansionStartingAt finds an expansion exactly at the spelled tokens
    at which a mapping begins. *)
Lemma expansionStartingAt_found (TB : TokenBuffer) (P : SpelledPtr)
    (Tok : Token) (File : MarkedFile) :
  deref TB P = Ok Tok →
  isFileID (location Tok) = true →
  getFileID E (location Tok) = ptr_file P →
  Files TB !! ptr_file P = Some File →
  sorted_by BeginSpelled (Mappings File) →
  (∃ M, M ∈ Mappings File ∧ BeginSpelled M = ptr_index P) →
  ∃ M, M ∈ Mappings File ∧ BeginSpelled M = ptr_index P ∧
       expansionStartingAt E TB P =
         Ok (Some (mkExpansion
                     (mkSpelledRef (mkSpelledPtr (ptr_file P) (BeginSpelled M))
                                   (mkSpelledPtr (ptr_file P) (EndSpelled M)))
                     (mkExpandedRange (BeginExpanded M) (EndExpanded M)))).
Proof.
  intros HTok HisFile HFID HFile Hsorted (M & HM & HBS).
  unfold expansionStartingAt. rewrite HTok. run_ok. rewrite HisFile. run_ok.
  rewrite HFID, HFile.
  assert (ptr_index P < length (SpelledTokens File)) as Hlen.
  { unfold deref in HTok. rewrite HFile in HTok.
    apply at_index_Ok in HTok. by eapply lookup_lt_Some. }
  rewrite !bool_decide_eq_true_2 by done. run_ok.
  rewrite partition_point_count_while by (by apply sorted_by_prefix_closed_lt).
  set (Q := λ M : Mapping, bool_decide (BeginSpelled M < ptr_index P)).
  set (k := count_while Q (Mappings File)).
  apply list_elem_of_lookup in HM as [i HM].
  assert (k ≤ i) as Hki.
  { destruct (decide (k ≤ i)); [done|].
    assert (i < k) as Hik by lia.
    pose proof (count_while_true Q _ i M Hik HM) as HQ.
    apply bool_decide_eq_true in HQ. lia. }
  destruct (lookup_lt_is_Some_2 (Mappings File) k) as [Mp HMp].
  { apply lookup_lt_Some in HM. lia. }
  rewrite HMp.
  pose proof (count_while_false Q _ Mp HMp) as HQ. apply bool_decide_eq_false in HQ.
  pose proof (Hsorted k i Mp M Hki HMp HM) as Hle.
  rewrite bool_decide_eq_false_2 by lia.
  exists Mp. split_and!; [by eapply list_elem_of_lookup_2|lia|done].
Qed.

Lemma expansionStartingAt_Some_inv (TB : TokenBuffer) (P : SpelledPtr)
    (File : MarkedFile) (Ex : Expansion) :
  Files TB !! ptr_file P = Some File →
  expansionStartingAt E TB P = Ok (Some Ex) →
  ∃ M, M ∈ Mappings File ∧ BeginSpelled M = ptr_index P ∧
       Spelled Ex = mkSpelledRef (mkSpelledPtr (ptr_file P) (BeginSpelled M))
                                 (mkSpelledPtr (ptr_file P) (EndSpelled M)) ∧
       Expanded Ex = mkExpandedRange (BeginExpanded M) (EndExpanded M).
Proof.
  intros HFile. unfold expansionStartingAt.
  destruct (deref TB P) as [Tok|] eqn:HTok; simpl; [|done].
  destruct (isFileID (location Tok)); simpl; [|done].
  destruct (Files TB !! getFileID E (location Tok)) as [File'|] eqn:HFile'; [|done].
  case_bool_decide as HF; simpl; [|done].
  rewrite <- HF in HFile'. rewrite HFile in HFile'. injection HFile' as <-.
  case_bool_decide; simpl; [|done].
  destruct (Mappings File !! _) as [Mp|] eqn:HMp; [|done].
  case_bool_decide as Hne; [done|].
  intros [= <-]. exists Mp. simpl. rewrite HF.
  split_and!; [by eapply list_elem_of_lookup_2|done..].
Qed.

(** X9: macroExpansions fails its assertion for a file that is not tracked.
    For a tracked file whose mappings are sorted by BeginSpelled and begin
    at existing spelled tokens, and whose spelled tokens carry file
    locations of this file, it returns exactly the identifiers of the file
    at which expansionStartingAt finds an expansion. *)
Theorem macroExpansions_start_expansions (TB : TokenBuffer) (F : FileID) :
  (Files TB !! F = None → macroExpansions TB F = Fault AssertionFailure) ∧
  ∀ File,
    Files TB !! F = Some File →
    Forall (λ M, BeginSpelled M < length (SpelledTokens File)) (Mappings File) →
    sorted_by BeginSpelled (Mappings File) →
    (∀ T, T ∈ SpelledTokens File →
          isFileID (location T) = true ∧ getFileID E (location T) = F) →
    ∃ Ps, macroExpansions TB F = Ok Ps ∧
      ∀ P, P ∈ Ps ↔
        ptr_file P = F ∧
        (∃ T, deref TB P = Ok T ∧ kind T = tok_identifier) ∧
        ∃ Ex, expansionStartingAt E TB P = Ok (Some Ex).
Proof.
  split; [unfold macroExpansions; by intros ->|].
  intros File HFile Hin Hsorted Hlocs.
  unfold macroExpansions. rewrite HFile.
  rewrite macroExpansions_loop_spec by done. simpl.
  eexists. split; [done|]. intros P. rewrite list_elem_of_fmap. split.
  - intros (M & -> & HM). apply list_elem_of_In, filter_In in HM as [HM Hid].
    apply list_elem_of_In in HM. simpl. split; [done|].
    unfold begins_at_identifier in Hid.
    destruct (SpelledTokens File !! BeginSpelled M) as [Tok|] eqn:HTok; [|done].
    apply bool_decide_eq_true in Hid.
    assert (deref TB (mkSpelledPtr F (BeginSpelled M)) = Ok Tok) as Hderef.
    { unfold deref. simpl. rewrite HFile. by apply at_index_Some. }
    split; [by exists Tok|].
    destruct (Hlocs Tok ltac:(by eapply list_elem_of_lookup_2)) as [HisFile HF].
    destruct (expansionStartingAt_found TB (mkSpelledPtr F (BeginSpelled M)) Tok File
                Hderef HisFile HF HFile Hsorted) as (M' & _ & _ & ->); [|by eexists].
    by exists M.
  - intros (HF & (T & HT & Hid) & Ex & HEx). destruct P as [PF Pi]. simpl in HF. subst PF.
    destruct (expansionStartingAt_Some_inv TB (mkSpelledPtr F Pi) File Ex HFile HEx)
      as (M & HM & HBS & _). simpl in HBS.
    exists M. split; [by rewrite HBS|].
    apply list_elem_of_In, filter_In. split; [by apply list_elem_of_In|].
    unfold begins_at_identifier. rewrite HBS.
    unfold deref in HT. simpl in HT. rewrite HFile in HT.
    apply at_index_Ok in HT. rewrite HT. by apply bool_decide_eq_true.
Qed.
End MacroExpansions.



(** ** Invariants along a run of build *)

Section BuildRun.
Context (E : Env) (DenseMap_order : gmap FileID MarkedFile → list FileID).

(** Every step of the Builder is a step of one file. *)
Lemma discard_file_step B Drain B' :
  discard E B Drain = Ok B' →
  NextExpanded B' = NextExpanded B ∧
  ∃ Target added NS',
    discard_Target E B Drain Target ∧
    file_step B B' (getFileID E Target) added NS' ∧
    Forall (flushed (discard_position B Drain)) added.
Proof.
  intros H. destruct (discard_spec E _ _ _ H)
    as (Target & added & NS' & HT & HNE & Hstep & Hfl & _).
  split; [done|]. by exists Target, added, NS'.
Qed.

Lemma advance_file_step B B' :
  advance E B = Ok B' →
  ∃ Tok added NS',
    ExpandedTokens (Result B) !! NextExpanded B = Some Tok ∧
    file_step B B' (file_of E Tok) added NS' ∧
    NextExpanded B ≤ NextExpanded B' ∧
    Forall (λ M, BeginExpanded M = NextExpanded B ∧
                 EndExpanded M = NextExpanded B' ∧
                 NextExpanded B < NextExpanded B') added.
Proof.
  intros H. destruct (advance_spec E _ _ H) as (Tok & HTok & Heff).
  exists Tok. unfold advance_effect in Heff. unfold file_of.
  destruct (isFileID (location Tok)).
  - destruct Heff as (K & HNE & Hstep). eexists [], _.
    split_and!; [done|done|lia|done].
  - destruct Heff as (_ & NS' & NE' & HNE & Hlt & _ & Hstep & _).
    eexists _, _. split_and!; [done|done|lia|].
    apply Forall_singleton. simpl. lia.
Qed.


(** The frame of build: a property that the steps keep holds of the
    builder that build leaves behind.  [I] is kept by the main loop, [J]
    by the loop that drains the files, which visits tracked files only. *)
Lemma build_induction (I J : Builder → Prop) (B : Builder) (TB : TokenBuffer) :
  visits_keys DenseMap_order →
  build E DenseMap_order B = Ok TB →
  (∀ B1, buildSpelledTokens E B = Ok B1 → I B1) →
  (∀ B1 B2, I B1 → discard E B1 None = Ok B2 → I B2) →
  (∀ B1 B2, I B1 → advance E B1 = Ok B2 → I B2) →
  (∀ B2, I B2 →
         ¬ NextExpanded B2 < length (ExpandedTokens (Result B2)) - 1 → J B2) →
  (∀ B2 B3 D, J B2 → is_Some (Files (Result B2) !! D) →
              discard E B2 (Some D) = Ok B3 → J B3) →
  ∃ B3, Result B3 = TB ∧ J B3.
Proof.
  intros Hvis H Hinit Hdiscard Hadvance Hexit Hdrain. unfold build in H.
  apply bind_Ok_inv in H as (_ & _ & H).
  apply bind_Ok_inv in H as (_ & _ & H).
  apply bind_Ok_inv in H as (B1 & H1 & H).
  apply bind_Ok_inv in H as (B2 & H2 & H).
  apply bind_Ok_inv in H as (B3 & H3 & H).
  injection H as <-. exists B3. split; [done|].
  assert (I B2 ∧ ¬ NextExpanded B2 < length (ExpandedTokens (Result B2)) - 1)
    as [HI2 Hstop].
  { specialize (Hinit B1 H1). clear H1 H3.
    revert H2 Hinit. generalize (length (ExpandedTokens (Result B1))) at 1.
    intros fuel. revert B1. induction fuel as [|fuel IH]; intros B1 H2 HI1; simpl in H2.
    - case_bool_decide; [done|]. by simplify_eq.
    - case_bool_decide; [|by simplify_eq].
      apply bind_Ok_inv in H2 as (Ba & Ha & H2).
      apply bind_Ok_inv in H2 as (Bb & Hb & H2).
      case_bool_decide; [done|].
      eapply IH; [done|]. eapply Hadvance; [|done]. by eapply Hdiscard. }
  specialize (Hexit B2 HI2 Hstop).
  assert (Forall (λ D, is_Some (Files (Result B2) !! D))
                 (DenseMap_order (Files (Result B2)))) as Hkeys.
  { apply Forall_forall. intros D HD. by apply Hvis. }
  clear H2 HI2 Hstop. revert H3 Hexit Hkeys.
  generalize (DenseMap_order (Files (Result B2))). intros Keys. revert B2.
  induction Keys as [|D Keys IH]; intros B2 H3 HJ Hkeys; simpl in H3.
  - by simplify_eq.
  - apply bind_Ok_inv in H3 as (Ba & Ha & H3).
    apply Forall_cons in Hkeys as [HD Hkeys].
    eapply IH; [done| |].
    + by eapply Hdrain.
    + eapply Forall_impl; [exact Hkeys|]. intros G HG. simpl in *.
      rewrite (discard_keys E _ _ _ G Ha). by left.
Qed.

(** The same without the assumption on the order of the range-for, for
    properties that every discard keeps. *)
Lemma build_induction_plain (I : Builder → Prop) (B : Builder) (TB : TokenBuffer) :
  build E DenseMap_order B = Ok TB →
  (∀ B1, buildSpelledTokens E B = Ok B1 → I B1) →
  (∀ B1 B2 Drain, I B1 → discard E B1 Drain = Ok B2 → I B2) →
  (∀ B1 B2, I B1 → advance E B1 = Ok B2 → I B2) →
  ∃ B3, Result B3 = TB ∧ I B3 ∧
        ¬ NextExpanded B3 < length (ExpandedTokens (Result B3)) - 1.
Proof.
  intros H Hinit Hdiscard Hadvance. unfold build in H.
  apply bind_Ok_inv in H as (_ & _ & H).
  apply bind_Ok_inv in H as (_ & _ & H).
  apply bind_Ok_inv in H as (B1 & H1 & H).
  apply bind_Ok_inv in H as (B2 & H2 & H).
  apply bind_Ok_inv in H as (B3 & H3 & H).
  injection H as <-. exists B3. split; [done|].
  assert (I B2 ∧ ¬ NextExpanded B2 < length (ExpandedTokens (Result B2)) - 1)
    as [HI2 Hstop].
  { specialize (Hinit B1 H1). clear H1 H3.
    revert H2 Hinit. generalize (length (ExpandedTokens (Result B1))) at 1.
    intros fuel. revert B1. induction fuel as [|fuel IH]; intros B1 H2 HI1; simpl in H2.
    - case_bool_decide; [done|]. by simplify_eq.
    - case_bool_decide; [|by simplify_eq].
      apply bind_Ok_inv in H2 as (Ba & Ha & H2).
      apply bind_Ok_inv in H2 as (Bb & Hb & H2).
      case_bool_decide; [done|].
      eapply IH; [done|]. eapply Hadvance; [|done]. by eapply Hdiscard. }
  clear H2. revert H3 HI2 Hstop.
  generalize (DenseMap_order (Files (Result B2))). intros Keys. revert B2.
  induction Keys as [|D Keys IH]; intros B2 H3 HI Hstop; simpl in H3.
  - by simplify_eq.
  - apply bind_Ok_inv in H3 as (Ba & Ha & H3).
    eapply IH; [done|by eapply Hdiscard|].
    destruct (discard_file_step _ _ _ Ha) as (-> & ? & ? & ? & _ & (-> & _) & _). done.
Qed.
End BuildRun.



(** ** What build stores for a file *)

Section BuiltFiles.
Context (E : Env) (DenseMap_order : gmap FileID MarkedFile → list FileID).

Lemma file_range_later Seen Tok G File :
  file_of E Tok ≠ G → file_range E Seen G File → file_range E (Seen ++ [Tok]) G File.
Proof.
  intros HG ((T0 & HT0 & HF0) & Hfirst & (i & T & HT & HF & HEnd & Hlast)).
  split_and!.
  - exists T0. split; [|done]. by apply lookup_app_l_Some.
  - intros j T' HT' HF'. apply lookup_app_Some in HT' as [HT'|[Hj HT']].
    + by eapply Hfirst.
    + apply list_lookup_singleton_Some in HT' as [_ <-]. done.
  - exists i, T. split_and!; [by apply lookup_app_l_Some|done|done|].
    intros j T' Hj HT'. apply lookup_app_Some in HT' as [HT'|[_ HT']].
    + by eapply Hlast.
    + apply list_lookup_singleton_Some in HT' as [_ <-]. done.
Qed.

Lemma buildSpelledTokens_from_files Toks : ∀ Seen Fs Fs',
  buildSpelledTokens_from E Toks (length Seen) Fs = Ok Fs' →
  prefix_files E Seen Fs →
  (∀ G, is_Some (Fs !! G) → ∃ T, T ∈ Seen ∧ file_of E T = G) →
  prefix_files E (Seen ++ Toks) Fs'.
Proof.
  induction Toks as [|Tok Toks IH]; intros Seen Fs Fs' H HI Hkeys; simpl in H.
  - rewrite app_nil_r. by simplify_eq.
  - apply bind_Ok_inv in H as (Fs1 & H1 & H).
    rewrite (cons_middle Tok), app_assoc.
    replace (S (length Seen)) with (length (Seen ++ [Tok])) in H
      by (rewrite length_app; simpl; lia).
    assert (∃ File1, Fs1 !! file_of E Tok = Some File1 ∧
              file_range E (Seen ++ [Tok]) (file_of E Tok) File1 ∧
              tokenize E (file_of E Tok) = Ok (SpelledTokens File1) ∧
              ∀ G, G ≠ file_of E Tok → Fs1 !! G = Fs !! G) as
      (File1 & HFile1 & Hrange1 & Hsrc1 & Hother).
    { fold (file_of E Tok) in H1.
      destruct (Fs !! file_of E Tok) as [File|] eqn:HFile.
      - injection H1 as <-. eexists. rewrite lookup_insert_eq.
        split; [done|].
        destruct (Hkeys (file_of E Tok) ltac:(by eexists)) as (T & HT & HTF).
        apply list_elem_of_lookup in HT as [i HT].
        destruct (HI i T HT) as (File' & HFile' & Hrange & Hsrc).
        rewrite HTF, HFile in HFile'. injection HFile' as <-. rewrite HTF in Hrange, Hsrc.
        destruct Hrange as ((T0 & HT0 & HF0) & Hfirst & _).
        split_and!; [|done|by intros G HG; rewrite lookup_insert_ne].
        split_and!; simpl.
        + exists T0. split; [|done]. by apply lookup_app_l_Some.
        + intros j T' HT' HF'. apply lookup_app_Some in HT' as [HT'|[Hj HT']].
          * by eapply Hfirst.
          * apply lookup_lt_Some in HT0. lia.
        + exists (length Seen), Tok. split_and!; [|done|done|].
          * rewrite lookup_app_r by lia. by rewrite Nat.sub_diag.
          * intros j T' Hj HT'. apply lookup_lt_Some in HT'.
            rewrite length_app in HT'. simpl in HT'. lia.
      - apply bind_Ok_inv in H1 as (Sp & HSp & H1). injection H1 as <-.
        eexists. rewrite lookup_insert_eq. split; [done|].
        assert (∀ j T', Seen !! j = Some T' → file_of E T' ≠ file_of E Tok) as Hnew.
        { intros j T' HT' HF'. destruct (HI j T' HT') as (File' & HFile' & _).
          rewrite HF', HFile in HFile'. done. }
        split_and!; [|done|by intros G HG; rewrite lookup_insert_ne].
        split_and!; simpl.
        + exists Tok. split; [|done].
          rewrite lookup_app_r by lia. by rewrite Nat.sub_diag.
        + intros j T' HT' HF'. apply lookup_app_Some in HT' as [HT'|[Hj HT']]; [|done].
          by destruct (Hnew j T' HT').
        + exists (length Seen), Tok. split_and!; [|done|done|].
          * rewrite lookup_app_r by lia. by rewrite Nat.sub_diag.
          * intros j T' Hj HT'. apply lookup_lt_Some in HT'.
            rewrite length_app in HT'. simpl in HT'. lia. }
    eapply IH; [done| |].
    + intros i T HT. apply lookup_app_Some in HT as [HT|[Hi HT]].
      * destruct (decide (file_of E T = file_of E Tok)) as [HF|HF].
        -- rewrite HF. by exists File1.
        -- destruct (HI i T HT) as (File & HFile & Hrange & Hsrc).
           exists File. rewrite Hother by done.
           split_and!; [done| |done]. by apply file_range_later.
      * apply list_lookup_singleton_Some in HT as [_ <-]. by exists File1.
    + intros G HG. destruct (decide (G = file_of E Tok)) as [->|HGne].
      * exists Tok. split; [|done]. apply elem_of_app. right. by left.
      * rewrite Hother in HG by done.
        destruct (Hkeys G HG) as (T & HT & HTF). exists T. split; [|done].
        apply elem_of_app. by left.
Qed.

Lemma files_inv_step B B' File added NS' :
  files_inv E B → file_step B B' File added NS' → files_inv E B'.
Proof.
  intros HI Hstep i T HT.
  destruct (file_step_static _ _ _ _ _ (file_of E T) Hstep) as (HEnd & HBegin & HSp).
  destruct Hstep as (HEx & _). rewrite HEx in *.
  destruct (HI i T HT) as [Hrange Hsrc]. rewrite HSp. split; [|done].
  unfold file_range in *. by rewrite HEnd, HBegin.
Qed.

Lemma build_files_inv B TB :
  Files (Result B) = ∅ →
  build E DenseMap_order B = Ok TB →
  ExpandedTokens TB = ExpandedTokens (Result B) ∧
  ∃ B', Result B' = TB ∧ files_inv E B' ∧ begins_inv E B'.
Proof.
  intros HFs H.
  destruct (build_induction_plain E DenseMap_order
              (λ B', ExpandedTokens (Result B') = ExpandedTokens (Result B) ∧
                     files_inv E B' ∧ begins_inv E B') B TB H)
    as (B3 & <- & (HEx & HI & Hb) & _).
  - intros B1 H1. unfold buildSpelledTokens in H1.
    apply bind_Ok_inv in H1 as (Fs1 & HFs1 & H1). injection H1 as <-. simpl.
    pose proof (buildSpelledTokens_from_files _ [] _ _ HFs1) as Hfiles.
    simpl in Hfiles.
    assert (prefix_files E (ExpandedTokens (Result B)) Fs1) as Hpre.
    { apply Hfiles.
      - intros i T HT. done.
      - intros G. rewrite HFs, lookup_empty. by intros [? ?]. }
    split_and!; [done| |].
    + intros i T HT. simpl in *. destruct (Hpre i T HT) as (File & HFile & ? & ?).
      by rewrite (Files_at_lookup _ _ _ HFile).
    + intros i T HT. simpl in *. destruct (Hpre i T HT) as (File & HFile & Hr & _).
      exists File. split; [done|]. destruct Hr as (_ & Hfirst & _). by eapply Hfirst.
  - intros B1 B2 Drain (HEx & HI & Hb) Hd.
    destruct (discard_file_step E _ _ _ Hd) as (_ & ? & ? & ? & _ & Hstep & _).
    split_and!.
    + destruct Hstep as (-> & _). done.
    + by eapply files_inv_step.
    + by eapply discard_begins_inv.
  - intros B1 B2 (HEx & HI & Hb) Ha.
    destruct (advance_file_step E _ _ Ha) as (? & ? & ? & _ & Hstep & _).
    split_and!.
    + destruct Hstep as (-> & _). done.
    + by eapply files_inv_step.
    + by eapply advance_begins_inv.
  - split; [done|]. by exists B3.
Qed.

(** X10: consume leaves the collected stream as the expanded tokens of the
    buffer.  The file to which an expanded token is accounted is tracked,
    and its spelled tokens are the raw tokens of the file, as tokenize
    returns them and as spelledTokens hands them out. *)
Theorem consume_stores_streams (Expanded_ : list Token)
    (Expansions_ : gmap N SourceLocation) (TB : TokenBuffer) :
  consume E DenseMap_order Expanded_ Expansions_ = Ok TB →
  ExpandedTokens TB = Expanded_ ∧
  ∀ Tok, Tok ∈ Expanded_ →
    ∃ File, Files TB !! file_of E Tok = Some File ∧
            tokenize E (file_of E Tok) = Ok (SpelledTokens File) ∧
            spelledTokens TB (file_of E Tok) = tokenize E (file_of E Tok).
Proof.
  intros H. unfold consume in H.
  destruct (build_files_inv (Builder_new Expanded_ Expansions_) TB eq_refl H) as (HEx & B' & <- & HI & Hb).
  simpl in HEx. split; [done|]. intros Tok HTok. rewrite <- HEx in HTok.
  apply list_elem_of_lookup in HTok as [i HTok].
  destruct (Hb i Tok HTok) as (File & HFile & _).
  destruct (HI i Tok HTok) as [_ Hsrc].
  rewrite (Files_at_lookup _ _ _ HFile) in Hsrc.
  exists File. split_and!; [done..|].
  unfold spelledTokens. by rewrite HFile.
Qed.

(** X11: the expanded range that consume stores for the file of an expanded
    token begins at the first expanded token of the file and ends behind
    its last one, the end-of-file token apart; it lies inside the
    expanded tokens, and every token of the file that is no end-of-file
    token lies inside it. *)
Theorem consume_file_ranges (Expanded_ : list Token)
    (Expansions_ : gmap N SourceLocation) (TB : TokenBuffer)
    (i : nat) (Tok : Token) :
  consume E DenseMap_order Expanded_ Expansions_ = Ok TB →
  Expanded_ !! i = Some Tok →
  ∃ File, Files TB !! file_of E Tok = Some File ∧
    file_range E Expanded_ (file_of E Tok) File ∧
    File_BeginExpanded File ≤ i ∧ i ≤ File_EndExpanded File ∧
    (kind Tok ≠ tok_eof → i < File_EndExpanded File) ∧
    File_EndExpanded File ≤ length Expanded_.
Proof.
  intros H HTok. unfold consume in H.
  destruct (build_files_inv (Builder_new Expanded_ Expansions_) TB eq_refl H) as (HEx & B' & <- & HI & Hb).
  simpl in HEx. rewrite <- HEx in *.
  destruct (Hb i Tok HTok) as (File & HFile & Hbegin).
  destruct (HI i Tok HTok) as [Hrange _].
  rewrite (Files_at_lookup _ _ _ HFile) in Hrange.
  exists File. split_and!; [done|done|done|..].
  - destruct Hrange as (_ & _ & (j & T & HT & HF & -> & Hlast)).
    destruct (decide (i ≤ j)) as [Hle|Hgt].
    + destruct (kind_is (kind T) tok_eof) eqn:Hk; [|lia].
      destruct (decide (i = j)) as [->|]; lia.
    + by destruct (Hlast i Tok ltac:(lia) HTok).
  - intros Hne. destruct Hrange as (_ & _ & (j & T & HT & HF & -> & Hlast)).
    destruct (decide (i ≤ j)) as [Hle|Hgt].
    + destruct (decide (i = j)) as [->|Hij].
      * rewrite HTok in HT. injection HT as <-.
        unfold kind_is. rewrite bool_decide_eq_false_2 by done. lia.
      * destruct (kind_is (kind T) tok_eof); lia.
    + by destruct (Hlast i Tok ltac:(lia) HTok).
  - destruct Hrange as (_ & _ & (j & T & HT & HF & -> & Hlast)).
    apply lookup_lt_Some in HT. destruct (kind_is (kind T) tok_eof); lia.
Qed.
End BuiltFiles.



(** ** The invariants of the Builder, together *)

Lemma lower_inv_step B B' File added NS' :
  lower_inv B →
  file_step B B' File added NS' →
  Forall (λ M, File_BeginExpanded (Files_at (Files (Result B)) File)
                 ≤ BeginExpanded M) added →
  lower_inv B'.
Proof.
  intros HI Hstep Hadd F.
  destruct (file_step_static _ _ _ _ _ F Hstep) as (_ & -> & _).
  destruct Hstep as (_ & _ & Hother & Hfile & _).
  destruct (decide (F = File)) as [->|HF].
  - rewrite Hfile. simpl. apply Forall_app. split; [apply HI|done].
  - destruct (Hother F HF) as [-> _]. apply HI.
Qed.

Section BuildBase.
Context (E : Env) (DenseMap_order : gmap FileID MarkedFile → list FileID).
Context (Expanded_ : list Token) (Expansions_ : gmap N SourceLocation).

Lemma base_init B1 :
  buildSpelledTokens E (Builder_new Expanded_ Expansions_) = Ok B1 →
  loop_base E Expanded_ Expansions_ B1 ∧ NextExpanded B1 = 0 ∧ NextSpelled B1 = ∅ ∧
  ∀ F, Mappings (Files_at (Files (Result B1)) F) = [].
Proof.
  intros H1.
  destruct (buildSpelledTokens_invs E (Builder_new Expanded_ Expansions_) _ eq_refl eq_refl H1)
    as (HEx & HCE & HNE & HNS & Hends & Hexp & Hkeys).
  simpl in HEx, HCE, HNS.
  unfold buildSpelledTokens in H1.
  apply bind_Ok_inv in H1 as (Fs1 & HFs1 & H1). injection H1 as <-. simpl in *.
  assert (∀ F, Mappings (Files_at Fs1 F) = []) as HMs.
  { intros F. by rewrite (buildSpelledTokens_from_Mappings E _ _ _ _ HFs1). }
  pose proof (buildSpelledTokens_from_files E _ [] _ _ HFs1) as Hfiles.
  simpl in Hfiles.
  assert (prefix_files E Expanded_ Fs1) as Hpre.
  { apply Hfiles; [by intros i T HT|].
    intros G. rewrite lookup_empty. by intros [? ?]. }
  split_and!; try done. unfold loop_base, base_inv. split_and!; try done.
  - intros i T HT. simpl in *. destruct (Hpre i T HT) as (File & HFile & Hr & _).
    exists File. split; [done|]. destruct Hr as (_ & Hfirst & _). by eapply Hfirst.
  - intros F. simpl. rewrite HMs.
    unfold NextSpelled_at at 1. rewrite lookup_empty. simpl.
    split_and!; [lia| |done|done].
    apply (buildSpelledTokens_from_source E _ _ _ _ HFs1).
    intros G. by left.
  - intros F. simpl. rewrite HMs. split; [|done]. simpl.
    unfold NextSpelled_at. rewrite lookup_empty. simpl. lia.
  - intros i T HT. simpl in *. destruct (Hpre i T HT) as (File & HFile & ? & ?).
    by rewrite (Files_at_lookup _ _ _ HFile).
  - intros F. simpl. by rewrite HMs.
Qed.

Lemma base_discard B1 B2 :
  loop_base E Expanded_ Expansions_ B1 → discard E B1 None = Ok B2 → loop_base E Expanded_ Expansions_ B2.
Proof.
  intros [(HEx & HCE & Hkeys & Hends & Hbegins & Hshape & Hsp & Hfiles & Hlow) Hexp] H.
  destruct (discard_expanded_inv E _ _ Hends Hexp H) as [Hends2 Hexp2].
  destruct (discard_file_step E _ _ _ H) as (HNE & T & added & NS' & HT & Hstep & Hfl).
  simpl in HT, Hfl. destruct HT as (Tok & HTok & ->).
  split; [|done].
  split_and!; try done.
  - destruct Hstep as (-> & _). done.
  - destruct Hstep as (_ & -> & _). done.
  - by eapply discard_keys_inv.
  - by eapply discard_begins_inv.
  - by eapply discard_shape_inv.
  - by eapply discard_spelled_inv.
  - by eapply files_inv_step.
  - eapply lower_inv_step; [done..|].
    eapply Forall_impl; [exact Hfl|]. intros M (-> & _).
    destruct (Hbegins _ _ HTok) as (File & HFile & Hle).
    fold (file_of E Tok). by rewrite (Files_at_lookup _ _ _ HFile).
Qed.

Lemma base_advance B1 B2 :
  eof_not_captured E Expanded_ Expansions_ →
  loop_base E Expanded_ Expansions_ B1 → advance E B1 = Ok B2 → loop_base E Expanded_ Expansions_ B2.
Proof.
  intros Heof
    [(HEx & HCE & Hkeys & Hends & Hbegins & Hshape & Hsp & Hfiles & Hlow) Hexp] H.
  rewrite <- HEx, <- HCE in Heof.
  destruct (advance_expanded_inv E _ _ Heof Hends Hexp H) as (Hends2 & Hexp2 & _).
  destruct (advance_file_step E _ _ H) as (Tok & added & NS' & HTok & Hstep & _ & Hadd).
  split; [|done].
  split_and!; try done.
  - destruct Hstep as (-> & _). done.
  - destruct Hstep as (_ & -> & _). done.
  - by eapply advance_keys_inv.
  - by eapply advance_begins_inv.
  - by eapply advance_shape_inv.
  - by eapply advance_spelled_inv.
  - by eapply files_inv_step.
  - eapply lower_inv_step; [done..|].
    eapply Forall_impl; [exact Hadd|]. intros M (-> & _).
    destruct (Hbegins _ _ HTok) as (File & HFile & Hle).
    by rewrite (Files_at_lookup _ _ _ HFile).
Qed.

Lemma base_drain B2 B3 D :
  drain_base E Expanded_ Expansions_ B2 →
  (∃ Tok, Tok ∈ Expanded_ ∧ file_of E Tok = D) →
  getFileID E (getLocForEndOfFile E D) = D →
  discard E B2 (Some D) = Ok B3 → drain_base E Expanded_ Expansions_ B3.
Proof.
  intros [(HEx & HCE & Hkeys & Hends & Hbegins & Hshape & Hsp & Hfiles & Hlow) Hdr]
    (Tok & HTok & HD) Hend H.
  destruct (discard_file_step E _ _ _ H) as (HNE & T & added & NS' & HT & Hstep & Hfl).
  simpl in HT, Hfl. subst T. rewrite Hend in Hstep.
  split; [|by eapply discard_drain_inv].
  assert (ExpandedTokens (Result B3) = ExpandedTokens (Result B2)) as HEx3
    by (by destruct Hstep as (-> & _)).
  split_and!.
  - by rewrite HEx3.
  - destruct Hstep as (_ & -> & _). done.
  - intros G. rewrite (discard_keys E _ _ _ G H), HEx3, (Hkeys G). split.
    + intros [?|[(T & HT & ->)|[= ->]]]; [done| |].
      * simpl in HT. subst T. rewrite Hend. exists Tok. by rewrite HEx.
      * exists Tok. by rewrite HEx.
    + by left.
  - by eapply ends_inv_step.
  - by eapply discard_begins_inv.
  - by eapply discard_shape_inv.
  - by eapply discard_spelled_inv.
  - by eapply files_inv_step.
  - eapply lower_inv_step; [done..|].
    eapply Forall_impl; [exact Hfl|]. intros M (-> & _).
    rewrite <- HEx in HTok. apply list_elem_of_lookup in HTok as [i HTok].
    destruct (Hbegins _ _ HTok) as (File & HFile & Hle).
    destruct (Hends _ _ HTok) as [Hle2 _].
    rewrite HD in *. rewrite (Files_at_lookup _ _ _ HFile) in *. lia.
Qed.

(** The frame of consume with the invariants at hand: [I] is to be kept
    by the steps of the main loop and [J] by the draining of a tracked
    file whose end lies in the file. *)
Lemma consume_induction (I J : Builder → Prop) (TB : TokenBuffer) :
  visits_keys DenseMap_order → end_in_file E Expanded_ →
  eof_not_captured E Expanded_ Expansions_ →
  consume E DenseMap_order Expanded_ Expansions_ = Ok TB →
  (∀ B1, buildSpelledTokens E (Builder_new Expanded_ Expansions_) = Ok B1 → I B1) →
  (∀ B1 B2, loop_base E Expanded_ Expansions_ B1 → I B1 → discard E B1 None = Ok B2 → I B2) →
  (∀ B1 B2, loop_base E Expanded_ Expansions_ B1 → I B1 → advance E B1 = Ok B2 → I B2) →
  (∀ B2, loop_base E Expanded_ Expansions_ B2 → I B2 →
         ¬ NextExpanded B2 < length (ExpandedTokens (Result B2)) - 1 → J B2) →
  (∀ B2 B3 D, drain_base E Expanded_ Expansions_ B2 → J B2 →
              (∃ Tok, Tok ∈ Expanded_ ∧ file_of E Tok = D) →
              getFileID E (getLocForEndOfFile E D) = D →
              discard E B2 (Some D) = Ok B3 → J B3) →
  ∃ B3, Result B3 = TB ∧ drain_base E Expanded_ Expansions_ B3 ∧ J B3.
Proof.
  intros Hvis Hend Heof H Hinit Hdiscard Hadvance Hexit Hdrain. unfold consume in H.
  destruct (build_induction E DenseMap_order
              (λ B, loop_base E Expanded_ Expansions_ B ∧ I B) (λ B, drain_base E Expanded_ Expansions_ B ∧ J B)
              (Builder_new Expanded_ Expansions_) TB Hvis H)
    as (B3 & <- & Hbase & HJ).
  - intros B1 H1. split; [by apply base_init|by apply Hinit].
  - intros B1 B2 [Hb HI] Hd. split; [by eapply base_discard|by eapply Hdiscard].
  - intros B1 B2 [Hb HI] Ha. split; [by eapply base_advance|by eapply Hadvance].
  - intros B2 [Hb HI] Hstop. split; [|by apply Hexit].
    destruct Hb as [Hb Hexp]. split; [done|]. by apply expanded_inv_drain_inv.
  - intros B2 B3 D [Hb HJ] HD Hd.
    assert (∃ Tok, Tok ∈ Expanded_ ∧ file_of E Tok = D) as HTok.
    { destruct Hb as [(HEx & _ & Hkeys & _) _]. rewrite <- HEx. by apply Hkeys. }
    assert (getFileID E (getLocForEndOfFile E D) = D) as HendD.
    { destruct HTok as (Tok & HTok & <-). by apply Hend. }
    split; [by eapply base_drain|by eapply Hdrain].
  - by exists B3.
Qed.

Lemma consume_base (TB : TokenBuffer) :
  visits_keys DenseMap_order → end_in_file E Expanded_ →
  eof_not_captured E Expanded_ Expansions_ →
  consume E DenseMap_order Expanded_ Expansions_ = Ok TB →
  ∃ B3, Result B3 = TB ∧ drain_base E Expanded_ Expansions_ B3.
Proof.
  intros Hvis Hend Heof H.
  destruct (consume_induction (λ _, True) (λ _, True) TB Hvis Hend Heof H)
    as (B3 & ? & ? & _); try done.
  by exists B3.
Qed.
End BuildBase.

Section BuiltBounds.
Context (E : Env) (DenseMap_order : gmap FileID MarkedFile → list FileID).

(** X12: when the range-for of build visits tracked files only and the end of
    every file that contributed tokens lies in that file, the files that
    consume tracks are exactly the files to which an expanded token is
    accounted: the draining of the files adds none. *)
Theorem consume_tracks_files (Expanded_ : list Token)
    (Expansions_ : gmap N SourceLocation) (TB : TokenBuffer) (F : FileID) :
  visits_keys DenseMap_order → end_in_file E Expanded_ →
  consume E DenseMap_order Expanded_ Expansions_ = Ok TB →
  is_Some (Files TB !! F) ↔ ∃ Tok, Tok ∈ Expanded_ ∧ file_of E Tok = F.
Proof.
  intros Hvis Hend H. unfold consume in H.
  destruct (build_induction E DenseMap_order
              (λ B, ExpandedTokens (Result B) = Expanded_ ∧ keys_inv E B)
              (λ B, ExpandedTokens (Result B) = Expanded_ ∧ keys_inv E B)
              (Builder_new Expanded_ Expansions_) TB Hvis H)
    as (B3 & <- & HEx & Hkeys).
  - intros B1 H1.
    by destruct (buildSpelledTokens_invs E (Builder_new Expanded_ Expansions_) _ eq_refl eq_refl H1)
      as (? & _ & _ & _ & _ & _ & ?).
  - intros B1 B2 [HEx Hkeys] Hd. split; [|by eapply discard_keys_inv].
    by destruct (discard_file_step E _ _ _ Hd) as (_ & ? & ? & ? & _ & (-> & _) & _).
  - intros B1 B2 [HEx Hkeys] Ha. split; [|by eapply advance_keys_inv].
    by destruct (advance_file_step E _ _ Ha) as (? & ? & ? & _ & (-> & _) & _).
  - done.
  - intros B2 B3 D [HEx Hkeys] HD Hd.
    assert (ExpandedTokens (Result B3) = ExpandedTokens (Result B2)) as HEx3.
    { by destruct (discard_file_step E _ _ _ Hd) as (_ & ? & ? & ? & _ & (-> & _) & _). }
    split; [by rewrite HEx3|].
    apply Hkeys in HD as (Tok & HTok & HD).
    intros G. rewrite (discard_keys E _ _ _ G Hd), HEx3, (Hkeys G). split.
    + intros [?|[(T & HT & ->)|[= ->]]]; [done| |by exists Tok].
      simpl in HT. subst T. exists Tok. split; [done|].
      rewrite <- HD. symmetry. apply Hend. by rewrite <- HEx.
    + by left.
  - rewrite <- HEx. apply Hkeys.
Qed.

(** X13: every mapping that consume stores lies inside its file on both
    sides: its spelled range inside the spelled tokens, its expanded range
    inside the expanded range of the file, which lies inside the expanded
    tokens.  This holds when the range-for of build visits tracked files
    only, the end of every file that contributed tokens lies in that file
    and no captured expansion starts at an end-of-file token. *)
Theorem consume_mappings_in_bounds (Expanded_ : list Token)
    (Expansions_ : gmap N SourceLocation) (TB : TokenBuffer)
    (F : FileID) (File : MarkedFile) (M : Mapping) :
  visits_keys DenseMap_order → end_in_file E Expanded_ →
  eof_not_captured E Expanded_ Expansions_ →
  consume E DenseMap_order Expanded_ Expansions_ = Ok TB →
  Files TB !! F = Some File →
  M ∈ Mappings File →
  BeginSpelled M ≤ EndSpelled M ∧
  EndSpelled M ≤ length (SpelledTokens File) ∧
  File_BeginExpanded File ≤ BeginExpanded M ∧
  BeginExpanded M ≤ EndExpanded M ∧
  EndExpanded M ≤ File_EndExpanded File ∧
  File_EndExpanded File ≤ length (ExpandedTokens TB).
Proof.
  intros Hvis Hend Heof H HFile HM.
  destruct (consume_base E DenseMap_order _ _ TB Hvis Hend Heof H)
    as (B3 & <- & (HEx & _ & Hkeys & _ & _ & Hshape & Hsp & Hfiles & Hlow) & Hdr).
  specialize (Hlow F). specialize (Hdr F).
  destruct (Hshape F) as (Hcur & _ & _ & Hes). destruct (Hsp F) as [Hch _].
  rewrite (Files_at_lookup _ _ _ HFile) in *.
  apply chain_Forall in Hch, Hdr.
  rewrite Forall_forall in Hlow, Hdr, Hch, Hes.
  specialize (Hlow M HM). specialize (Hdr M HM). specialize (Hch M HM).
  specialize (Hes M HM). simpl in *.
  split_and!; try lia.
  destruct (proj1 (Hkeys F) ltac:(by eexists)) as (Tok & HTok & HF).
  apply list_elem_of_lookup in HTok as [i HTok].
  destruct (Hfiles i Tok HTok) as [(_ & _ & (j & T & HT & _ & HEnd & _)) _].
  rewrite HF, (Files_at_lookup _ _ _ HFile) in HEnd. rewrite HEnd.
  apply lookup_lt_Some in HT. destruct (kind_is (kind T) tok_eof); lia.
Qed.
End BuiltBounds.



(** ** From an expanded token to the spelled token it was copied from *)

Lemma tiles_app lo Ms1 mid Ms2 hi :
  tiles lo Ms1 mid → tiles mid Ms2 hi → tiles lo (Ms1 ++ Ms2) hi.
Proof.
  revert lo. induction Ms1 as [|M Ms1 IH]; intros lo; simpl.
  - by intros ->.
  - intros [? ?] ?. split; [done|]. by apply IH.
Qed.

Lemma tiles_last lo Ms hi :
  tiles lo Ms hi →
  match last Ms with
  | Some M => EndSpelled M = hi
  | None => lo = hi
  end.
Proof.
  revert lo. induction Ms as [|M Ms IH]; intros lo; simpl; [done|].
  intros [_ H]. specialize (IH _ H). destruct Ms as [|M' Ms]; [done|].
  change (last (M :: M' :: Ms)) with (last (M' :: Ms)).
  destruct (last (M' :: Ms)) eqn:HL; [done|]. by apply last_None in HL.
Qed.

Lemma FlushMapping_tiles NS BE MB Ms MB' Ms' :
  FlushMapping NS BE MB Ms = (MB', Ms') →
  MB' = NS ∧ ∃ added, Ms' = Ms ++ added ∧ tiles MB added NS.
Proof.
  unfold FlushMapping. intros [= <- <-]. split; [done|].
  case_bool_decide as Hne.
  - eexists [_]. by split.
  - exists []. rewrite app_nil_r. split; [done|]. simpl.
    destruct (decide (MB = NS)); [done|]. by destruct Hne.
Qed.

Lemma discard_loop_tiles Target Exps Sp BE : ∀ fuel NS MB Ms NS' MB' Ms',
  discard_loop Target Exps Sp BE fuel NS MB Ms = Ok (NS', MB', Ms') →
  ∃ added, Ms' = Ms ++ added ∧ tiles MB added MB'.
Proof.
  induction fuel as [|fuel IH]; intros NS MB Ms NS' MB' Ms' H.
  - simpl in H. destruct (Sp !! NS) as [Tok|]; [|].
    + destruct (negb (location Tok <? Target)%N); [|done].
      simplify_eq. exists []. by rewrite app_nil_r.
    + simplify_eq. exists []. by rewrite app_nil_r.
  - cbn [discard_loop] in H. destruct (Sp !! NS) as [Tok|] eqn:HTok.
    2: { simplify_eq. exists []. by rewrite app_nil_r. }
    destruct (negb (location Tok <? Target)%N).
    { simplify_eq. exists []. by rewrite app_nil_r. }
    destruct (isValid (PPExpansions_lookup Exps (location Tok))).
    + destruct (FlushMapping NS BE MB Ms) as [MB1 Ms1] eqn:HF1.
      apply FlushMapping_tiles in HF1 as (-> & added1 & -> & Ht1).
      set (K := count_while _ (drop NS Sp)) in H.
      destruct (FlushMapping (NS + K) BE NS (Ms ++ added1)) as [MB2 Ms2] eqn:HF2.
      apply FlushMapping_tiles in HF2 as (-> & added2 & -> & Ht2).
      case_bool_decide; [done|].
      apply IH in H as (added3 & -> & Ht3).
      exists (added1 ++ added2 ++ added3). rewrite <- !app_assoc. split; [done|].
      eapply tiles_app; [done|]. by eapply tiles_app.
    + by apply IH in H.
Qed.

Lemma rightmost_with_app_none {A} (P : A → bool) (v w : list A) :
  Forall (λ x, P x = false) w → rightmost_with P (v ++ w) = rightmost_with P v.
Proof.
  intros Hw. induction v as [|x v IH]; simpl.
  - induction Hw as [|y w Hy Hw IH]; simpl; [done|]. by rewrite IH, Hy.
  - by rewrite IH.
Qed.

Lemma rightmost_with_snoc {A} (P : A → bool) (v : list A) x :
  P x = true → rightmost_with P (v ++ [x]) = Some x.
Proof.
  intros Hx. induction v as [|y v IH]; simpl; [by rewrite Hx|]. by rewrite IH.
Qed.

Lemma rightmost_with_all {A} (P : A → bool) (v : list A) :
  Forall (λ x, P x = true) v → rightmost_with P v = last v.
Proof.
  induction 1 as [|x v Hx Hv IH]; simpl; [done|].
  rewrite IH, Hx. destruct v as [|y v]; [done|].
  change (last (x :: y :: v)) with (last (y :: v)).
  destruct (last (y :: v)) eqn:HL; [done|]. by apply last_None in HL.
Qed.

Lemma count_lockstep_spec Sp Ex : ∀ i,
  i < count_lockstep Sp Ex →
  ∃ S_ T, Sp !! i = Some S_ ∧ Ex !! i = Some T ∧ location S_ = location T.
Proof.
  revert Ex. induction Sp as [|S_ Sp IH]; intros [|T Ex] i Hi; simpl in Hi; try lia.
  destruct (N.eqb_spec (location S_) (location T)) as [Heq|]; [|lia].
  destruct i as [|i]; simpl.
  - by exists S_, T.
  - apply IH. lia.
Qed.

Section Sync.
Context (E : Env).

Lemma tokenize_accounted F Toks T :
  lexer_accounts_to E F → tokenize E F = Ok Toks → T ∈ Toks → file_of E T = F.
Proof.
  intros Hlex H HT. unfold lexer_accounts_to in Hlex.
  apply Forall_app in Hlex as [Hlexed Hfinal].
  rewrite Forall_singleton in Hfinal.
  unfold tokenize in H. apply bind_Ok_inv in H as (Body & HBody & H).
  apply tokenize_loop_Ok in HBody. simpl in HBody.
  assert (∀ T, T ∈ Body → file_of E T = F) as HB.
  { intros T' HT'. rewrite HBody in HT'.
    apply list_elem_of_fmap in HT' as (CT & -> & HCT). unfold file_of. simpl.
    rewrite Forall_forall in Hlexed. by apply Hlexed. }
  destruct (negb (kind_is (getKind (Final (RawLexer E F))) tok_eof)).
  - apply AddToken_Ok in H as ->. apply elem_of_app in HT as [HT|HT]; [by apply HB|].
    apply list_elem_of_singleton in HT as ->. unfold file_of. simpl. done.
  - injection H as <-. by apply HB.
Qed.

(** discard, with the tiling of the spelled tokens it skips. *)
Lemma discard_tiles B Drain B' :
  discard E B Drain = Ok B' →
  ∃ Target added,
    discard_Target E B Drain Target ∧
    Mappings (Files_at (Files (Result B')) (getFileID E Target))
      = Mappings (Files_at (Files (Result B)) (getFileID E Target)) ++ added ∧
    tiles (NextSpelled_at (NextSpelled B) (getFileID E Target)) added
          (NextSpelled_at (NextSpelled B') (getFileID E Target)).
Proof.
  unfold discard. intros H.
  apply bind_Ok_inv in H as (Target & HTarget & H).
  set (File := getFileID E Target) in *.
  set (Fs := match Drain with
             | Some D => touch (touch (Files (Result B)) File) D
             | None => touch (Files (Result B)) File
             end) in *.
  assert (∀ G, Files_at Fs G = Files_at (Files (Result B)) G) as HFs.
  { intros G. unfold Fs. destruct Drain; by rewrite ?Files_at_touch. }
  apply bind_Ok_inv in H as ([[NS' MB] Ms] & Hloop & H).
  apply discard_loop_tiles in Hloop as (added & -> & Ht).
  destruct (FlushMapping NS' _ MB (Mappings (Files_at Fs File) ++ added))
    as [MB2 Ms2] eqn:HF.
  apply FlushMapping_tiles in HF as (-> & added2 & -> & Ht2).
  injection H as <-. exists Target, (added ++ added2). simpl.
  split_and!.
  - destruct Drain as [D|]; simpl in *.
    + by injection HTarget as <-.
    + apply bind_Ok_inv in HTarget as (Tok & HTok & HT).
      injection HT as <-. exists Tok. split; [|done]. by apply at_index_Ok.
  - rewrite Files_at_insert_eq. simpl. by rewrite HFs, app_assoc.
  - rewrite NextSpelled_at_insert_eq. by eapply tiles_app.
Qed.

(** advance over a run of file tokens: the tokens it passes are, one by
    one, at the locations of the spelled tokens it passes. *)
Lemma advance_lockstep B B' Tok :
  advance E B = Ok B' →
  ExpandedTokens (Result B) !! NextExpanded B = Some Tok →
  isFileID (location Tok) = true →
  ∃ K, NextExpanded B' = NextExpanded B + K ∧
       NextSpelled_at (NextSpelled B') (file_of E Tok)
         = NextSpelled_at (NextSpelled B) (file_of E Tok) + K ∧
       ∀ i, i < K →
         ∃ S_ T,
           SpelledTokens (Files_at (Files (Result B)) (file_of E Tok))
             !! (NextSpelled_at (NextSpelled B) (file_of E Tok) + i) = Some S_ ∧
           ExpandedTokens (Result B) !! (NextExpanded B + i) = Some T ∧
           location S_ = location T.
Proof.
  unfold advance. intros H HTok HisFile.
  rewrite (at_index_Some _ _ _ HTok) in H. cbn [mbind outcome_bind] in H.
  rewrite HisFile in H. injection H as <-. simpl.
  fold (file_of E Tok). rewrite Files_at_touch.
  eexists. split_and!; [done|by rewrite NextSpelled_at_insert_eq|].
  intros i Hi. apply count_lockstep_spec in Hi as (S_ & T & HS & HT & Hloc).
  rewrite lookup_drop in HS, HT. by exists S_, T.
Qed.
End Sync.



(** ** The spelled token of an expanded token outside the mappings *)

Lemma file_step_Files_at B B' File added NS' G :
  file_step B B' File added NS' →
  SpelledTokens (Files_at (Files (Result B')) G)
    = SpelledTokens (Files_at (Files (Result B)) G) ∧
  File_BeginExpanded (Files_at (Files (Result B')) G)
    = File_BeginExpanded (Files_at (Files (Result B)) G) ∧
  Mappings (Files_at (Files (Result B')) G)
    = Mappings (Files_at (Files (Result B)) G) ++ (if decide (G = File) then added else []) ∧
  (G ≠ File →
   NextSpelled_at (NextSpelled B') G = NextSpelled_at (NextSpelled B) G).
Proof.
  intros Hstep.
  destruct (file_step_static _ _ _ _ _ G Hstep) as (_ & HB & HS).
  destruct Hstep as (_ & _ & Hother & Hfile & _).
  split_and!; [done|done| |].
  - destruct (decide (G = File)) as [->|HG].
    + by rewrite Hfile.
    + destruct (Hother G HG) as [-> _]. by rewrite app_nil_r.
  - intros HG. by destruct (Hother G HG).
Qed.

Lemma run_start_step B B' File added NS' G j :
  file_step B B' File added NS' →
  G ≠ File ∨ Forall (λ M, j < BeginExpanded M) added →
  run_start (Files_at (Files (Result B')) G) j
    = run_start (Files_at (Files (Result B)) G) j.
Proof.
  intros Hstep Hadd.
  destruct (file_step_Files_at _ _ _ _ _ G Hstep) as (_ & HB & HM & _).
  unfold run_start, mapping_before. rewrite HM.
  rewrite rightmost_with_app_none.
  - unfold behind. by rewrite HB.
  - destruct (decide (G = File)) as [->|HG]; [|done].
    destruct Hadd as [?|Hadd]; [done|].
    eapply Forall_impl; [exact Hadd|]. intros M HMj. simpl in *.
    apply bool_decide_eq_false. lia.
Qed.

Section SyncInvariants.
Context (E : Env) (DenseMap_order : gmap FileID MarkedFile → list FileID).
Context (Expanded_ : list Token) (Expansions_ : gmap N SourceLocation).

Lemma synced_step B B' File added NS' j Tok :
  file_step B B' File added NS' →
  file_of E Tok ≠ File ∨ Forall (λ M, j < BeginExpanded M) added →
  synced E Expanded_ B j Tok → synced E Expanded_ B' j Tok.
Proof.
  intros Hstep Hadd Hs. unfold synced in *.
  rewrite (run_start_step _ _ _ _ _ _ j Hstep Hadd).
  by destruct (file_step_Files_at _ _ _ _ _ (file_of E Tok) Hstep) as (-> & _).
Qed.

Lemma cursor_init B1 :
  buildSpelledTokens E (Builder_new Expanded_ Expansions_) = Ok B1 →
  cursor_inv E Expanded_ B1.
Proof.
  intros H1. destruct (base_init E _ _ _ H1) as (_ & HNE & HNS & HMs).
  split_and!.
  - intros j Tok Hj. lia.
  - intros F File _ _. rewrite HNS, HNE. unfold NextSpelled_at.
    rewrite lookup_empty. simpl. unfold File, tail_start. rewrite HMs. simpl. lia.
  - intros F _. rewrite HNS. unfold NextSpelled_at. rewrite lookup_empty.
    split; [done|apply HMs].
Qed.

(** The tail of a file at a step of the file itself. *)
Lemma tail_start_le B F Tok :
  loop_base E Expanded_ Expansions_ B →
  Expanded_ !! NextExpanded B = Some Tok → file_of E Tok = F →
  (tail_start (Files_at (Files (Result B)) F)).1 ≤ NextExpanded B.
Proof.
  intros [(HEx & _ & _ & _ & Hbegins & _) Hexp] HTok HF.
  unfold tail_start.
  destruct (last (Mappings (Files_at (Files (Result B)) F))) as [M|] eqn:HL; simpl.
  - destruct (Hexp F) as [Hch _]. apply chain_Forall in Hch.
    rewrite Forall_forall in Hch.
    apply last_Some_elem_of in HL. specialize (Hch M HL). simpl in Hch. lia.
  - rewrite <- HEx in HTok. destruct (Hbegins _ _ HTok) as (File & HFile & Hle).
    rewrite HF in HFile. by rewrite (Files_at_lookup _ _ _ HFile).
Qed.

Lemma cursor_discard B1 B2 :
  loop_base E Expanded_ Expansions_ B1 → cursor_inv E Expanded_ B1 →
  discard E B1 None = Ok B2 → cursor_inv E Expanded_ B2.
Proof.
  intros Hbase (Hsync & Htail & Hun) H.
  destruct (discard_file_step E _ _ _ H) as (HNE & T & added & NS' & HT & Hstep & Hfl).
  destruct (discard_tiles E _ _ _ H) as (T' & added' & HT' & HMs' & Htiles).
  simpl in HT, HT', Hfl.
  destruct HT as (Tok & HTok & ->). destruct HT' as (Tok' & HTok' & ->).
  rewrite HTok in HTok'. injection HTok' as <-.
  fold (file_of E Tok) in *.
  destruct Hbase as [(HEx & _) _]. rewrite HEx in HTok.
  assert (added' = added) as ->.
  { destruct (file_step_Files_at _ _ _ _ _ (file_of E Tok) Hstep) as (_ & _ & HM & _).
    rewrite decide_True in HM by done. rewrite HM in HMs'.
    by apply app_inv_head in HMs'. }
  split_and!.
  - intros j Tok0 Hj HTok0 Hk. rewrite HNE in Hj.
    eapply synced_step; [done| |by apply Hsync].
    right. eapply Forall_impl; [exact Hfl|]. intros M (-> & _). done.
  - intros F File. rewrite HNE.
    destruct (file_step_Files_at _ _ _ _ _ F Hstep) as (_ & HB & HM & HNS).
    destruct (decide (F = file_of E Tok)) as [->|HF].
    + destruct added as [|M0 added0] eqn:Hadded.
      * simpl in Htiles. rewrite app_nil_r in HM.
        unfold File, tail_start. rewrite HM, <- Htiles.
        unfold behind. rewrite HB. apply Htail.
      * intros _ _. unfold File, tail_start. rewrite HM.
        rewrite last_app.
        pose proof (tiles_last _ _ _ Htiles) as Hlast.
        destruct (last (M0 :: added0)) as [M|] eqn:HL.
        2: { by apply last_None in HL. }
        simpl. apply last_Some_elem_of in HL.
        rewrite Forall_forall in Hfl. destruct (Hfl M HL) as (_ & -> & _).
        rewrite Hlast. lia.
    + unfold File, tail_start. rewrite HM, app_nil_r, HNS by done.
      unfold behind. rewrite HB. apply Htail.
  - intros F HF.
    destruct (decide (F = file_of E Tok)) as [->|HFne].
    + by destruct (HF (NextExpanded B2) Tok ltac:(lia) ltac:(by rewrite HNE)).
    + destruct (file_step_Files_at _ _ _ _ _ F Hstep) as (_ & _ & HM & HNS).
      rewrite decide_False in HM by done.
      rewrite HM, app_nil_r, HNS by done.
      apply Hun. by rewrite <- HNE.
Qed.

(** The tokens that advance passes are accounted to the file of the
    step. *)
Lemma advance_consumed B1 B2 Tok :
  lexers_account E Expanded_ →
  loop_base E Expanded_ Expansions_ B1 →
  advance E B1 = Ok B2 →
  Expanded_ !! NextExpanded B1 = Some Tok →
  NextExpanded B1 ≤ NextExpanded B2 ∧
  NextExpanded B2 ≤ length Expanded_ ∧
  ∀ k T, NextExpanded B1 ≤ k → k < NextExpanded B2 → Expanded_ !! k = Some T →
         file_of E T = file_of E Tok.
Proof.
  intros Hlex [(HEx & _ & _ & _ & _ & _ & _ & Hfiles & _) _] H HTok.
  rewrite <- HEx in HTok.
  destruct (isFileID (location Tok)) eqn:HisFile.
  - destruct (advance_lockstep E _ _ _ H HTok HisFile) as (K & HNE & _ & Hlock).
    rewrite HNE. split; [lia|]. split.
    + destruct K as [|K]; [apply lookup_lt_Some in HTok; rewrite <- HEx; lia|].
      destruct (Hlock K ltac:(lia)) as (_ & T & _ & HT & _).
      apply lookup_lt_Some in HT. rewrite <- HEx. lia.
    + intros k T Hk1 Hk2 HT.
      destruct (Hlock (k - NextExpanded B1) ltac:(lia)) as (S_ & T' & HS & HT' & Hloc).
      replace (NextExpanded B1 + (k - NextExpanded B1)) with k in HT' by lia.
      rewrite HEx, HT in HT'. injection HT' as <-.
      destruct (Hfiles _ _ HTok) as [_ Hsrc].
      assert (file_of E S_ = file_of E Tok) as HS_.
      { eapply tokenize_accounted; [|exact Hsrc|by eapply list_elem_of_lookup_2].
        apply Hlex. rewrite <- HEx. by eapply list_elem_of_lookup_2. }
      unfold file_of in *. by rewrite <- Hloc.
  - destruct (advance_spec E _ _ H) as (Tok' & HTok' & Heff).
    rewrite HTok in HTok'. injection HTok' as <-.
    unfold advance_effect in Heff. rewrite HisFile in Heff.
    destruct Heff as (_ & NS' & NE' & -> & Hlt & Hlen & _ & Hrun).
    split; [lia|]. split; [by rewrite <- HEx|].
    intros k T Hk1 Hk2 HT. unfold file_of. rewrite <- HEx in HT.
    by rewrite (Hrun k T Hk1 Hk2 HT).
Qed.

(** The tail of a file over a step of another file. *)
Lemma tail_other B1 F NE2 Tok :
  loop_base E Expanded_ Expansions_ B1 →
  tail_inv E Expanded_ B1 → untouched_inv E Expanded_ B1 →
  Expanded_ !! NextExpanded B1 = Some Tok → file_of E Tok ≠ F →
  NextExpanded B1 ≤ NE2 → NE2 ≤ length Expanded_ →
  (∀ k T, NextExpanded B1 ≤ k → k < NE2 → Expanded_ !! k = Some T →
          file_of E T = file_of E Tok) →
  (tail_start (Files_at (Files (Result B1)) F)).1 ≤ NE2 →
  run_of E Expanded_ F (tail_start (Files_at (Files (Result B1)) F)).1 NE2 →
  NextSpelled_at (NextSpelled B1) F
    = (tail_start (Files_at (Files (Result B1)) F)).2
      + (NE2 - (tail_start (Files_at (Files (Result B1)) F)).1).
Proof.
  intros [(HEx & _ & _ & _ & Hbegins & _) Hexp] Htail Hun HTok HF Hle Hlen Hcons He Hrun.
  destruct (decide (NE2 = NextExpanded B1)) as [->|Hne]; [by apply Htail|].
  set (e := (tail_start (Files_at (Files (Result B1)) F)).1) in *.
  destruct (decide (e ≤ NextExpanded B1)) as [He1|He1].
  { destruct HF. apply (Hrun (NextExpanded B1) Tok); [done|lia|done]. }
  destruct (decide (e < NE2)) as [He2|He2].
  { destruct (lookup_lt_is_Some_2 Expanded_ e) as [T HT]; [lia|].
    destruct HF. rewrite <- (Hcons e T); [|lia|done|done].
    apply (Hrun e T); [done|lia|done]. }
  assert (NextSpelled_at (NextSpelled B1) F = 0 ∧
          Mappings (Files_at (Files (Result B1)) F) = []) as [HNS HMs].
  { apply Hun. intros k T Hk HT HTF. rewrite <- HEx in HT.
    destruct (Hbegins _ _ HT) as (File & HFile & Hb). rewrite HTF in HFile.
    unfold e, tail_start in He1.
    destruct (last (Mappings (Files_at (Files (Result B1)) F))) as [M|] eqn:HL;
      simpl in He1.
    - destruct (Hexp F) as [Hch _]. apply chain_Forall in Hch.
      rewrite Forall_forall in Hch.
      apply last_Some_elem_of in HL. specialize (Hch M HL). simpl in Hch. lia.
    - rewrite (Files_at_lookup _ _ _ HFile) in He1. lia. }
  rewrite HNS. unfold e in *. unfold tail_start in *. rewrite HMs in *.
  simpl in *. lia.
Qed.

Lemma cursor_advance B1 B2 :
  lexers_account E Expanded_ →
  loop_base E Expanded_ Expansions_ B1 → cursor_inv E Expanded_ B1 →
  advance E B1 = Ok B2 → cursor_inv E Expanded_ B2.
Proof.
  intros Hlex Hbase (Hsync & Htail & Hun) H.
  destruct (advance_spec E _ _ H) as (Tok & HTok & Heff).
  pose proof Hbase as [(HEx & _ & _ & _ & _ & _ & _ & _ & _) Hexp].
  rewrite HEx in HTok.
  destruct (advance_consumed _ _ _ Hlex Hbase H HTok) as (Hmono & Hlen & Hcons).
  pose proof (tail_start_le _ _ _ Hbase HTok eq_refl) as Hele.
  assert (Forall (λ M, EndExpanded M ≤ NextExpanded B1)
                 (Mappings (Files_at (Files (Result B1)) (file_of E Tok)))) as Hends.
  { destruct (Hexp (file_of E Tok)) as [Hch _]. apply chain_Forall in Hch.
    eapply Forall_impl; [exact Hch|]. simpl. intros M ?. lia. }
  assert (Forall (λ M, BeginExpanded M ≤ EndExpanded M)
                 (Mappings (Files_at (Files (Result B1)) (file_of E Tok)))) as Hbe.
  { destruct (Hexp (file_of E Tok)) as [Hch _]. apply chain_Forall in Hch.
    eapply Forall_impl; [exact Hch|]. simpl. intros M ?. lia. }
  assert (∃ added NS', file_step B1 B2 (file_of E Tok) added NS' ∧
            ((isFileID (location Tok) = true ∧ added = []) ∨
             (isFileID (location Tok) = false ∧
              added = [mkMapping (NextSpelled_at (NextSpelled B1) (file_of E Tok)) NS'
                                 (NextExpanded B1) (NextExpanded B2)] ∧
              NextExpanded B1 < NextExpanded B2)))
    as (added & NS' & Hstep & Hcase).
  { unfold advance_effect in Heff. destruct (isFileID (location Tok)).
    - destruct Heff as (K & HNE & Hstep). eexists [], _. split; [done|]. by left.
    - destruct Heff as (_ & NS' & NE' & <- & Hlt & _ & Hstep & _).
      eexists _, _. split; [done|]. by right. }
  (* the files other than the one of the step *)
  assert (∀ F, F ≠ file_of E Tok →
            Files_at (Files (Result B2)) F = Files_at (Files (Result B1)) F ∧
            NextSpelled_at (NextSpelled B2) F = NextSpelled_at (NextSpelled B1) F)
    as Hother.
  { intros F HF. destruct Hstep as (_ & _ & Hother & _). by apply Hother. }
  destruct (file_step_Files_at _ _ _ _ _ (file_of E Tok) Hstep) as (HSp & HB & HM & _).
  rewrite decide_True in HM by done.
  split_and!.
  - (* sync *)
    intros j Tok0 Hj HTok0 Hk.
    destruct (decide (j < NextExpanded B1)) as [Hold|Hnew].
    { eapply synced_step; [exact Hstep| |by apply Hsync].
      right. destruct Hcase as [[_ ->]|(_ & -> & _)]; [done|].
      apply Forall_singleton. simpl. lia. }
    pose proof (Hcons j Tok0 ltac:(lia) Hj HTok0) as HF0.
    unfold synced. rewrite HF0. unfold run_start at 1 2 3 4, mapping_before. rewrite HM.
    destruct Hcase as [[HisFile ->]|(HisFile & -> & Hlt)].
    + rewrite app_nil_r.
      rewrite rightmost_with_all.
      2: { apply Forall_forall. intros M HM'. apply bool_decide_eq_true.
           pose proof (proj1 (Forall_forall _ _) Hends M HM').
           pose proof (proj1 (Forall_forall _ _) Hbe M HM'). simpl in *. lia. }
      replace (behind _ (Files_at (Files (Result B2)) (file_of E Tok)))
        with (tail_start (Files_at (Files (Result B1)) (file_of E Tok))).
      2: { unfold tail_start, behind. by rewrite HB. }
      intros Hle Hrun. rewrite HSp.
      destruct (advance_lockstep E _ _ _ H ltac:(by rewrite HEx) HisFile)
        as (K & HNE & _ & Hlock).
      destruct (Hlock (j - NextExpanded B1) ltac:(lia)) as (S_ & T & HS & HT & Hloc).
      replace (NextExpanded B1 + (j - NextExpanded B1)) with j in HT by lia.
      rewrite HEx, HTok0 in HT. injection HT as <-.
      exists S_. split; [|done]. rewrite <- HS. f_equal.
      rewrite (Htail (file_of E Tok)); [lia|done|].
      intros k T Hk1 Hk2. apply Hrun; lia.
    + rewrite rightmost_with_snoc by (apply bool_decide_eq_true; simpl; lia).
      simpl. intros Hle. lia.
  - (* tail *)
    intros F File2 Hle Hrun.
    destruct (decide (F = file_of E Tok)) as [->|HF].
    + unfold File2 in *. unfold tail_start in *. rewrite HM in *.
      destruct Hcase as [[HisFile ->]|(HisFile & -> & Hlt)].
      * rewrite app_nil_r in *. unfold behind in *. rewrite HB in *.
        destruct (advance_lockstep E _ _ _ H ltac:(by rewrite HEx) HisFile)
          as (K & HNE & HNS & _).
        rewrite HNS, HNE in *.
        fold (behind (last (Mappings (Files_at (Files (Result B1)) (file_of E Tok))))
                     (Files_at (Files (Result B1)) (file_of E Tok))) in *.
        fold (tail_start (Files_at (Files (Result B1)) (file_of E Tok))) in *.
        rewrite (Htail (file_of E Tok)); [lia|done|].
        intros k T Hk1 Hk2. apply Hrun; lia.
      * rewrite last_snoc. simpl.
        destruct Hstep as (_ & _ & _ & _ & -> & _). lia.
    + destruct (Hother F HF) as [HFs HNS]. unfold File2 in *. rewrite HFs, HNS in *.
      by eapply tail_other.
  - (* untouched *)
    intros F HF.
    destruct (decide (F = file_of E Tok)) as [->|HFne].
    + by destruct (HF (NextExpanded B1) Tok Hmono HTok).
    + destruct (Hother F HFne) as [-> ->]. apply Hun.
      intros k T Hk. apply HF. lia.
Qed.

Lemma sync_exit B2 Last :
  last Expanded_ = Some Last → kind Last = tok_eof →
  sync_inv E Expanded_ B2 →
  ¬ NextExpanded B2 < length Expanded_ - 1 →
  sync_all E Expanded_ B2.
Proof.
  intros HLast Heof Hsync Hstop j Tok HTok Hk. apply Hsync; [|done..].
  destruct (decide (j = length Expanded_ - 1)) as [->|Hne].
  - rewrite last_lookup in HLast.
    replace (Init.Nat.pred (length Expanded_)) with (length Expanded_ - 1) in HLast by lia.
    congruence.
  - apply lookup_lt_Some in HTok. lia.
Qed.

Lemma sync_drain B2 B3 D :
  drain_base E Expanded_ Expansions_ B2 → sync_all E Expanded_ B2 →
  getFileID E (getLocForEndOfFile E D) = D →
  discard E B2 (Some D) = Ok B3 → sync_all E Expanded_ B3.
Proof.
  intros [(HEx & _ & _ & Hends & _) _] Hsync HD H j Tok HTok Hk.
  destruct (discard_file_step E _ _ _ H) as (_ & T & added & NS' & HT & Hstep & Hfl).
  simpl in HT, Hfl. subst T. rewrite HD in Hstep.
  eapply synced_step; [exact Hstep| |by apply Hsync].
  destruct (decide (file_of E Tok = D)) as [<-|HF]; [right|by left].
  eapply Forall_impl; [exact Hfl|]. intros M (-> & _).
  rewrite <- HEx in HTok. by apply (Hends _ _ HTok).
Qed.
End SyncInvariants.

Section TokenRoundTrip.
Context (E : Env) (DenseMap_order : gmap FileID MarkedFile → list FileID).

Lemma consume_ends_in_eof Expanded_ Expansions_ TB :
  consume E DenseMap_order Expanded_ Expansions_ = Ok TB →
  ∃ Last, last Expanded_ = Some Last ∧ kind Last = tok_eof.
Proof.
  unfold consume, build. simpl. intros H.
  apply bind_Ok_inv in H as (_ & _ & H).
  apply bind_Ok_inv in H as (u & Hlast & _). apply assert_Ok_inv in Hlast.
  destruct (last Expanded_) as [Last|]; [|done].
  exists Last. split; [done|]. by apply bool_decide_eq_true in Hlast.
Qed.

Lemma consume_synced Expanded_ Expansions_ TB :
  visits_keys DenseMap_order → end_in_file E Expanded_ →
  eof_not_captured E Expanded_ Expansions_ →
  lexers_account E Expanded_ →
  consume E DenseMap_order Expanded_ Expansions_ = Ok TB →
  ∃ B3, Result B3 = TB ∧ drain_base E Expanded_ Expansions_ B3 ∧
        sync_all E Expanded_ B3.
Proof.
  intros Hvis Hend Heof Hlex H.
  destruct (consume_ends_in_eof _ _ _ H) as (Last & HLast & HLeof).
  apply (consume_induction E DenseMap_order Expanded_ Expansions_
           (cursor_inv E Expanded_) (sync_all E Expanded_) TB Hvis Hend Heof H).
  - apply cursor_init.
  - intros B1 B2 Hb HI Hd. by eapply cursor_discard.
  - intros B1 B2 Hb HI Ha. by eapply cursor_advance.
  - intros B2 [(HEx & _) _] (Hsync & _) Hstop. rewrite HEx in Hstop.
    by eapply sync_exit.
  - intros B2 B3 D Hb HJ _ HD Hd. by eapply sync_drain.
Qed.

Lemma spelledForExpandedToken_outside TB j Tok File :
  ExpandedTokens TB !! j = Some Tok →
  Files TB !! file_of E Tok = Some File →
  sorted_by BeginExpanded (Mappings File) →
  (Z.of_nat (length (ExpandedTokens TB)) < 2 ^ 32)%Z →
  (Z.of_nat (length (SpelledTokens File)) < 2 ^ 32)%Z →
  (run_start File j).1 ≤ j →
  (run_start File j).2 + (j - (run_start File j).1) < length (SpelledTokens File) →
  spelledForExpandedToken E TB j
    = Ok (mkSpelledPtr (file_of E Tok)
                       ((run_start File j).2 + (j - (run_start File j).1)),
          None).
Proof.
  intros HTok HFile Hsorted Hfit1 Hfit2 Hle Hs.
  pose proof (lookup_lt_Some _ _ _ HTok) as Hj.
  unfold spelledForExpandedToken.
  rewrite bool_decide_eq_true_2 by done.
  run_ok. rewrite (at_index_Some _ _ _ HTok). run_ok.
  fold (file_of E Tok). rewrite HFile.
  rewrite partition_point_count_while by (by apply sorted_by_prefix_closed_le).
  unfold run_start, mapping_before in *.
  rewrite rightmost_with_count_while in * by (by apply sorted_by_prefix_closed_le).
  destruct (count_while _ (Mappings File)) as [|k] eqn:Hcount.
  - rewrite bool_decide_eq_true_2 by done. simpl in *.
    rewrite usub_small by lia. done.
  - rewrite bool_decide_eq_false_2 by done.
    replace (S k - 1) with k by lia.
    destruct (lookup_lt_is_Some_2 (Mappings File) k) as [M HM].
    { pose proof (count_while_le (λ M, bool_decide (BeginExpanded M ≤ j))
                    (Mappings File)). lia. }
    rewrite HM in *. rewrite (at_index_Some _ _ _ HM). run_ok. simpl in *.
    rewrite bool_decide_eq_false_2 by lia.
    rewrite usub_small by lia. rewrite uadd_small by lia. done.
Qed.

(** X14: an expanded token of a built buffer that is no end-of-file token
    and lies outside the mappings of its file resolves to a spelled token
    at its own location: spelledForExpandedToken returns, without a
    mapping, the spelled token as many places behind the last mapping
    before the token (or behind the begin of the file) as the expanded
    token is.  The token ends a run of tokens of its file which begins
    behind that mapping, and the sizes fit the 32-bit indices.  Assumed of
    the collaborators: the range-for of build visits tracked files only,
    the end of every file that contributed tokens lies in that file, no
    captured expansion starts at an end-of-file token, and the raw lexer
    of every file delivers locations that are accounted to that file. *)
Theorem spelledForExpandedToken_same_location (Expanded_ : list Token)
    (Expansions_ : gmap N SourceLocation) (TB : TokenBuffer)
    (j : nat) (Tok : Token) (File : MarkedFile) :
  visits_keys DenseMap_order → end_in_file E Expanded_ →
  eof_not_captured E Expanded_ Expansions_ →
  lexers_account E Expanded_ →
  consume E DenseMap_order Expanded_ Expansions_ = Ok TB →
  Expanded_ !! j = Some Tok → kind Tok ≠ tok_eof →
  Files TB !! file_of E Tok = Some File →
  (Z.of_nat (length Expanded_) < 2 ^ 32)%Z →
  (Z.of_nat (length (SpelledTokens File)) < 2 ^ 32)%Z →
  (run_start File j).1 ≤ j →
  run_of E Expanded_ (file_of E Tok) (run_start File j).1 (S j) →
  ∃ P T',
    spelledForExpandedToken E TB j = Ok (P, None) ∧
    P = mkSpelledPtr (file_of E Tok)
                     ((run_start File j).2 + (j - (run_start File j).1)) ∧
    deref TB P = Ok T' ∧
    location T' = location Tok.
Proof.
  intros Hvis Hend Heof Hlex H HTok Hk HFile Hfit1 Hfit2 Hle Hrun.
  destruct (consume_synced _ _ _ Hvis Hend Heof Hlex H)
    as (B3 & <- & [(HEx & _) Hdr] & Hsync).
  specialize (Hsync j Tok HTok Hk). unfold synced in Hsync.
  rewrite (Files_at_lookup _ _ _ HFile) in Hsync.
  destruct (Hsync Hle Hrun) as (T' & HT' & Hloc).
  specialize (Hdr (file_of E Tok)). rewrite (Files_at_lookup _ _ _ HFile) in Hdr.
  apply chain_sorted_b in Hdr.
  rewrite <- HEx in HTok, Hfit1.
  eexists _, T'. split_and!; [|done| |done].
  - apply spelledForExpandedToken_outside; try done.
    by eapply lookup_lt_Some.
  - unfold deref. simpl. rewrite HFile. by apply at_index_Some.
Qed.
End TokenRoundTrip.



(** ** How consume can fail *)

Section Faults.
Context (E : Env) (DenseMap_order : gmap FileID MarkedFile → list FileID).

Lemma tokenize_fault F f : tokenize E F = Fault f → f = AssertionFailure.
Proof.
  assert (∀ Tokens T, AddToken E Tokens T = Fault f → f = AssertionFailure) as HAdd.
  { intros Tokens T. unfold AddToken, Token_of_clang, Token_new.
    destruct (kind_is _ _ && _ && _); simpl;
      destruct (isValid _); simpl; try (by intros [= <-]);
      match goal with |- context [assert ?b] => destruct b end; simpl;
      try done; by intros [= <-]. }
  assert (∀ run Tokens, tokenize_loop E run Tokens = Fault f → f = AssertionFailure)
    as Hloop.
  { induction run as [|T run IH]; intros Tokens; simpl; [done|].
    intros H. apply bind_Fault_inv in H as [H|(? & _ & H)].
    - by apply HAdd in H.
    - by apply IH in H. }
  unfold tokenize. intros H.
  apply bind_Fault_inv in H as [H|(? & _ & H)].
  - by apply Hloop in H.
  - destruct (negb _); [by apply HAdd in H|done].
Qed.

Lemma buildSpelledTokens_from_fault Toks f : ∀ I Fs,
  buildSpelledTokens_from E Toks I Fs = Fault f → f = AssertionFailure.
Proof.
  induction Toks as [|Tok Toks IH]; intros I Fs; simpl; [done|].
  intros H. apply bind_Fault_inv in H as [H|(? & _ & H)].
  - destruct (Fs !! _); [done|].
    apply bind_Fault_inv in H as [H|(? & _ & H)]; [|done].
    by apply tokenize_fault in H.
  - by apply IH in H.
Qed.

Lemma discard_loop_fault Target Exps Sp BE f : ∀ fuel NS MB Ms,
  discard_loop Target Exps Sp BE fuel NS MB Ms = Fault f →
  f = OutOfFuel ∨ (f = Diverges ∧ ¬ ends_after_begins Exps).
Proof.
  induction fuel as [|fuel IH]; intros NS MB Ms H.
  - simpl in H. destruct (Sp !! NS) as [Tok|]; [|done].
    destruct (negb (location Tok <? Target)%N); [done|].
    injection H as <-. by left.
  - cbn [discard_loop] in H. destruct (Sp !! NS) as [Tok|] eqn:HTok; [|done].
    destruct (negb (location Tok <? Target)%N); [done|].
    destruct (isValid (PPExpansions_lookup Exps (location Tok))) eqn:HV.
    + unfold FlushMapping in H.
      case_bool_decide as Hstuck; [|by eapply IH].
      injection H as <-. right. split; [done|]. intros Hends.
      unfold PPExpansions_lookup in *.
      match type of HV with context [default _ ?m] =>
        destruct m as [V|] eqn:HK end; simpl in *; [|by vm_compute in HV].
      pose proof (Hends _ _ HK HV) as Hle.
      assert (0 < count_while (λ T : Token, (location T <=? V)%N) (drop NS Sp)); [|lia].
      eapply count_while_drop_pos; [done|]. simpl. by apply N.leb_le.
    + by eapply IH.
Qed.

Lemma discard_fault B Drain f :
  (Drain = None → NextExpanded B < length (ExpandedTokens (Result B))) →
  discard E B Drain = Fault f →
  f = OutOfFuel ∨ (f = Diverges ∧ ¬ ends_after_begins (CollectedExpansions B)).
Proof.
  intros Hin. unfold discard. intros H.
  apply bind_Fault_inv in H as [H|(Target & _ & H)].
  { destruct Drain; [done|]. simpl in H.
    apply bind_Fault_inv in H as [H|(? & _ & ?)]; [|done].
    destruct (lookup_lt_is_Some_2 _ _ (Hin eq_refl)) as [Tok HTok].
    by rewrite (at_index_Some _ _ _ HTok) in H. }
  apply bind_Fault_inv in H as [H|([[? ?] ?] & _ & H)].
  - by apply discard_loop_fault in H.
  - unfold FlushMapping in H. done.
Qed.

Lemma advance_fault B f :
  NextExpanded B < length (ExpandedTokens (Result B)) →
  advance E B = Fault f → f = AssertionFailure.
Proof.
  intros Hin. unfold advance. intros H.
  destruct (lookup_lt_is_Some_2 _ _ Hin) as [Tok HTok].
  rewrite (at_index_Some _ _ _ HTok) in H. cbn [mbind outcome_bind] in H.
  destruct (isFileID (location Tok)); [done|].
  apply bind_Fault_inv in H as [H|(? & _ & ?)]; [|done].
  unfold assert in H. destruct (isValid _); [done|]. by injection H as <-.
Qed.

Lemma build_loop_fault fuel f : ∀ B,
  build_loop E fuel B = Fault f →
  f = OutOfFuel ∨ consume_fault (CollectedExpansions B) f.
Proof.
  induction fuel as [|fuel IH]; intros B; simpl.
  - case_bool_decide; [|done]. intros [= <-]. by left.
  - case_bool_decide as Hlt; [|done]. intros H.
    apply bind_Fault_inv in H as [H|(B1 & H1 & H)].
    { apply discard_fault in H as [->|?]; [by left| |intros _; lia].
      right. by right; right. }
    pose proof (discard_spec E _ _ _ H1) as (? & ? & ? & _ & HNE & (HEx & HCE & _) & _).
    apply bind_Fault_inv in H as [H|(B2 & H2 & H)].
    { apply advance_fault in H as ->; [|rewrite HNE, HEx; lia].
      right. by left. }
    case_bool_decide as Hstuck; [injection H as <-; right; right; by left|].
    apply IH in H.
    pose proof (advance_spec E _ _ H2) as (Tok & _ & Heff).
    assert (CollectedExpansions B2 = CollectedExpansions B1) as HCE2.
    { unfold advance_effect in Heff. destruct (isFileID (location Tok)).
      - by destruct Heff as (? & _ & (? & ? & _)).
      - by destruct Heff as (_ & ? & ? & _ & _ & _ & (? & ? & _) & _). }
    by rewrite HCE2, HCE in H.
Qed.

Lemma drain_fault Keys f : ∀ B,
  drain E B Keys = Fault f →
  f = OutOfFuel ∨ consume_fault (CollectedExpansions B) f.
Proof.
  induction Keys as [|D Keys IH]; intros B; simpl; [done|].
  intros H. apply bind_Fault_inv in H as [H|(B1 & H1 & H)].
  - apply discard_fault in H as [->|?]; [by left| |done].
    right. by right; right.
  - apply IH in H.
    pose proof (discard_spec E _ _ _ H1) as (? & ? & ? & _ & _ & (_ & HCE & _) & _).
    by rewrite HCE in H.
Qed.

(** X15: when consume does not return a buffer it has failed an assertion or
    reached the llvm_unreachable of diagnoseAdvanceFailure; or, but only
    when some captured expansion ends before the location it starts at,
    discard is caught in its loop.  The Builder never reads outside its
    vectors and, that case apart, all of its loops come to an end. *)
Theorem consume_faults (Expanded_ : list Token)
    (Expansions_ : gmap N SourceLocation) (f : fault) :
  consume E DenseMap_order Expanded_ Expansions_ = Fault f →
  consume_fault Expansions_ f.
Proof.
  intros H.
  assert (f ≠ OutOfFuel) as Hfuel.
  { intros ->. by apply build_fuel in H. }
  unfold consume, build in H. simpl in H.
  apply bind_Fault_inv in H as [H|(? & Hne & H)].
  { unfold assert in H. destruct (negb _); [done|]. injection H as <-. by left. }
  apply bind_Fault_inv in H as [H|(? & _ & H)].
  { unfold assert in H. left.
    destruct (last _) as [Tok|]; [destruct (kind_is _ _)|]; by simplify_eq. }
  apply bind_Fault_inv in H as [H|(B1 & H1 & H)].
  { unfold buildSpelledTokens in H.
    apply bind_Fault_inv in H as [H|(? & _ & H)]; [|done].
    apply buildSpelledTokens_from_fault in H as ->. by left. }
  assert (CollectedExpansions B1 = Expansions_) as HCE1.
  { unfold buildSpelledTokens in H1.
    apply bind_Ok_inv in H1 as (Fs1 & _ & H1). by injection H1 as <-. }
  apply bind_Fault_inv in H as [H|(B2 & H2 & H)].
  { apply build_loop_fault in H as [->|H]; [done|]. by rewrite HCE1 in H. }
  apply bind_Fault_inv in H as [H|(? & _ & H)]; [|done].
  apply drain_fault in H as [->|H]; [done|].
  destruct (build_loop_static E _ _ _ H2) as [_ HCE2].
  by rewrite HCE2, HCE1 in H.
Qed.
End Faults.



(** ** The progress of advance *)

Lemma count_lockstep_pos Sp Ex :
  0 < count_lockstep Sp Ex ↔
  ∃ S_ T, Sp !! 0 = Some S_ ∧ Ex !! 0 = Some T ∧ location S_ = location T.
Proof.
  destruct Sp as [|S_ Sp], Ex as [|T Ex]; simpl.
  - split; [lia|]. by intros (? & ? & ? & _).
  - split; [lia|]. by intros (? & ? & ? & _).
  - split; [lia|]. by intros (? & ? & _ & ? & _).
  - destruct (N.eqb_spec (location S_) (location T)) as [Heq|Hne].
    + split; [|lia]. intros _. by exists S_, T.
    + split; [lia|]. intros (? & ? & [= <-] & [= <-] & ?). done.
Qed.

Section Progress.
Context (E : Env).

(** X16: advance never moves NextExpanded back.  It leaves it where it is
    exactly when the token at the cursor is a file token and the spelled
    token at the cursor of its file is missing or at another location:
    the case in which build calls diagnoseAdvanceFailure.  At a macro
    token it moves on when the expansion of the token was captured, and
    fails its assertion when it was not; it does not fail otherwise. *)
Theorem advance_progress (B : Builder) (Tok : Token) :
  ExpandedTokens (Result B) !! NextExpanded B = Some Tok →
  match advance E B with
  | Ok B' =>
      NextExpanded B ≤ NextExpanded B' ∧
      (NextExpanded B' = NextExpanded B ↔
       isFileID (location Tok) = true ∧
       ∀ S_, SpelledTokens (Files_at (Files (Result B)) (file_of E Tok))
               !! NextSpelled_at (NextSpelled B) (file_of E Tok) = Some S_ →
             location S_ ≠ location Tok) ∧
      (isFileID (location Tok) = false →
       isValid (PPExpansions_lookup (CollectedExpansions B)
                  (getExpansionLoc E (location Tok))) = true)
  | Fault f =>
      f = AssertionFailure ∧ isFileID (location Tok) = false ∧
      isValid (PPExpansions_lookup (CollectedExpansions B)
                 (getExpansionLoc E (location Tok))) = false
  end.
Proof.
  intros HTok. unfold advance.
  rewrite (at_index_Some _ _ _ HTok). cbn [mbind outcome_bind].
  fold (file_of E Tok). rewrite Files_at_touch.
  destruct (isFileID (location Tok)) eqn:HisFile.
  - simpl. split; [lia|].
    set (K := count_lockstep _ _).
    assert (0 < K ↔
            ∃ S_, SpelledTokens (Files_at (Files (Result B)) (file_of E Tok))
                    !! NextSpelled_at (NextSpelled B) (file_of E Tok) = Some S_ ∧
                  location S_ = location Tok) as HK.
    { unfold K. rewrite count_lockstep_pos, !lookup_drop, !Nat.add_0_r, HTok. split.
      - intros (S_ & T & HS & [= <-] & Hloc). by exists S_.
      - intros (S_ & HS & Hloc). by exists S_, Tok. }
    split; [split|done].
    + intros HNE. split; [done|]. intros S_ HS Hloc.
      assert (0 < K) by (apply HK; by exists S_). lia.
    + intros [_ Hno]. destruct (decide (0 < K)) as [Hpos|]; [|lia].
      apply HK in Hpos as (S_ & HS & Hloc). by destruct (Hno S_ HS).
  - destruct (isValid (PPExpansions_lookup (CollectedExpansions B)
                         (getExpansionLoc E (location Tok)))) eqn:HV; simpl; [|done].
    set (K := count_while _ (drop (NextExpanded B) _)).
    assert (0 < K).
    { unfold K. eapply count_while_drop_pos; [done|]. apply N.eqb_refl. }
    split; [lia|]. split; [|done]. split; [lia|]. by intros [? _].
Qed.
End Progress.

(** ** Ranges that cut a mapping, and the round trip of an expansion *)

Section Cuts.
Context (E : Env) (DenseMap_order : gmap FileID MarkedFile → list FileID).

Lemma consume_mapping_facts Expanded_ Expansions_ TB F File :
  visits_keys DenseMap_order → end_in_file E Expanded_ →
  eof_not_captured E Expanded_ Expansions_ →
  consume E DenseMap_order Expanded_ Expansions_ = Ok TB →
  Files TB !! F = Some File →
  chain BeginExpanded EndExpanded 0 (Mappings File) (File_EndExpanded File) ∧
  Forall (covers E (ExpandedTokens TB) F) (Mappings File) ∧
  (SpelledTokens File = [] ∨ tokenize E F = Ok (SpelledTokens File)).
Proof.
  intros Hvis Hend Heof H HFile.
  destruct (consume_base E DenseMap_order _ _ TB Hvis Hend Heof H)
    as (B3 & <- & (HEx & _ & _ & _ & _ & Hshape & _) & Hdr).
  specialize (Hdr F). destruct (Hshape F) as (_ & Hsrc & Hcov & _).
  by rewrite (Files_at_lookup _ _ _ HFile) in *.
Qed.

(** X17: spelledForExpanded does not cut a macro expansion: for a range of
    expanded tokens of a built buffer that begins behind the first and
    before the last expanded token of a mapping, or ends so, it returns
    no spelled range.  (Assumed: the range-for of build visits tracked
    files only, the end of every file that contributed tokens lies in
    that file, no captured expansion starts at an end-of-file token.) *)
Theorem spelledForExpanded_refuses_cut (Expanded_ : list Token)
    (Expansions_ : gmap N SourceLocation) (TB : TokenBuffer)
    (F : FileID) (File : MarkedFile) (M : Mapping) (R : ExpandedRef)
    (S_ : SpelledRef) :
  visits_keys DenseMap_order → end_in_file E Expanded_ →
  eof_not_captured E Expanded_ Expansions_ →
  consume E DenseMap_order Expanded_ Expansions_ = Ok TB →
  Files TB !! F = Some File →
  M ∈ Mappings File →
  0 < Length R →
  (BeginExpanded M < Data R ∧ Data R < EndExpanded M) ∨
  (BeginExpanded M < Data R + Length R ∧ Data R + Length R < EndExpanded M) →
  spelledForExpanded E TB R ≠ Ok (Some S_).
Proof.
  intros Hvis Hend Heof H HFile HM Hlen Hcut.
  destruct (consume_mapping_facts _ _ _ _ _ Hvis Hend Heof H HFile)
    as (Hch & Hcov & _).
  rewrite Forall_forall in Hcov. specialize (Hcov M HM).
  unfold spelledForExpanded. rewrite bool_decide_eq_false_2 by lia.
  destruct Hcut as [[Hb He]|[Hb He]].
  - rewrite (spelledForExpandedToken_in_mapping E TB F File M (Data R)
               _ _ HFile Hch HM Hcov) by lia.
    run_ok.
    destruct (spelledForExpandedToken E TB (Data R + Length R - 1))
      as [[LastSpelled LastMapping]|]; [|by cbn]. run_ok.
    destruct (deref TB (mkSpelledPtr F (BeginSpelled M))) as [BeginTok|]; [|by cbn].
    run_ok.
    destruct (deref TB LastSpelled) as [LastTok|]; [|by cbn]. run_ok.
    case_bool_decide; [done|].
    destruct (Files TB !! getFileID E (location BeginTok)); [|by cbn].
    by rewrite bool_decide_eq_true_2 by lia.
  - destruct (spelledForExpandedToken E TB (Data R))
      as [[BeginSpelled_ BeginMapping]|]; [|by cbn]. run_ok.
    rewrite (spelledForExpandedToken_in_mapping E TB F File M
               (Data R + Length R - 1) _ _ HFile Hch HM Hcov) by lia.
    run_ok.
    destruct (deref TB BeginSpelled_) as [BeginTok|]; [|by cbn]. run_ok.
    destruct (deref TB (mkSpelledPtr F (BeginSpelled M))) as [LastTok|]; [|by cbn].
    run_ok.
    case_bool_decide; [done|].
    destruct (Files TB !! getFileID E (location BeginTok)); [|by cbn].
    destruct BeginMapping as [BM|]; [case_bool_decide; [done|]|];
      by rewrite bool_decide_eq_true_2 by lia.
Qed.

(** X18: the two queries fit together: when expansionStartingAt finds an
    expansion at a spelled token of a built buffer and the expansion has
    expanded tokens, spelledForExpanded of these expanded tokens returns
    the spelled tokens of the expansion.  (Assumed: the range-for of
    build visits tracked files only, the end of every file that
    contributed tokens lies in that file, no captured expansion starts at
    an end-of-file token, and the raw lexer of the file of the spelled
    token delivers locations of that file.) *)
Theorem expansion_round_trip (Expanded_ : list Token)
    (Expansions_ : gmap N SourceLocation) (TB : TokenBuffer)
    (P : SpelledPtr) (Ex : Expansion) :
  visits_keys DenseMap_order → end_in_file E Expanded_ →
  eof_not_captured E Expanded_ Expansions_ →
  lexer_in_file E (ptr_file P) →
  consume E DenseMap_order Expanded_ Expansions_ = Ok TB →
  expansionStartingAt E TB P = Ok (Some Ex) →
  range_begin (Expanded Ex) < range_end (Expanded Ex) →
  spelledForExpanded E TB
      (mkExpandedRef (range_begin (Expanded Ex))
                     (range_end (Expanded Ex) - range_begin (Expanded Ex)))
    = Ok (Some (Spelled Ex)).
Proof.
  intros Hvis Hend Heof Hlex H HEx Hne.
  assert (∃ File Tok, Files TB !! ptr_file P = Some File ∧
                      SpelledTokens File !! ptr_index P = Some Tok)
    as (File & Tok & HFile & HTok).
  { unfold expansionStartingAt in HEx.
    destruct (deref TB P) as [Tok|] eqn:Hd; [|done].
    unfold deref in Hd. destruct (Files TB !! ptr_file P) as [File|]; [|done].
    apply at_index_Ok in Hd. by exists File, Tok. }
  destruct (expansionStartingAt_Some_inv E TB P File Ex HFile HEx)
    as (M & HM & HBS & HSp & HExp).
  destruct (consume_mapping_facts _ _ _ _ _ Hvis Hend Heof H HFile)
    as (Hch & Hcov & Hsrc).
  rewrite Forall_forall in Hcov. specialize (Hcov M HM).
  rewrite HExp in *. simpl in *. rewrite HSp.
  assert (getFileID E (location Tok) = ptr_file P) as HTF.
  { destruct Hsrc as [Hnil|Hsrc].
    - rewrite Hnil in HTok. done.
    - eapply tokenize_locations; [done..|]. by eapply list_elem_of_lookup_2. }
  assert (deref TB (mkSpelledPtr (ptr_file P) (BeginSpelled M)) = Ok Tok) as Hderef.
  { unfold deref. simpl. rewrite HFile, HBS. by apply at_index_Some. }
  unfold spelledForExpanded. simpl.
  rewrite bool_decide_eq_false_2 by lia.
  rewrite (spelledForExpandedToken_in_mapping E TB (ptr_file P) File M (BeginExpanded M)
             _ _ HFile Hch HM Hcov) by lia.
  run_ok.
  rewrite (spelledForExpandedToken_in_mapping E TB (ptr_file P) File M
             (BeginExpanded M + (EndExpanded M - BeginExpanded M) - 1)
             _ _ HFile Hch HM Hcov) by lia.
  run_ok. rewrite Hderef. run_ok. rewrite HTF.
  rewrite bool_decide_eq_false_2 by (by intros ?).
  rewrite HFile.
  rewrite bool_decide_eq_false_2 by lia.
  rewrite bool_decide_eq_false_2 by lia.
  done.
Qed.
End Cuts.



(** ** File ranges of tokens *)

Lemma FileRange_new_Ok File B E_ R :
  FileRange_new File B E_ = Ok R →
  R = mkFileRange File B E_ ∧ FileID_isValid File = true ∧ (B ≤ E_)%N.
Proof.
  unfold FileRange_new.
  destruct (FileID_isValid File); simpl; [|done].
  destruct (N.leb_spec B E_); simpl; [|done].
  by intros [= <-].
Qed.

Section TokenRanges.
Context (getDecomposedLoc : SourceLocation → FileID * N).

Lemma range_Ok T R :
  range getDecomposedLoc T = Ok R →
  FileID_isValid (file R) = true ∧ (beginOffset R ≤ endOffset R)%N.
Proof.
  unfold range. destruct (isFileID (location T)); simpl; [|done].
  destruct (getDecomposedLoc (location T)) as [File Start].
  intros H. apply FileRange_new_Ok in H as (-> & ? & ?). done.
Qed.

(** X19: the range of two tokens, when Token::range returns it, begins where
    the range of the first token begins and ends where the range of the
    second ends, and the ranges of both tokens lie inside it. *)
Theorem range_between_spans (First Last_ : Token) (R : FileRange) :
  range_between getDecomposedLoc First Last_ = Ok R →
  ∃ F L, range getDecomposedLoc First = Ok F ∧
         range getDecomposedLoc Last_ = Ok L ∧
         beginOffset R = beginOffset F ∧ endOffset R = endOffset L ∧
         inside F R ∧ inside L R.
Proof.
  unfold range_between. intros H.
  apply bind_Ok_inv in H as (F & HF & H).
  apply bind_Ok_inv in H as (L & HL & H).
  apply bind_Ok_inv in H as (u1 & Hfile & H). apply assert_Ok_inv in Hfile.
  apply bind_Ok_inv in H as (u2 & Hord & H). apply assert_Ok_inv in Hord.
  apply bool_decide_eq_true in Hfile.
  apply FileRange_new_Ok in H as (-> & _ & Hle).
  destruct (range_Ok _ _ HF) as [_ HleF]. destruct (range_Ok _ _ HL) as [_ HleL].
  exists F, L. unfold inside. simpl. split_and!; try done.
  - apply orb_prop in Hord as [Heq|Hlt].
    + apply bool_decide_eq_true in Heq. by subst L.
    + apply N.leb_le in Hlt. lia.
  - apply orb_prop in Hord as [Heq|Hlt].
    + apply bool_decide_eq_true in Heq. by subst L.
    + apply N.leb_le in Hlt. lia.
Qed.

(** X20: for a token and the same token again, Token::range(SM, First,
    Last) returns what Token::range(SM) returns for the token, and fails
    as it does: the assertion on the order of the two tokens accepts
    equal ranges. *)
Theorem range_between_same (T : Token) :
  range_between getDecomposedLoc T T = range getDecomposedLoc T.
Proof.
  unfold range_between.
  destruct (range getDecomposedLoc T) as [R|f] eqn:HR; [|done]. run_ok.
  destruct (range_Ok _ _ HR) as [Hvalid Hle].
  rewrite !bool_decide_eq_true_2 by done. run_ok. simpl. run_ok.
  unfold FileRange_new. rewrite Hvalid. run_ok.
  rewrite (proj2 (N.leb_le _ _) Hle). run_ok. by destruct R.
Qed.
End TokenRanges.



(** ** A file without macros and includes *)

Lemma count_lockstep_prefix Sp Rest : count_lockstep Sp (Sp ++ Rest) = length Sp.
Proof.
  induction Sp as [|T Sp IH]; simpl; [by destruct Rest|].
  by rewrite N.eqb_refl, IH.
Qed.

Lemma touch_singleton F MF : touch {[ F := MF ]} F = {[ F := MF ]}.
Proof.
  unfold touch, Files_at. rewrite lookup_singleton_eq. simpl.
  by rewrite insert_singleton_eq.
Qed.

Lemma Files_at_singleton F MF : Files_at {[ F := MF ]} F = MF.
Proof. unfold Files_at. by rewrite lookup_singleton_eq. Qed.

Lemma build_loop_done E fuel B :
  ¬ NextExpanded B < length (ExpandedTokens (Result B)) - 1 →
  build_loop E fuel B = Ok B.
Proof. intros H. destruct fuel; simpl; by rewrite bool_decide_eq_false_2. Qed.

Section PlainFile.
Context (E : Env) (DenseMap_order : gmap FileID MarkedFile → list FileID).

Lemma buildSpelledTokens_from_known F Sp Eof Ts : ∀ I b e,
  (∀ T, T ∈ Ts ++ [Eof] → file_of E T = F) → kind Eof = tok_eof →
  buildSpelledTokens_from E (Ts ++ [Eof]) I {[ F := mkMarkedFile Sp [] b e ]}
    = Ok {[ F := mkMarkedFile Sp [] b (I + length Ts) ]}.
Proof.
  induction Ts as [|T Ts IH]; intros I b e HF Heof; simpl.
  - fold (file_of E Eof). rewrite (HF Eof) by (by apply list_elem_of_singleton).
    rewrite lookup_singleton_eq. simpl. rewrite Heof. simpl.
    unfold set_EndExpanded. simpl. rewrite insert_singleton_eq.
    by rewrite Nat.add_0_r.
  - fold (file_of E T). rewrite (HF T) by (apply elem_of_cons; by left).
    rewrite lookup_singleton_eq. simpl.
    unfold set_EndExpanded. simpl. rewrite insert_singleton_eq.
    rewrite IH; [|intros T' HT'; apply HF; apply elem_of_cons; by right|done].
    do 3 f_equal. lia.
Qed.

Lemma buildSpelledTokens_plain F Sp Eof Exps :
  tokenize E F = Ok Sp →
  (∀ T, T ∈ Sp ++ [Eof] → file_of E T = F) → kind Eof = tok_eof →
  buildSpelledTokens E (Builder_new (Sp ++ [Eof]) Exps)
    = Ok (mkBuilder (plain_result F Sp Eof) 0 ∅ Exps).
Proof.
  intros Htok HF Heof. unfold buildSpelledTokens, Builder_new, plain_result.
  cbn [Result ExpandedTokens Files NextExpanded NextSpelled CollectedExpansions].
  destruct Sp as [|T Ts]; simpl.
  - fold (file_of E Eof). rewrite (HF Eof) by (by apply list_elem_of_singleton).
    rewrite lookup_empty, Htok. simpl. rewrite Heof. simpl.
    by rewrite insert_empty.
  - fold (file_of E T). rewrite (HF T) by (apply elem_of_cons; by left).
    rewrite lookup_empty, Htok. simpl. rewrite insert_empty.
    rewrite (buildSpelledTokens_from_known F (T :: Ts) Eof Ts);
      [|intros T' HT'; apply HF; apply elem_of_cons; by right|done].
    done.
Qed.

Lemma discard_at_end F Sp Eof B D :
  Result B = (plain_result F Sp Eof) →
  NextSpelled_at (NextSpelled B) F = length Sp →
  getFileID E (getLocForEndOfFile E F) = F →
  D = F →
  ∃ B', discard E B (Some D) = Ok B' ∧ Result B' = (plain_result F Sp Eof) ∧
        NextSpelled_at (NextSpelled B') F = length Sp.
Proof.
  intros HR HNS Hend ->. unfold discard. cbn [mbind outcome_bind].
  rewrite Hend, HR. cbn [Files plain_result ExpandedTokens].
  rewrite !touch_singleton, !Files_at_singleton.
  cbn [SpelledTokens Mappings File_EndExpanded discard_loop].
  rewrite HNS. rewrite lookup_ge_None_2 by lia. cbn [mbind outcome_bind].
  unfold FlushMapping.
  rewrite bool_decide_eq_false_2 by (by intros ?). simpl.
  eexists. split; [done|]. split.
  - simpl. unfold plain_result, set_Mappings. simpl.
    by rewrite insert_singleton_eq.
  - simpl. by rewrite NextSpelled_at_insert_eq.
Qed.

Lemma drain_at_end F Sp Eof Keys : ∀ B,
  Result B = (plain_result F Sp Eof) →
  NextSpelled_at (NextSpelled B) F = length Sp →
  getFileID E (getLocForEndOfFile E F) = F →
  Forall (λ D, D = F) Keys →
  ∃ B', drain E B Keys = Ok B' ∧ Result B' = (plain_result F Sp Eof).
Proof.
  induction Keys as [|D Keys IH]; intros B HR HNS Hend HK; simpl.
  - by exists B.
  - apply Forall_cons in HK as [HD HK].
    destruct (discard_at_end F Sp Eof B D HR HNS Hend HD) as (B1 & -> & HR1 & HNS1).
    simpl. by apply IH.
Qed.

(** X21: a translation unit of one file without macro expansions and
    includes builds, whatever the capturer recorded: when the expanded
    tokens are the spelled tokens of the file, as tokenize returns them,
    followed by the end-of-file token of the file, consume returns the
    buffer in which the file holds these spelled tokens, no mapping, and
    the expanded range from 0 to the end-of-file token.  The spelled
    tokens are file tokens, each its own expansion location; the end of
    the file lies in the file, and the range-for of build visits tracked
    files only. *)
Theorem consume_plain_file (F : FileID) (Sp : list Token) (Eof : Token)
    (Exps : gmap N SourceLocation) :
  visits_keys DenseMap_order →
  tokenize E F = Ok Sp →
  (∀ T, T ∈ Sp ++ [Eof] → file_of E T = F) →
  (∀ T, T ∈ Sp → isFileID (location T) = true ∧
                 getExpansionLoc E (location T) = location T) →
  kind Eof = tok_eof →
  getFileID E (getLocForEndOfFile E F) = F →
  consume E DenseMap_order (Sp ++ [Eof]) Exps = Ok (plain_result F Sp Eof).
Proof.
  intros Hvis Htok HF Hfile Heof Hend. unfold consume, build.
  cbn [Result ExpandedTokens Builder_new].
  rewrite bool_decide_eq_false_2 by (by destruct Sp).
  cbn [negb assert mbind outcome_bind].
  rewrite last_snoc, Heof. cbn [kind_is assert mbind outcome_bind].
  rewrite (buildSpelledTokens_plain F Sp Eof) by done. cbn [mbind outcome_bind].
  assert (∃ B2, build_loop E (length (ExpandedTokens (Result (mkBuilder (plain_result F Sp Eof) 0 ∅ Exps))))
                  (mkBuilder (plain_result F Sp Eof) 0 ∅ Exps) = Ok B2 ∧
                Result B2 = (plain_result F Sp Eof) ∧
                NextSpelled_at (NextSpelled B2) F = length Sp) as (B2 & -> & HR2 & HNS2).
  { cbn [Result ExpandedTokens plain_result]. rewrite length_app. cbn [length].
    replace (length Sp + 1) with (S (length Sp)) by lia.
    cbn [build_loop NextExpanded Result ExpandedTokens plain_result].
    rewrite length_app. cbn [length].
    destruct (Sp !! 0) as [T|] eqn:HT0.
    2: { apply lookup_ge_None in HT0. rewrite bool_decide_eq_false_2 by lia.
         eexists. split; [done|]. split; [done|].
         simpl. unfold NextSpelled_at. rewrite lookup_empty. simpl. lia. }
    assert (0 < length Sp) as Hpos by (by eapply lookup_lt_Some).
    rewrite bool_decide_eq_true_2 by lia.
    assert (T ∈ Sp) as HT by (by eapply list_elem_of_lookup_2).
    destruct (Hfile T HT) as [HisFile Hself].
    assert (getFileID E (getExpansionLoc E (location T)) = F) as HFT.
    { apply HF. apply elem_of_app. by left. }
    assert ((Sp ++ [Eof]) !! 0 = Some T) as HT0' by (by apply lookup_app_l_Some).
    unfold discard. cbn [Result ExpandedTokens NextExpanded plain_result].
    rewrite (at_index_Some _ _ _ HT0'). cbn [mbind outcome_bind].
    rewrite HFT. cbn [Files CollectedExpansions NextSpelled plain_result].
    rewrite !touch_singleton, !Files_at_singleton.
    cbn [SpelledTokens Mappings]. unfold NextSpelled_at at 1 2. rewrite lookup_empty.
    cbn [default discard_loop]. rewrite HT0.
    rewrite Hself, N.ltb_irrefl. cbn [negb mbind outcome_bind].
    unfold FlushMapping. rewrite bool_decide_eq_false_2 by (by intros ?).
    unfold set_Mappings. cbn [SpelledTokens File_BeginExpanded File_EndExpanded].
    rewrite insert_singleton_eq. cbn [mbind outcome_bind].
    unfold advance. cbn [Result ExpandedTokens NextExpanded].
    rewrite (at_index_Some _ _ _ HT0'). cbn [mbind outcome_bind].
    rewrite HFT, HisFile. cbn [Files CollectedExpansions NextSpelled NextExpanded plain_result].
    rewrite !touch_singleton, !Files_at_singleton. cbn [SpelledTokens].
    rewrite NextSpelled_at_insert_eq.
    rewrite !drop_0, count_lockstep_prefix. cbn [Nat.add].
    cbn [mbind outcome_bind NextExpanded]. rewrite bool_decide_eq_false_2 by lia.
    rewrite build_loop_done by (simpl; rewrite length_app; simpl; lia).
    eexists. split; [done|]. split; [done|].
    simpl. by rewrite NextSpelled_at_insert_eq. }
  cbn [mbind outcome_bind].
  destruct (drain_at_end F Sp Eof (DenseMap_order (Files (Result B2))) B2 HR2 HNS2 Hend)
    as (B3 & -> & HR3).
  { apply Forall_forall. intros D HD. apply Hvis in HD as [MF HMF].
    rewrite HR2 in HMF. simpl in HMF.
    by apply lookup_singleton_Some in HMF as [-> _]. }
  simpl. by rewrite HR3.
Qed.
End PlainFile.



(** ** Ranges of file tokens *)

Lemma rightmost_with_ext {A} (P Q : A → bool) (v : list A) :
  (∀ x, x ∈ v → P x = Q x) → rightmost_with P v = rightmost_with Q v.
Proof.
  induction v as [|x v IH]; intros H; simpl; [done|].
  rewrite IH by (intros y Hy; apply H, elem_of_cons; by right).
  rewrite (H x) by (apply elem_of_cons; by left). done.
Qed.

Lemma run_start_inside File b n k :
  none_begins_inside File b n → b ≤ k → k < b + n →
  run_start File k = run_start File b.
Proof.
  intros Hnone Hbk Hkn. unfold run_start, mapping_before.
  f_equal. apply rightmost_with_ext. intros M HM.
  destruct (Hnone M HM); apply bool_decide_ext; lia.
Qed.

Section FileRuns.
Context (E : Env) (DenseMap_order : gmap FileID MarkedFile → list FileID).

(** X22: for a range of expanded tokens of one file that no macro expansion
    and no directive touches, spelledForExpanded returns the spelled
    tokens at the same locations.  The [n] expanded tokens from [b] on
    are no end-of-file tokens; they belong, with the tokens since the
    mapping before them (or since the begin of the file), to the file [F],
    and no mapping of [F] begins among them.  Then the range that
    spelledForExpanded returns holds [n] spelled tokens of [F], and the
    k-th of them is at the location of the k-th expanded token.  (Assumed
    of the collaborators: the range-for of build visits tracked files
    only, the end of every file that contributed tokens lies in that
    file, no captured expansion starts at an end-of-file token, the raw
    lexers deliver locations of their own files; the sizes fit the 32-bit
    indices.) *)
Theorem spelledForExpanded_file_run (Expanded_ : list Token)
    (Expansions_ : gmap N SourceLocation) (TB : TokenBuffer)
    (F : FileID) (File : MarkedFile) (b n : nat) :
  visits_keys DenseMap_order → end_in_file E Expanded_ →
  eof_not_captured E Expanded_ Expansions_ →
  lexers_account E Expanded_ → lexer_in_file E F →
  consume E DenseMap_order Expanded_ Expansions_ = Ok TB →
  Files TB !! F = Some File →
  (Z.of_nat (length Expanded_) < 2 ^ 32)%Z →
  (Z.of_nat (length (SpelledTokens File)) < 2 ^ 32)%Z →
  0 < n → b + n ≤ length Expanded_ →
  (∀ k T, b ≤ k → k < b + n → Expanded_ !! k = Some T → kind T ≠ tok_eof) →
  (run_start File b).1 ≤ b →
  run_of E Expanded_ F (run_start File b).1 (b + n) →
  none_begins_inside File b n →
  let first := (run_start File b).2 + (b - (run_start File b).1) in
  spelledForExpanded E TB (mkExpandedRef b n)
    = Ok (Some (mkSpelledRef (mkSpelledPtr F first) (mkSpelledPtr F (first + n)))) ∧
  ∀ k, k < n →
    ∃ T T', Expanded_ !! (b + k) = Some T ∧
            SpelledTokens File !! (first + k) = Some T' ∧
            location T' = location T.
Proof.
  intros Hvis Hend Heof Hlex HlexF H HFile Hfit1 Hfit2 Hn Hlen Hkind Hle Hrun Hnone.
  destruct (consume_synced E DenseMap_order _ _ _ Hvis Hend Heof Hlex H)
    as (B3 & HB3 & [(HEx & _) Hdr] & Hsync).
  specialize (Hdr F). rewrite HB3, (Files_at_lookup _ _ _ HFile) in Hdr.
  apply chain_sorted_b in Hdr.
  assert (ExpandedTokens TB = Expanded_) as HExTB by (by rewrite <- HB3).
  assert (∀ k, k < n →
            ∃ T T', Expanded_ !! (b + k) = Some T ∧
              spelledForExpandedToken E TB (b + k)
                = Ok (mkSpelledPtr F ((run_start File b).2 + (b - (run_start File b).1) + k),
                      None) ∧
              SpelledTokens File
                !! ((run_start File b).2 + (b - (run_start File b).1) + k) = Some T' ∧
              location T' = location T) as Heach.
  { intros k Hk.
    destruct (lookup_lt_is_Some_2 Expanded_ (b + k)) as [T HT]; [lia|].
    assert (file_of E T = F) as HF by (eapply (Hrun (b + k)); [lia|lia|done]).
    assert (run_start File (b + k) = run_start File b) as Hsame
      by (eapply run_start_inside; [done|lia|lia]).
    assert (kind T ≠ tok_eof) as HkT by (eapply Hkind; [| |done]; lia).
    specialize (Hsync (b + k) T HT HkT). unfold synced in Hsync.
    rewrite HB3, HF, (Files_at_lookup _ _ _ HFile), Hsame in Hsync.
    destruct Hsync as (T' & HT' & Hloc); [lia| |].
    { intros i Ti Hlo Hhi HTi. eapply (Hrun i); [done|lia|done]. }
    replace ((run_start File b).2 + (b + k - (run_start File b).1))
      with ((run_start File b).2 + (b - (run_start File b).1) + k) in HT' by lia.
    exists T, T'. split_and!; [done| |done|done].
    rewrite (spelledForExpandedToken_outside E TB (b + k) T File);
      rewrite ?HF, ?Hsame, ?HExTB; try done; try lia.
    - do 3 f_equal. lia.
    - apply lookup_lt_Some in HT'. lia. }
  intros first. split.
  - destruct (consume_mapping_facts E DenseMap_order _ _ _ _ _ Hvis Hend Heof H HFile)
      as (_ & _ & Hsrc).
    assert (∀ i T', SpelledTokens File !! i = Some T' →
                    getFileID E (location T') = F) as Hloc.
    { intros i T' HT'. destruct Hsrc as [Hnil|Hsrc].
      - by rewrite Hnil in HT'.
      - eapply tokenize_locations; [done..|]. by eapply list_elem_of_lookup_2. }
    destruct (Heach 0 Hn) as (T1 & T1' & _ & HP1 & HS1 & _).
    destruct (Heach (n - 1) ltac:(lia)) as (T2 & T2' & _ & HP2 & HS2 & _).
    rewrite !Nat.add_0_r in HP1, HS1.
    unfold spelledForExpanded. cbn [Data Length].
    rewrite bool_decide_eq_false_2 by lia.
    rewrite HP1. run_ok. rewrite !Nat.add_0_r.
    replace (b + n - 1) with (b + (n - 1)) by lia. rewrite HP2. run_ok.
    unfold deref. cbn [ptr_file ptr_index]. rewrite HFile.
    rewrite (at_index_Some _ _ _ HS1). run_ok.
    rewrite (at_index_Some _ _ _ HS2). run_ok.
    rewrite (Hloc _ _ HS1), (Hloc _ _ HS2).
    rewrite bool_decide_eq_false_2 by (by intros ?).
    rewrite HFile. unfold first. do 4 f_equal. lia.
  - intros k Hk. destruct (Heach k Hk) as (T & T' & HT & _ & HS & Hloc).
    by exists T, T'.
Qed.
End FileRuns.


(** * More examples, run *)

Lemma example_order_transitive Macros Runs : tu_transitive (example_env Macros Runs).
Proof.
  intros A B C. unfold example_env. cbn [isBeforeInTranslationUnit].
  rewrite !N.ltb_lt. lia.
Qed.

(** X3: the call of [B] in [A(2)] overwrites the value at the key of [A]
    and keeps the rest. *)
Lemma MacroExpands_keeps_witness :
  (∀ K, is_Some (table A_capturer !! K) → is_Some (table merged_capturer !! K)) ∧
  (∀ K, K ≠ record_key merged_env B_range →
        table merged_capturer !! K = table A_capturer !! K) ∧
  (is_Some (Collector merged_capturer) ↔ is_Some (Collector A_capturer)) ∧
  (LastExpansionEnd merged_capturer ≠ LastExpansionEnd A_capturer →
   isValid (LastExpansionEnd A_capturer) = true →
   isBeforeInTranslationUnit merged_env (LastExpansionEnd A_capturer)
     (LastExpansionEnd merged_capturer) = true).
Proof.
  apply (MacroExpands_keeps merged_env A_capturer merged_capturer B_range).
  vm_compute. reflexivity.
Defined.

(** X4: the two events of [A(2)] leave a table of file locations. *)
Lemma MacroExpands_run_in_files_witness : table_in_files merged_capturer.
Proof.
  apply (MacroExpands_run_in_files rooted_env [A_range; B_range]
           enabled_capturer merged_capturer).
  - intros L. simpl. destruct (isFileID L) eqn:HL; [exact HL|reflexivity].
  - intros K V H. vm_compute in H. discriminate H.
  - vm_compute. reflexivity.
Defined.

(** X5: in [int x;] the range from [x] to [;] holds the expanded tokens 1
    and 2. *)
Lemma expandedTokens_exact_witness :
  expandedTokens plain_env plain_buffer (mkSourceRange 1004%N 1005%N)
    = mkExpandedRef 1 2 ∧
  ∀ i T, ExpandedTokens plain_buffer !! i = Some T →
    (1 ≤ i ∧ i < 1 + 2) ↔ within plain_env (mkSourceRange 1004%N 1005%N) T.
Proof.
  split; [reflexivity|].
  apply (expandedTokens_exact plain_env plain_buffer (mkSourceRange 1004%N 1005%N)).
  - apply example_order_transitive.
  - intros i j x y Hij Hx Hy. left.
    destruct i as [|[|[|[|i]]]]; destruct j as [|[|[|[|j]]]]; simpl in *;
      simplify_eq; try lia; reflexivity.
  - reflexivity.
Defined.

(** X7: [foo] and [bar] both touch 1003. *)
Lemma spelledTokensTouching_exact_witness :
  ∃ R, spelledTokensTouching touching_env 1003%N touching_buffer = Ok R ∧
       ∀ i T, SpelledTokens touching_file !! i = Some T →
              in_ref R i ↔ touches 1003%N T.
Proof.
  apply (spelledTokensTouching_exact touching_env 1003%N touching_buffer touching_file).
  - reflexivity.
  - reflexivity.
  - split.
    + each_token; vm_compute; discriminate.
    + intros i j x y Hij Hx Hy.
      destruct i as [|[|i]]; destruct j as [|[|j]]; simpl in *;
        simplify_eq; try lia; split; vm_compute; (reflexivity || discriminate).
Defined.

(** X8: of [foo] and [bar], spelledIdentifierTouching returns [foo]. *)
Lemma spelledIdentifierTouching_first_witness :
  ∃ r, spelledIdentifierTouching touching_env 1003%N touching_buffer = Ok r ∧
    match r with
    | Some P =>
        ptr_file P = getFileID touching_env 1003%N ∧
        in_ref (mkSpelledRef (mkSpelledPtr 1%Z 0) (mkSpelledPtr 1%Z 2)) (ptr_index P) ∧
        (∃ T, SpelledTokens touching_file !! ptr_index P = Some T ∧
              kind T = tok_identifier) ∧
        ∀ j T, in_ref (mkSpelledRef (mkSpelledPtr 1%Z 0) (mkSpelledPtr 1%Z 2)) j →
               j < ptr_index P → SpelledTokens touching_file !! j = Some T →
               kind T ≠ tok_identifier
    | None =>
        ∀ j T, in_ref (mkSpelledRef (mkSpelledPtr 1%Z 0) (mkSpelledPtr 1%Z 2)) j →
               SpelledTokens touching_file !! j = Some T →
               kind T ≠ tok_identifier
    end.
Proof.
  apply (spelledIdentifierTouching_first touching_env 1003%N touching_buffer
           (mkSpelledRef (mkSpelledPtr 1%Z 0) (mkSpelledPtr 1%Z 2)) touching_file).
  - reflexivity.
  - reflexivity.
Defined.

(** X9: the one expansion of [int a = X;] that begins at an identifier is
    the one of [X]; the mapping of the directive begins at [#]. *)
Lemma macroExpansions_start_expansions_witness :
  ∃ Ps, macroExpansions macro_buffer 1%Z = Ok Ps ∧
    ∀ P, P ∈ Ps ↔
      ptr_file P = 1%Z ∧
      (∃ T, deref macro_buffer P = Ok T ∧ kind T = tok_identifier) ∧
      ∃ Ex, expansionStartingAt macro_env macro_buffer P = Ok (Some Ex).
Proof.
  apply (proj2 (macroExpansions_start_expansions macro_env macro_buffer 1%Z) macro_file).
  - reflexivity.
  - repeat constructor.
  - intros i j x y Hij Hx Hy.
    destruct i as [|[|i]]; destruct j as [|[|j]]; simpl in *;
      simplify_eq; simpl; lia.
  - each_token; split; reflexivity.
Defined.

(** The assumptions on the examples. *)
Ltac example_assumption :=
  first
    [ exact example_order_visits_keys
    | unfold end_in_file; each_token; reflexivity
    | unfold eof_not_captured; each_token; intros Hk; (discriminate Hk || reflexivity) ].

(** X10: the buffer of the main file and its header holds the collected
    stream, and both files with their raw tokens. *)
Lemma consume_stores_streams_witness :
  ExpandedTokens include_buffer = include_expanded ∧
  ∀ Tok, Tok ∈ include_expanded →
    ∃ File, Files include_buffer !! file_of include_env Tok = Some File ∧
            tokenize include_env (file_of include_env Tok) = Ok (SpelledTokens File) ∧
            spelledTokens include_buffer (file_of include_env Tok)
              = tokenize include_env (file_of include_env Tok).
Proof.
  apply (consume_stores_streams include_env example_order include_expanded ∅
           include_buffer).
  exact include_built.
Defined.

(** X11: the token [b] of the main file, at the index 4, lies in the
    expanded range of the main file. *)
Lemma consume_file_ranges_witness :
  ∃ File, Files include_buffer !! 1%Z = Some File ∧
    file_range include_env include_expanded 1%Z File ∧
    File_BeginExpanded File ≤ 4 ∧ 4 ≤ File_EndExpanded File ∧
    (tok_identifier ≠ tok_eof → 4 < File_EndExpanded File) ∧
    File_EndExpanded File ≤ length include_expanded.
Proof.
  apply (consume_file_ranges include_env example_order include_expanded ∅
           include_buffer 4 (mkToken 1017%N 1%N tok_identifier)).
  - exact include_built.
  - reflexivity.
Defined.

(** X12: the header is tracked, since the token [a] is accounted to it. *)
Lemma consume_tracks_files_witness :
  is_Some (Files include_buffer !! 2%Z) ↔
  ∃ Tok, Tok ∈ include_expanded ∧ file_of include_env Tok = 2%Z.
Proof.
  apply (consume_tracks_files include_env example_order include_expanded ∅
           include_buffer 2%Z); [example_assumption..|].
  exact include_built.
Defined.

(** X13: the mapping of [X] lies inside its file. *)
Lemma consume_mappings_in_bounds_witness :
  7 ≤ 8 ∧ 8 ≤ length (SpelledTokens macro_file) ∧
  File_BeginExpanded macro_file ≤ 3 ∧ 3 ≤ 4 ∧
  4 ≤ File_EndExpanded macro_file ∧
  File_EndExpanded macro_file ≤ length (ExpandedTokens macro_buffer).
Proof.
  apply (consume_mappings_in_bounds macro_env example_order macro_expanded
           macro_expansions macro_buffer 1%Z macro_file (mkMapping 7 8 3 4));
    [example_assumption..| | |].
  - exact macro_built.
  - reflexivity.
  - apply list_elem_of_further, list_elem_of_here.
Defined.

(** X14: the token [b] of the main file resolves to the spelled token 4 of
    the main file, one place behind the mapping of the include directive,
    which is [b]. *)
Lemma spelledForExpandedToken_same_location_witness :
  ∃ P T',
    spelledForExpandedToken include_env include_buffer 4 = Ok (P, None) ∧
    P = mkSpelledPtr 1%Z 4 ∧
    deref include_buffer P = Ok T' ∧
    location T' = 1017%N.
Proof.
  apply (spelledForExpandedToken_same_location include_env example_order
           include_expanded ∅ include_buffer 4
           (mkToken 1017%N 1%N tok_identifier) include_main);
    [example_assumption..| | | | | | | | |].
  - unfold lexers_account. each_token; unfold lexer_accounts_to; simpl;
      repeat constructor.
  - exact include_built.
  - reflexivity.
  - discriminate.
  - reflexivity.
  - simpl. lia.
  - simpl. lia.
  - simpl. lia.
  - intros k T Hlo Hhi HT. simpl in Hlo.
    destruct k as [|[|[|[|[|k]]]]]; simpl in *; simplify_eq; try lia; reflexivity.
Defined.

(** X15: with an expansion recorded at [X] that ends before it starts,
    discard does not come to an end. *)
Lemma consume_faults_witness :
  consume macro_env example_order backwards_expanded backwards_expansions
    = Fault Diverges ∧
  consume_fault backwards_expansions Diverges.
Proof.
  split; [vm_compute; reflexivity|].
  apply (consume_faults macro_env example_order backwards_expanded
           backwards_expansions Diverges).
  vm_compute. reflexivity.
Defined.

(** X16: at [int] of [int x;] advance moves on. *)
Lemma advance_progress_witness :
  match advance plain_env plain_builder with
  | Ok B' =>
      NextExpanded plain_builder ≤ NextExpanded B' ∧
      (NextExpanded B' = NextExpanded plain_builder ↔
       isFileID 1000%N = true ∧
       ∀ S_, SpelledTokens (Files_at (Files plain_buffer) 1%Z)
               !! NextSpelled_at (NextSpelled plain_builder) 1%Z = Some S_ →
             location S_ ≠ 1000%N) ∧
      (isFileID 1000%N = false →
       isValid (PPExpansions_lookup (CollectedExpansions plain_builder)
                  (getExpansionLoc plain_env 1000%N)) = true)
  | Fault f =>
      f = AssertionFailure ∧ isFileID 1000%N = false ∧
      isValid (PPExpansions_lookup (CollectedExpansions plain_builder)
                 (getExpansionLoc plain_env 1000%N)) = false
  end.
Proof.
  apply (advance_progress plain_env plain_builder (mkToken 1000%N 3%N (tok_keyword 0))).
  reflexivity.
Defined.

(** X17: the expanded token [+] alone cuts the expansion of [A(2)]. *)
Lemma spelledForExpanded_refuses_cut_witness :
  spelledForExpanded merged_env merged_buffer (mkExpandedRef 1 1)
    ≠ Ok (Some (mkSpelledRef (mkSpelledPtr 1%Z 13) (mkSpelledPtr 1%Z 17))).
Proof.
  apply (spelledForExpanded_refuses_cut merged_env example_order merged_expanded
           merged_expansions merged_buffer 1%Z merged_file (mkMapping 13 17 0 3));
    [example_assumption..| | | | |].
  - exact merged_built.
  - reflexivity.
  - apply list_elem_of_further, list_elem_of_here.
  - simpl. lia.
  - left. simpl. lia.
Defined.

(** X18: the expansion found at [X] maps back to [X]. *)
Lemma expansion_round_trip_witness :
  spelledForExpanded macro_env macro_buffer (mkExpandedRef 3 (4 - 3))
    = Ok (Some (mkSpelledRef (mkSpelledPtr 1%Z 7) (mkSpelledPtr 1%Z 8))).
Proof.
  apply (expansion_round_trip macro_env example_order macro_expanded macro_expansions
           macro_buffer (mkSpelledPtr 1%Z 7)
           (mkExpansion (mkSpelledRef (mkSpelledPtr 1%Z 7) (mkSpelledPtr 1%Z 8))
                        (mkExpandedRange 3 4)));
    [example_assumption..| | | |].
  - unfold lexer_in_file. simpl. repeat constructor.
  - exact macro_built.
  - reflexivity.
  - simpl. lia.
Defined.

(** X19: the range from [foo] to [bar]. *)
Lemma range_between_spans_witness :
  ∃ F L, range example_decomposed foo = Ok F ∧
         range example_decomposed bar = Ok L ∧
         beginOffset (mkFileRange 1%Z 0%N 6%N) = beginOffset F ∧
         endOffset (mkFileRange 1%Z 0%N 6%N) = endOffset L ∧
         inside F (mkFileRange 1%Z 0%N 6%N) ∧ inside L (mkFileRange 1%Z 0%N 6%N).
Proof.
  apply (range_between_spans example_decomposed foo bar (mkFileRange 1%Z 0%N 6%N)).
  reflexivity.
Defined.

(** X21: [int x;] is such a file. *)
Lemma consume_plain_file_witness :
  consume plain_env example_order (plain_spelled ++ [mkToken 1006%N 0%N tok_eof]) ∅
    = Ok (plain_result 1%Z plain_spelled (mkToken 1006%N 0%N tok_eof)).
Proof.
  apply (consume_plain_file plain_env example_order 1%Z plain_spelled
           (mkToken 1006%N 0%N tok_eof) ∅).
  - exact example_order_visits_keys.
  - reflexivity.
  - each_token; reflexivity.
  - each_token; split; reflexivity.
  - reflexivity.
  - reflexivity.
Defined.

(** X22: the three expanded tokens [int b ;] of the main file map to its
    spelled tokens 3, 4 and 5. *)
Lemma spelledForExpanded_file_run_witness :
  spelledForExpanded include_env include_buffer (mkExpandedRef 3 3)
    = Ok (Some (mkSpelledRef (mkSpelledPtr 1%Z 3) (mkSpelledPtr 1%Z (3 + 3)))) ∧
  ∀ k, k < 3 →
    ∃ T T', include_expanded !! (3 + k) = Some T ∧
            SpelledTokens include_main !! (3 + k) = Some T' ∧
            location T' = location T.
Proof.
  apply (spelledForExpanded_file_run include_env example_order include_expanded ∅
           include_buffer 1%Z include_main 3 3);
    [example_assumption..| | | | | | | | | | | |].
  - unfold lexers_account. each_token; unfold lexer_accounts_to; simpl;
      repeat constructor.
  - unfold lexer_in_file. simpl. repeat constructor.
  - exact include_built.
  - reflexivity.
  - simpl. lia.
  - simpl. lia.
  - lia.
  - simpl. lia.
  - intros k T Hlo Hhi HT.
    destruct k as [|[|[|[|[|[|k]]]]]]; simpl in *; simplify_eq; try lia; discriminate.
  - simpl. lia.
  - intros k T Hlo Hhi HT. simpl in Hlo, Hhi.
    destruct k as [|[|[|[|[|[|k]]]]]]; simpl in *; simplify_eq; try lia; reflexivity.
  - intros M HM. apply list_elem_of_singleton in HM as ->. left. simpl. lia.
Defined.

(** * The mappings of a stream in the order of the source *)



Section Lexers.
Context (E : Env).



End Lexers.

(** ** What the cursors pass *)



Section Cursors.
Context (E : Env).


End Cursors.

(** ** The spelled cursors along the main loop *)


Section SourceOrderSteps.
Context (E : Env).
Context (Expanded_ : list Token) (Exps : gmap N SourceLocation).




End SourceOrderSteps.

(** ** The mappings of a stream in source order *)

Section SourceOrderBuild.
Context (E : Env) (DenseMap_order : gmap FileID MarkedFile → list FileID).





End SourceOrderBuild.


(** * The examples as streams in source order *)







(** ** C6 *)


(** The order of the stream is needed: when a file token arrives between
    two tokens of the expansion at 1000, the second run of the expansion
    finds the spelled cursor behind the macro and gets the mapping
    [2,2) => [2,3). *)
Lemma out_of_order_stream_empty_spelled_side :
  ¬ in_source_order split_env split_expanded ∧
  consume split_env example_order split_expanded split_expansions = Ok split_buffer ∧
  ¬ mappings_spelled_nonempty split_buffer.
Proof.
  split_and!.
  - intros H.
    destruct (H 0 2 _ _ ltac:(lia) eq_refl eq_refl eq_refl) as [Hlt|[_ Hrun]].
    + vm_compute in Hlt. discriminate Hlt.
    + specialize (Hrun 1 _ ltac:(lia) ltac:(lia) eq_refl). vm_compute in Hrun.
      discriminate Hrun.
  - exact split_built.
  - intros H.
    specialize (H 1%Z split_file (mkMapping 2 2 2 3) eq_refl).
    simpl in H. assert (2 < 2) as Habs; [|lia].
    apply H. apply list_elem_of_further, list_elem_of_here.
Qed.

(** ** C1 *)


(** ** C3 *)

